(** * srdf::Model: loading a semantic robot description

    A shallow embedding of [srdf/src/model.cpp].  The document tree
    (TinyXML), the kinematic model (urdf) and the diagnostics channel
    (rosconsole) are collaborators of the loader; they are represented by
    the data the loader observes: elements with a tag, attributes and
    children, links with a name and a parent pointer, and a list of
    reported messages.  Numeric parsing ([boost::lexical_cast<double>])
    is a parameter of the development. *)

From Stdlib Require Import Ascii String List Relations Wellfounded QArith.
From stdpp Require Import gmap strings list fin_maps.

Open Scope string_scope.
Open Scope list_scope.
Open Scope nat_scope.

(** ** Characters and strings *)

(** [std::isspace] in the classic locale: space, and the control
    characters 9 (TAB) to 13 (CR). *)
Definition isspace (c : ascii) : bool :=
  let n := nat_of_ascii c in
  Nat.eqb n 32 || (Nat.leb 9 n && Nat.leb n 13).

(** [::tolower] in the classic locale. *)
Definition tolower (c : ascii) : ascii :=
  let n := nat_of_ascii c in
  if Nat.leb 65 n && Nat.leb n 90 then ascii_of_nat (n + 32) else c.

Fixpoint transform (f : ascii -> ascii) (s : string) : string :=
  match s with
  | EmptyString => EmptyString
  | String c s' => String (f c) (transform f s')
  end.

Fixpoint trim_left (s : string) : string :=
  match s with
  | EmptyString => EmptyString
  | String c s' => if isspace c then trim_left s' else s
  end.

Fixpoint trim_right (s : string) : string :=
  match s with
  | EmptyString => EmptyString
  | String c s' =>
      match trim_right s' with
      | EmptyString => if isspace c then EmptyString else String c EmptyString
      | r => String c r
      end
  end.

(** [boost::trim] / [boost::trim_copy]: whitespace is removed at the
    right end, then at the left end. *)
Definition trim (s : string) : string := trim_left (trim_right s).

(** ** The document tree *)

#[local] Unset Elimination Schemes.
Inductive TiXmlElement : Type :=
  Element (value : string)
          (attributes : list (string * string))
          (children : list TiXmlElement).
#[local] Set Elimination Schemes.

Definition ValueStr (e : TiXmlElement) : string :=
  match e with Element v _ _ => v end.

Definition attribute_set (e : TiXmlElement) : list (string * string) :=
  match e with Element _ a _ => a end.

Definition child_nodes (e : TiXmlElement) : list TiXmlElement :=
  match e with Element _ _ c => c end.

(** [e->Attribute(name)]: the value of the first attribute of that name,
    a null pointer when there is none. *)
Fixpoint find_attribute (name : string) (l : list (string * string))
  : option string :=
  match l with
  | [] => None
  | (k, v) :: l' => if String.eqb k name then Some v else find_attribute name l'
  end.

Definition Attribute (e : TiXmlElement) (name : string) : option string :=
  find_attribute name (attribute_set e).

(** The elements visited by
    [for (x = e->FirstChildElement(tag); x; x = x->NextSiblingElement(tag))]. *)
Definition ChildElements (tag : string) (nodes : list TiXmlElement)
  : list TiXmlElement :=
  List.filter (fun c => String.eqb (ValueStr c) tag) nodes.

Definition FirstChildElement (tag : string) (nodes : list TiXmlElement)
  : option TiXmlElement :=
  head (ChildElements tag nodes).

(** A document is a node whose children are the top-level elements. *)
Record TiXmlDocument : Type := Document { top_level : list TiXmlElement }.

(** ** The kinematic model *)

(** A link gives its name and its parent link; [getParent] is a null
    pointer at the root of the tree, so a link is either a root or hangs
    below its parent. *)
Inductive Link : Type :=
| RootLink (name : string)
| ChildLink (name : string) (parent : Link).

Definition name (l : Link) : string :=
  match l with RootLink n | ChildLink n _ => n end.

Definition getParent (l : Link) : option Link :=
  match l with RootLink _ => None | ChildLink _ p => Some p end.

Record ModelInterface : Type := {
  getName : string;
  getLink : string -> option Link;
  getJoint : string -> bool
}.

(** ** Diagnostics *)

(** A reported message: the severity, the format string and its arguments. *)
Inductive Diagnostic : Type :=
| ROS_ERROR (fmt : string) (args : list string)
| ROS_WARN (fmt : string) (args : list string).

(** ** The semantic model *)

Module VirtualJoint.
Record t : Type := mk {
  name_ : string;
  child_link_ : string;
  parent_frame_ : string;
  type_ : string
}.
End VirtualJoint.

Module Group.
Record t : Type := mk {
  name_ : string;
  links_ : list string;
  joints_ : list string;
  chains_ : list (string * string);
  subgroups_ : list string
}.
End Group.

Module GroupState.
Record t (D : Type) : Type := mk {
  name_ : string;
  group_ : string;
  joint_values_ : gmap string (list D)
}.
Arguments mk {D}.
Arguments name_ {D}.
Arguments group_ {D}.
Arguments joint_values_ {D}.
End GroupState.

Module EndEffector.
Record t : Type := mk {
  name_ : string;
  parent_link_ : string;
  component_group_ : string
}.
End EndEffector.

Module VisualSensor.
Record t (D : Type) : Type := mk {
  name_ : string;
  frame_ : string;
  fov_angle_ : D;
  min_range_ : D;
  max_range_ : D
}.
Arguments mk {D}.
Arguments name_ {D}.
Arguments frame_ {D}.
Arguments fov_angle_ {D}.
Arguments min_range_ {D}.
Arguments max_range_ {D}.
End VisualSensor.

Record Model (D : Type) : Type := MkModel {
  name_ : string;
  groups_ : list Group.t;
  group_states_ : list (GroupState.t D);
  virtual_joints_ : list VirtualJoint.t;
  end_effectors_ : list EndEffector.t;
  visual_sensors_ : list (VisualSensor.t D);
  disabled_collisions_ : list (string * string)
}.
Arguments MkModel {D}.
Arguments name_ {D}.
Arguments groups_ {D}.
Arguments group_states_ {D}.
Arguments virtual_joints_ {D}.
Arguments end_effectors_ {D}.
Arguments visual_sensors_ {D}.
Arguments disabled_collisions_ {D}.

(** ** Input streams *)

(** The part of [std::stringstream] the loader uses: the characters not
    yet read and the two state bits it can raise. *)
Record stringstream : Type := MkStream {
  buffer : string;
  eofbit : bool;
  failbit : bool
}.

Definition good (ss : stringstream) : bool :=
  negb (eofbit ss) && negb (failbit ss).

Definition eof (ss : stringstream) : bool := eofbit ss.

Definition is_empty (s : string) : bool :=
  match s with EmptyString => true | _ => false end.

(** The longest prefix without whitespace, and the rest. *)
Fixpoint take_word (s : string) : string * string :=
  match s with
  | EmptyString => (EmptyString, EmptyString)
  | String c s' =>
      if isspace c then (EmptyString, s)
      else let (w, r) := take_word s' in (String c w, r)
  end.

(** [ss >> val] for a [std::string]: leading whitespace is skipped, then
    characters are taken up to the next whitespace or the end of the
    input.  Reaching the end raises [eofbit]; extracting nothing raises
    [failbit] and leaves [val] empty. *)
Definition extract (ss : stringstream) : string * stringstream :=
  if good ss then
    match trim_left (buffer ss) with
    | EmptyString => (EmptyString, MkStream EmptyString true true)
    | s => let (w, r) := take_word s in (w, MkStream r (is_empty r) false)
    end
  else (EmptyString, MkStream (buffer ss) (eofbit ss) true).

(** [ss >> std::ws]: whitespace is skipped; reaching the end raises
    [eofbit].  A stream that is not good is left as it is (the loop below
    only asks whether the stream is good). *)
Definition ws (ss : stringstream) : stringstream :=
  if good ss then
    let r := trim_left (buffer ss) in MkStream r (is_empty r) false
  else ss.

(** [std::getline] until the stream stops being good, each line put back
    with a newline: what [initFile] hands to [initString]. *)
Definition newline : ascii := ascii_of_nat 10.

Fixpoint read_lines (contents : string) : string :=
  match contents with
  | EmptyString => String newline EmptyString
  | String c s' => String c (read_lines s')
  end.

(** [std::getline(xml_file, line)] reads up to the next newline, which
    is taken off the input and not stored.  [take_line] gives the line
    and what follows the newline, [None] when the input ends first. *)
Fixpoint take_line (s : string) : string * option string :=
  match s with
  | EmptyString => (EmptyString, None)
  | String c s' =>
      if Ascii.eqb c newline then (EmptyString, Some s')
      else let (line, rest) := take_line s' in (String c line, rest)
  end.

(** Reaching the end of the input raises [eofbit]; extracting nothing,
    not even a newline, raises [failbit]. *)
Definition getline (xml_file : stringstream) : string * stringstream :=
  if good xml_file then
    match buffer xml_file with
    | EmptyString => (EmptyString, MkStream EmptyString true true)
    | s =>
        match take_line s with
        | (line, Some rest) => (line, MkStream rest false false)
        | (line, None) => (line, MkStream EmptyString true false)
        end
    end
  else (EmptyString, MkStream (buffer xml_file) (eofbit xml_file) true).

(** The loop of lines 545 to 550 of [initFile], with a bound on its
    rounds; [None] when the bound is used up. *)
Fixpoint read_file (fuel : nat) (xml_file : stringstream) (xml_string : string)
  : option string :=
  match fuel with
  | O => None
  | S fuel' =>
      if good xml_file then
        let (line, xml_file) := getline xml_file in
        read_file fuel' xml_file
          (String.append xml_string
             (String.append line (String newline EmptyString)))
      else Some xml_string
  end.

(** ** The loaders *)

(** What a loop over elements carries: the sequence built so far and the
    messages reported so far. *)
Definition report {A : Type} (x : A) (log : list Diagnostic) (d : Diagnostic)
  : A * list Diagnostic := (x, log ++ [d]).

(** [v.empty()] for a vector. *)
Definition vector_empty {A : Type} (v : list A) : bool :=
  match v with [] => true | _ => false end.

Section Loaders.

Context {D : Type}.
(** [boost::lexical_cast<double>]: [None] stands for [bad_lexical_cast]. *)
Variable lexical_cast : string -> option D.
Variable urdf_model : ModelInterface.

(** *** Virtual joints *)

Definition known_type (ty : string) : bool :=
  String.eqb ty "planar" || String.eqb ty "floating" || String.eqb ty "fixed".

Definition loadVirtualJoint (vj_xml : TiXmlElement)
    (st : list VirtualJoint.t * list Diagnostic)
  : list VirtualJoint.t * list Diagnostic :=
  let (virtual_joints, log) := st in
  match Attribute vj_xml "name" with
  | None => report virtual_joints log
              (ROS_ERROR "Name of virtual joint is not specified" [])
  | Some jname =>
  match Attribute vj_xml "child_link" with
  | None => report virtual_joints log
              (ROS_ERROR "Child link of virtual joint is not specified" [])
  | Some child =>
  match getLink urdf_model (trim child) with
  | None => report virtual_joints log
              (ROS_ERROR "Virtual joint does not attach to a link on the robot (link '%s' is not known)" [child])
  | Some _ =>
  match Attribute vj_xml "parent_frame" with
  | None => report virtual_joints log
              (ROS_ERROR "Parent frame of virtual joint is not specified" [])
  | Some parent =>
  match Attribute vj_xml "type" with
  | None => report virtual_joints log
              (ROS_ERROR "Type of virtual joint is not specified" [])
  | Some type =>
      let lowered := transform tolower (trim type) in
      let (type_, log') :=
        if negb (known_type lowered)
        then report "fixed" log
               (ROS_ERROR "Unknown type of joint: '%s'. Assuming 'fixed' instead. Other known types are 'planar' and 'floating'." [type])
        else (lowered, log) in
      (virtual_joints ++
         [VirtualJoint.mk (trim jname) (trim child) (trim parent) type_],
       log')
  end end end end end.

Definition loadVirtualJoints (robot_xml : TiXmlElement)
    (st : Model D * list Diagnostic) : Model D * list Diagnostic :=
  let (m, log) := st in
  let (virtual_joints, log) :=
    fold_left (fun st vj_xml => loadVirtualJoint vj_xml st)
      (ChildElements "virtual_joint" (child_nodes robot_xml))
      (virtual_joints_ m, log) in
  (MkModel (name_ m) (groups_ m) (group_states_ m) virtual_joints
     (end_effectors_ m) (visual_sensors_ m) (disabled_collisions_ m), log).

(** *** Groups *)

(** A joint name is accepted when the kinematic model has it or an
    already loaded virtual joint carries it. *)
Definition joint_missing (virtual_joints : list VirtualJoint.t)
    (jname_str : string) : bool :=
  if getJoint urdf_model jname_str then false
  else negb (existsb (fun vj => String.eqb (VirtualJoint.name_ vj) jname_str)
               virtual_joints).

Definition loadGroupLink (gname : string) (link_xml : TiXmlElement)
    (st : list string * list Diagnostic) : list string * list Diagnostic :=
  let (links, log) := st in
  match Attribute link_xml "name" with
  | None => report links log (ROS_ERROR "Link name not specified" [])
  | Some lname =>
      let lname_str := trim lname in
      match getLink urdf_model lname_str with
      | None => report links log
                  (ROS_ERROR "Link '%s' declared as part of group '%s' is not known to the URDF" [lname; gname])
      | Some _ => (links ++ [lname_str], log)
      end
  end.

Definition loadGroupJoint (virtual_joints : list VirtualJoint.t)
    (gname : string) (joint_xml : TiXmlElement)
    (st : list string * list Diagnostic) : list string * list Diagnostic :=
  let (joints, log) := st in
  match Attribute joint_xml "name" with
  | None => report joints log (ROS_ERROR "Joint name not specified" [])
  | Some jname =>
      let jname_str := trim jname in
      if joint_missing virtual_joints jname_str
      then report joints log
             (ROS_ERROR "Joint '%s' declared as part of group '%s' is not known to the URDF" [jname; gname])
      else (joints ++ [jname_str], log)
  end.

(** The first walk of the chain check, from the tip upwards:
    [while (!found && l) { seen.insert(l->name); ... }].
    It returns [found] and [seen]. *)
Fixpoint tip_walk (base_str : string) (l : Link) (seen : gset string)
  : bool * gset string :=
  let seen := {[ name l ]} ∪ seen in
  if String.eqb (name l) base_str then (true, seen)
  else match l with
       | RootLink _ => (false, seen)
       | ChildLink _ p => tip_walk base_str p seen
       end.

(** The second walk, from the base upwards, looking for a recorded name. *)
Fixpoint base_walk (seen : gset string) (l : Link) : bool :=
  if bool_decide (name l ∈ seen) then true
  else match l with
       | RootLink _ => false
       | ChildLink _ p => base_walk seen p
       end.

(** [found] at line 202, for the links the two lookups returned. *)
Definition chain_found (base_str : string) (tip_link base_link : option Link)
  : bool :=
  let (found, seen) :=
    match tip_link with
    | Some l => tip_walk base_str l ∅
    | None => (false, ∅)
    end in
  if found then true
  else match base_link with
       | Some l => base_walk seen l
       | None => false
       end.

Definition loadGroupChain (gname : string) (chain_xml : TiXmlElement)
    (st : list (string * string) * list Diagnostic)
  : list (string * string) * list Diagnostic :=
  let (chains, log) := st in
  match Attribute chain_xml "base_link" with
  | None => report chains log
              (ROS_ERROR "Base link name not specified for chain" [])
  | Some base =>
  match Attribute chain_xml "tip_link" with
  | None => report chains log
              (ROS_ERROR "Tip link name not specified for chain" [])
  | Some tip =>
      let base_str := trim base in
      let tip_str := trim tip in
      match getLink urdf_model base_str with
      | None => report chains log
                  (ROS_ERROR "Link '%s' declared as part of a chain in group '%s' is not known to the URDF" [base; gname])
      | Some _ =>
      match getLink urdf_model tip_str with
      | None => report chains log
                  (ROS_ERROR "Link '%s' declared as part of a chain in group '%s' is not known to the URDF" [tip; gname])
      | Some _ =>
          if chain_found base_str
               (getLink urdf_model tip_str) (getLink urdf_model base_str)
          then (chains ++ [(base_str, tip_str)], log)
          else report chains log
                 (ROS_ERROR "Links '%s' and '%s' do not form a chain. Not included in group '%s'" [base; tip; gname])
      end end
  end end.

Definition loadSubgroup (subg_xml : TiXmlElement)
    (st : list string * list Diagnostic) : list string * list Diagnostic :=
  let (subgroups, log) := st in
  match Attribute subg_xml "name" with
  | None => report subgroups log
              (ROS_ERROR "Group name not specified when included as subgroup" [])
  | Some sub => (subgroups ++ [trim sub], log)
  end.

(** The body of the loop over [group] elements (lines 96 to 222). *)
Definition loadGroup (virtual_joints : list VirtualJoint.t)
    (group_xml : TiXmlElement) (st : list Group.t * list Diagnostic)
  : list Group.t * list Diagnostic :=
  let (groups, log) := st in
  match Attribute group_xml "name" with
  | None => report groups log (ROS_ERROR "Group name not specified" [])
  | Some gname =>
      let kids := child_nodes group_xml in
      let (links, log) :=
        fold_left (fun st x => loadGroupLink gname x st)
          (ChildElements "link" kids) ([], log) in
      let (joints, log) :=
        fold_left (fun st x => loadGroupJoint virtual_joints gname x st)
          (ChildElements "joint" kids) ([], log) in
      let (chains, log) :=
        fold_left (fun st x => loadGroupChain gname x st)
          (ChildElements "chain" kids) ([], log) in
      let (subgroups, log) :=
        fold_left (fun st x => loadSubgroup x st)
          (ChildElements "group" kids) ([], log) in
      let g := Group.mk (trim gname) links joints chains subgroups in
      let log :=
        if vector_empty links && vector_empty joints
           && vector_empty chains && vector_empty subgroups
        then log ++ [ROS_WARN "Group '%s' is empty." [gname]]
        else log in
      (groups ++ [g], log)
  end.

Definition parseGroups (virtual_joints : list VirtualJoint.t)
    (robot_xml : TiXmlElement) (st : list Group.t * list Diagnostic)
  : list Group.t * list Diagnostic :=
  fold_left (fun st x => loadGroup virtual_joints x st)
    (ChildElements "group" (child_nodes robot_xml)) st.

(** *** The subgroup check (lines 224 to 264) *)

(** The loop over [j]: every listed subgroup is in [known_groups]. *)
Definition subgroups_ok (known_groups : gset string)
    (subgroups : list string) : bool :=
  forallb (fun s => bool_decide (s ∈ known_groups)) subgroups.

(** The body of the loop over [i]; the state is [known_groups] and
    [update]. *)
Definition scan_group (st : gset string * bool) (g : Group.t)
  : gset string * bool :=
  let (known_groups, update) := st in
  if bool_decide (Group.name_ g ∈ known_groups) then (known_groups, update)
  else if vector_empty (Group.subgroups_ g)
  then ({[ Group.name_ g ]} ∪ known_groups, true)
  else if subgroups_ok known_groups (Group.subgroups_ g)
  then ({[ Group.name_ g ]} ∪ known_groups, true)
  else (known_groups, update).

(** One pass of [while (update)]: [update] is reset, then every group
    is looked at. *)
Definition scan (groups : list Group.t) (known_groups : gset string)
  : gset string * bool :=
  fold_left scan_group groups (known_groups, false).

(** [while (update)], with a bound on the number of passes; [None] when
    the bound is used up before a pass leaves [update] false. *)
Fixpoint check_subgroups (fuel : nat) (groups : list Group.t)
    (known_groups : gset string) : option (gset string) :=
  match fuel with
  | O => None
  | S fuel' =>
      let (known_groups', update) := scan groups known_groups in
      if update then check_subgroups fuel' groups known_groups'
      else Some known_groups'
  end.

Definition keep_group (known_groups : gset string)
    (st : list Group.t * list Diagnostic) (g : Group.t)
  : list Group.t * list Diagnostic :=
  let (correct, log) := st in
  if bool_decide (Group.name_ g ∈ known_groups) then (correct ++ [g], log)
  else report correct log
         (ROS_ERROR "Group '%s' has unsatisfied subgroups" [Group.name_ g]).

(** Lines 254 to 264. *)
Definition keep_valid (known_groups : gset string) (groups : list Group.t)
    (log : list Diagnostic) : list Group.t * list Diagnostic :=
  if negb (Nat.eqb (size known_groups) (length groups))
  then fold_left (keep_group known_groups) groups ([], log)
  else (groups, log).

(** The number of passes the loop can need: each pass but the last adds
    a name of a group to [known_groups]. *)
Definition passes (groups : list Group.t) : nat := S (length groups).

Definition resolveGroups (groups : list Group.t) (log : list Diagnostic)
  : list Group.t * list Diagnostic :=
  match check_subgroups (passes groups) groups ∅ with
  | Some known_groups => keep_valid known_groups groups log
  | None => (groups, log)
  end.

Definition loadGroups (robot_xml : TiXmlElement)
    (st : Model D * list Diagnostic) : Model D * list Diagnostic :=
  let (m, log) := st in
  let (groups, log) :=
    parseGroups (virtual_joints_ m) robot_xml (groups_ m, log) in
  let (groups, log) := resolveGroups groups log in
  (MkModel (name_ m) groups (group_states_ m) (virtual_joints_ m)
     (end_effectors_ m) (visual_sensors_ m) (disabled_collisions_ m), log).

(** *** Group states *)

(** [joint_values_[jname_str]]: the entry is created when it is not
    there. *)
Definition index (joint_values : gmap string (list D)) (jname_str : string)
  : gmap string (list D) :=
  match joint_values !! jname_str with
  | Some _ => joint_values
  | None => <[ jname_str := [] ]> joint_values
  end.

Definition push_back (joint_values : gmap string (list D))
    (jname_str : string) (d : D) : gmap string (list D) :=
  <[ jname_str := (joint_values !!! jname_str) ++ [d] ]> joint_values.

(** The loop of lines 336 to 340 inside its [try] block.  The result is
    the map and whether [bad_lexical_cast] was thrown, which leaves the
    loop; [None] when the bound on the number of rounds is used up.
    The entry of the joint is looked up before the token is converted. *)
Fixpoint read_values (fuel : nat) (ss : stringstream) (jname_str : string)
    (joint_values : gmap string (list D))
  : option (gmap string (list D) * bool) :=
  match fuel with
  | O => None
  | S fuel' =>
      if good ss && negb (eof ss) then
        let (val, ss) := extract ss in
        let ss := ws ss in
        let joint_values := index joint_values jname_str in
        match lexical_cast val with
        | Some d =>
            read_values fuel' ss jname_str (push_back joint_values jname_str d)
        | None => Some (joint_values, true)
        end
      else Some (joint_values, false)
  end.

(** Every round but the last removes a character of the input. *)
Definition rounds (jval : string) : nat := S (String.length jval).

Definition loadJointValue (virtual_joints : list VirtualJoint.t)
    (sname : string) (joint_xml : TiXmlElement)
    (st : gmap string (list D) * list Diagnostic)
  : gmap string (list D) * list Diagnostic :=
  let (joint_values, log) := st in
  match Attribute joint_xml "name" with
  | None => report joint_values log
              (ROS_ERROR "Joint name not specified in group state '%s'" [sname])
  | Some jname =>
  match Attribute joint_xml "value" with
  | None => report joint_values log
              (ROS_ERROR "Joint name not specified for joint '%s' in group state '%s'" [jname; sname])
  | Some jval =>
      let jname_str := trim jname in
      if joint_missing virtual_joints jname_str
      then report joint_values log
             (ROS_ERROR "Joint '%s' declared as part of group state '%s' is not known to the URDF" [jname; sname])
      else
        let (joint_values, log) :=
          match read_values (rounds jval) (MkStream jval false false)
                  jname_str joint_values with
          | Some (joint_values', true) =>
              report joint_values' log
                (ROS_ERROR "Unable to parse joint value '%s'" [jval])
          | Some (joint_values', false) => (joint_values', log)
          | None => (joint_values, log)
          end in
        if bool_decide (joint_values = ∅)
        then report joint_values log
               (ROS_ERROR "Unable to parse joint value ('%s') for joint '%s' in group state '%s'" [jval; jname; sname])
        else (joint_values, log)
  end end.

Definition group_known (groups : list Group.t) (gname : string) : bool :=
  existsb (fun g => String.eqb (Group.name_ g) gname) groups.

Definition loadGroupState (groups : list Group.t)
    (virtual_joints : list VirtualJoint.t) (gstate_xml : TiXmlElement)
    (st : list (GroupState.t D) * list Diagnostic)
  : list (GroupState.t D) * list Diagnostic :=
  let (group_states, log) := st in
  match Attribute gstate_xml "name" with
  | None => report group_states log
              (ROS_ERROR "Name of group state is not specified" [])
  | Some sname =>
  match Attribute gstate_xml "group" with
  | None => report group_states log
              (ROS_ERROR "Name of group for state '%s' is not specified" [sname])
  | Some gname =>
      if group_known groups (trim gname) then
        let (joint_values, log) :=
          fold_left (fun st x => loadJointValue virtual_joints sname x st)
            (ChildElements "joint" (child_nodes gstate_xml)) (∅, log) in
        (group_states ++ [GroupState.mk (trim sname) (trim gname) joint_values],
         log)
      else report group_states log
             (ROS_ERROR "Group state '%s' specified for group '%s', but that group is not known" [sname; gname])
  end end.

Definition loadGroupStates (robot_xml : TiXmlElement)
    (st : Model D * list Diagnostic) : Model D * list Diagnostic :=
  let (m, log) := st in
  let (group_states, log) :=
    fold_left (fun st x => loadGroupState (groups_ m) (virtual_joints_ m) x st)
      (ChildElements "group_state" (child_nodes robot_xml))
      (group_states_ m, log) in
  (MkModel (name_ m) (groups_ m) group_states (virtual_joints_ m)
     (end_effectors_ m) (visual_sensors_ m) (disabled_collisions_ m), log).

(** *** End effectors *)

Definition loadEndEffector (groups : list Group.t) (eef_xml : TiXmlElement)
    (st : list EndEffector.t * list Diagnostic)
  : list EndEffector.t * list Diagnostic :=
  let (end_effectors, log) := st in
  match Attribute eef_xml "name" with
  | None => report end_effectors log
              (ROS_ERROR "Name of end effector is not specified" [])
  | Some ename =>
  match Attribute eef_xml "group" with
  | None => report end_effectors log
              (ROS_ERROR "Group not specified for end effector '%s'" [ename])
  | Some gname =>
      if negb (group_known groups (trim gname))
      then report end_effectors log
             (ROS_ERROR "End effector '%s' specified for group '%s', but that group is not known" [ename; gname])
      else
        match Attribute eef_xml "parent_link" with
        | None => report end_effectors log
                    (ROS_ERROR "Parent link not specified for end effector '%s'" [ename])
        | Some parent =>
            match getLink urdf_model (trim parent) with
            | None => report end_effectors log
                        (ROS_ERROR "Link '%s' specified as parent for end effector '%s' is not known to the URDF" [parent; ename])
            | Some _ =>
                (end_effectors ++
                   [EndEffector.mk (trim ename) (trim parent) (trim gname)],
                 log)
            end
        end
  end end.

Definition loadEndEffectors (robot_xml : TiXmlElement)
    (st : Model D * list Diagnostic) : Model D * list Diagnostic :=
  let (m, log) := st in
  let (end_effectors, log) :=
    fold_left (fun st x => loadEndEffector (groups_ m) x st)
      (ChildElements "end_effector" (child_nodes robot_xml))
      (end_effectors_ m, log) in
  (MkModel (name_ m) (groups_ m) (group_states_ m) (virtual_joints_ m)
     end_effectors (visual_sensors_ m) (disabled_collisions_ m), log).

(** *** Visual sensors *)

Definition loadVisualSensor (s_xml : TiXmlElement)
    (st : list (VisualSensor.t D) * list Diagnostic)
  : list (VisualSensor.t D) * list Diagnostic :=
  let (visual_sensors, log) := st in
  match Attribute s_xml "name" with
  | None => report visual_sensors log
              (ROS_ERROR "Name of visual sensor is not specified" [])
  | Some sname =>
  match Attribute s_xml "frame" with
  | None => report visual_sensors log
              (ROS_ERROR "No frame specified for visual sensor '%s'" [sname])
  | Some frame =>
  match Attribute s_xml "fov_angle" with
  | None => report visual_sensors log
              (ROS_ERROR "No field of view angle specified for visual sensor '%s'" [sname])
  | Some fov_angle =>
  match Attribute s_xml "min_range" with
  | None => report visual_sensors log
              (ROS_ERROR "No minimum range along Z axis specified for visual sensor '%s'" [sname])
  | Some min_range =>
  match Attribute s_xml "max_range" with
  | None => report visual_sensors log
              (ROS_ERROR "No maximum range along Z axis specified for visual sensor '%s'" [sname])
  | Some max_range =>
  match lexical_cast fov_angle with
  | None => report visual_sensors log
              (ROS_ERROR "Unable to parse field of view angle ('%s') for sensor '%s'" [fov_angle; sname])
  | Some fov =>
  match lexical_cast min_range with
  | None => report visual_sensors log
              (ROS_ERROR "Unable to parse minimum range ('%s') for sensor '%s'" [min_range; sname])
  | Some rmin =>
  match lexical_cast max_range with
  | None => report visual_sensors log
              (ROS_ERROR "Unable to parse maximum range ('%s') for sensor '%s'" [max_range; sname])
  | Some rmax =>
      (visual_sensors ++
         [VisualSensor.mk (trim sname) (trim frame) fov rmin rmax], log)
  end end end end end end end end.

Definition loadVisualSensors (robot_xml : TiXmlElement)
    (st : Model D * list Diagnostic) : Model D * list Diagnostic :=
  let (m, log) := st in
  let (visual_sensors, log) :=
    fold_left (fun st x => loadVisualSensor x st)
      (ChildElements "visual_sensor" (child_nodes robot_xml))
      (visual_sensors_ m, log) in
  (MkModel (name_ m) (groups_ m) (group_states_ m) (virtual_joints_ m)
     (end_effectors_ m) visual_sensors (disabled_collisions_ m), log).

(** *** Disabled collisions *)

Definition loadDisabledCollision (c_xml : TiXmlElement)
    (st : list (string * string) * list Diagnostic)
  : list (string * string) * list Diagnostic :=
  let (disabled_collisions, log) := st in
  match Attribute c_xml "link1", Attribute c_xml "link2" with
  | Some link1, Some link2 =>
      let link1_str := trim link1 in
      let link2_str := trim link2 in
      match getLink urdf_model link1_str with
      | None => report disabled_collisions log
                  (ROS_ERROR "Link '%s' is not known to URDF. Cannot disable collisons." [link1])
      | Some _ =>
      match getLink urdf_model link2_str with
      | None => report disabled_collisions log
                  (ROS_ERROR "Link '%s' is not known to URDF. Cannot disable collisons." [link2])
      | Some _ => (disabled_collisions ++ [(link1_str, link2_str)], log)
      end end
  | _, _ => report disabled_collisions log
              (ROS_ERROR "A pair of links needs to be specified to disable collisions" [])
  end.

Definition loadDisabledCollisions (robot_xml : TiXmlElement)
    (st : Model D * list Diagnostic) : Model D * list Diagnostic :=
  let (m, log) := st in
  let (disabled_collisions, log) :=
    fold_left (fun st x => loadDisabledCollision x st)
      (ChildElements "disable_collisions" (child_nodes robot_xml))
      (disabled_collisions_ m, log) in
  (MkModel (name_ m) (groups_ m) (group_states_ m) (virtual_joints_ m)
     (end_effectors_ m) (visual_sensors_ m) disabled_collisions, log).

(** *** The entry points *)

Definition clear (m : Model D) : Model D := MkModel "" [] [] [] [] [] [].

Definition no_robot : Diagnostic :=
  ROS_ERROR "Could not find the 'robot' element in the xml file" [].

(** A load returns its boolean result, the model it leaves behind and
    the messages it reported. *)
Definition outcome : Type := bool * Model D * list Diagnostic.

(** [initXml] on a root element; [None] is the null pointer. *)
Definition initXml (m : Model D) (robot_xml : option TiXmlElement) : outcome :=
  let m := clear m in
  match robot_xml with
  | None => (false, m, [no_robot])
  | Some robot_xml =>
      if negb (String.eqb (ValueStr robot_xml) "robot")
      then (false, m, [no_robot])
      else
        let st :=
          match Attribute robot_xml "name" with
          | None => (m, [ROS_ERROR "No name given for the robot." []])
          | Some name =>
              let m := MkModel (trim name) (groups_ m) (group_states_ m)
                         (virtual_joints_ m) (end_effectors_ m)
                         (visual_sensors_ m) (disabled_collisions_ m) in
              if negb (String.eqb (name_ m) (getName urdf_model))
              then (m, [ROS_ERROR "Semantic description is not specified for the same robot as the URDF" []])
              else (m, [])
          end in
        let st := loadVirtualJoints robot_xml st in
        let st := loadGroups robot_xml st in
        let st := loadGroupStates robot_xml st in
        let st := loadEndEffectors robot_xml st in
        let st := loadVisualSensors robot_xml st in
        let st := loadDisabledCollisions robot_xml st in
        (true, fst st, snd st)
  end.

(** [initXml] on a parsed document; [None] is the null pointer. *)
Definition initXmlDocument (m : Model D) (xml : option TiXmlDocument)
  : outcome :=
  let robot_xml :=
    match xml with
    | Some doc => FirstChildElement "robot" (top_level doc)
    | None => None
    end in
  match robot_xml with
  | None => (false, m, [no_robot])
  | Some _ => initXml m robot_xml
  end.

(** [TiXmlDocument::Parse]. *)
Variable Parse : string -> TiXmlDocument.

Definition initString (m : Model D) (xmlstring : string) : outcome :=
  initXmlDocument m (Some (Parse xmlstring)).

(** The text source: the contents of the file of that name, [None]
    when it cannot be opened. *)
Variable open_file : string -> option string.

Definition initFile (m : Model D) (filename : string) : outcome :=
  match open_file filename with
  | Some contents => initString m (read_lines contents)
  | None =>
      (false, m,
       [ROS_ERROR "Could not open file [%s] for parsing." [filename]])
  end.

End Loaders.

(** ** Notions used to state the properties *)

(** The names met when walking from a link up to the root. *)
Fixpoint ancestors (l : Link) : list string :=
  match l with
  | RootLink n => [n]
  | ChildLink n p => n :: ancestors p
  end.

(** The name of the link at which the parent walk ends. *)
Fixpoint root_name (l : Link) : string :=
  match l with
  | RootLink n => n
  | ChildLink _ p => root_name p
  end.

(** The two links are related when the base is above the tip or the two
    walks record a common name. *)
Definition connected (base_str : string) (base_link tip_link : Link) : Prop :=
  base_str ∈ ancestors tip_link ∨
  ∃ n, n ∈ ancestors base_link ∧ n ∈ ancestors tip_link.

(** Every parent walk of the kinematic model ends at one common root. *)
Definition single_rooted (urdf_model : ModelInterface) : Prop :=
  ∃ root, ∀ n l, getLink urdf_model n = Some l → root_name l = root.

(** The whitespace-separated tokens of a string. *)
Definition word_ends (s : string) : bool :=
  match s with
  | EmptyString => true
  | String c _ => isspace c
  end.

Fixpoint tokens (s : string) : list string :=
  match s with
  | EmptyString => []
  | String c s' =>
      if isspace c then tokens s'
      else if word_ends s' then String c EmptyString :: tokens s'
      else match tokens s' with
           | w :: r => String c w :: r
           | [] => [String c EmptyString]
           end
  end.

Section Tokens.

Context {D : Type}.
Variable lexical_cast : string -> option D.

(** The numbers of the tokens up to the first one that is not a number. *)
Fixpoint cast_prefix (l : list string) : list D :=
  match l with
  | [] => []
  | t :: r =>
      match lexical_cast t with
      | Some d => d :: cast_prefix r
      | None => []
      end
  end.

(** The numbers of all the tokens that are numbers. *)
Definition cast_each (l : list string) : list D := omap lexical_cast l.

Definition all_cast (l : list string) : Prop :=
  ∀ t, t ∈ l → is_Some (lexical_cast t).

(** Some token is not a number. *)
Definition throws (l : list string) : bool :=
  existsb (λ t, match lexical_cast t with None => true | Some _ => false end) l.

(** The element has the five attributes of a visual sensor, its three
    numeric fields are numbers, and [entry] holds them. *)
Definition describes_sensor (s_xml : TiXmlElement) (entry : VisualSensor.t D)
  : Prop :=
  ∃ sname frame fov_angle min_range max_range,
    Attribute s_xml "name" = Some sname
    ∧ Attribute s_xml "frame" = Some frame
    ∧ Attribute s_xml "fov_angle" = Some fov_angle
    ∧ Attribute s_xml "min_range" = Some min_range
    ∧ Attribute s_xml "max_range" = Some max_range
    ∧ lexical_cast fov_angle = Some (VisualSensor.fov_angle_ entry)
    ∧ lexical_cast min_range = Some (VisualSensor.min_range_ entry)
    ∧ lexical_cast max_range = Some (VisualSensor.max_range_ entry)
    ∧ VisualSensor.name_ entry = trim sname
    ∧ VisualSensor.frame_ entry = trim frame.

End Tokens.

(** The three recognised types of a virtual joint. *)
Definition joint_types : list string := ["planar"; "floating"; "fixed"].

(** The least set of names closed under the marking rule of the subgroup
    check: a name is known when a group carries it whose subgroups are
    all known. *)
Inductive Known (groups : list Group.t) : string → Prop :=
| Known_mark (g : Group.t) :
    g ∈ groups →
    (∀ s, s ∈ Group.subgroups_ g → Known groups s) →
    Known groups (Group.name_ g).

(** [includes groups a b]: a group named [a] lists [b] as a subgroup. *)
Definition includes (groups : list Group.t) (a b : string) : Prop :=
  ∃ g, g ∈ groups ∧ Group.name_ g = a ∧ b ∈ Group.subgroups_ g.

(** The group is on a direct or transitive subgroup cycle. *)
Definition on_cycle (groups : list Group.t) (g : Group.t) : Prop :=
  clos_trans string (includes groups) (Group.name_ g) (Group.name_ g).

(** The group lists a subgroup name that no group carries. *)
Definition dangling (groups : list Group.t) (g : Group.t) : Prop :=
  ∃ s, s ∈ Group.subgroups_ g ∧ ∀ g', g' ∈ groups → Group.name_ g' ≠ s.

Definition distinct_names (groups : list Group.t) : Prop :=
  NoDup (Group.name_ <$> groups).

(** A set of names to which the marking rule adds nothing. *)
Definition closed_under_marking (groups : list Group.t) (K : gset string)
  : Prop :=
  ∀ g, g ∈ groups → subgroups_ok K (Group.subgroups_ g) = true →
       Group.name_ g ∈ K.

(** A set of names that were all marked by the rule. *)
Definition sound_marks (groups : list Group.t) (K : gset string) : Prop :=
  ∀ n, n ∈ K → Known groups n.

(** The error reported for a group that is removed. *)
Definition unsatisfied (g : Group.t) : Diagnostic :=
  ROS_ERROR "Group '%s' has unsatisfied subgroups" [Group.name_ g].

(** The trimmed names of the [group] elements of a document root. *)
Definition declared_group_names (robot_xml : TiXmlElement) : list string :=
  trim <$>
    omap (λ e, Attribute e "name")
      (ChildElements "group" (child_nodes robot_xml)).

(** Projections of the outcome of a load. *)
Definition succeeded {D : Type} (r : bool * Model D * list Diagnostic) : bool :=
  fst (fst r).
Definition loaded {D : Type} (r : bool * Model D * list Diagnostic) : Model D :=
  snd (fst r).
Definition reported {D : Type} (r : bool * Model D * list Diagnostic)
  : list Diagnostic := snd r.

(** The joint is one of the kinematic model or carries the name of a
    virtual joint. *)
Definition joint_known (urdf_model : ModelInterface)
    (virtual_joints : list VirtualJoint.t) (j : string) : Prop :=
  getJoint urdf_model j = true ∨ j ∈ VirtualJoint.name_ <$> virtual_joints.

Definition link_known (urdf_model : ModelInterface) (n : string) : Prop :=
  is_Some (getLink urdf_model n).

(** Both ends of the pair are links, and they are related. *)
Definition chain_known (urdf_model : ModelInterface) (c : string * string)
  : Prop :=
  ∃ base_link tip_link,
    getLink urdf_model (fst c) = Some base_link
    ∧ getLink urdf_model (snd c) = Some tip_link
    ∧ connected (fst c) base_link tip_link.

(** Lookup by name returns the link of that name. *)
Definition named_lookup (urdf_model : ModelInterface) : Prop :=
  ∀ n l, getLink urdf_model n = Some l → name l = n.

(** The trimmed [name] attributes of the children of a given tag. *)
Definition child_names (tag : string) (e : TiXmlElement) : list string :=
  trim <$> omap (λ c, Attribute c "name") (ChildElements tag (child_nodes e)).

(** *** The faults of a document

    What is wrong with an element is found by the checks of its loader
    in their order; the fault of an element is the first check that
    fails, together with the error the loader gives for it. *)

Section Faults.

Context {D : Type}.
Variable lexical_cast : string -> option D.
Variable urdf_model : ModelInterface.

(** The virtual joints and the groups of the model the load leaves:
    joints and groups are looked up in them. *)
Variable virtual_joints : list VirtualJoint.t.
Variable groups : list Group.t.

Inductive virtual_joint_fault (e : TiXmlElement) : Diagnostic → Prop :=
| vj_no_name :
    Attribute e "name" = None →
    virtual_joint_fault e
      (ROS_ERROR "Name of virtual joint is not specified" [])
| vj_no_child (jname : string) :
    Attribute e "name" = Some jname →
    Attribute e "child_link" = None →
    virtual_joint_fault e
      (ROS_ERROR "Child link of virtual joint is not specified" [])
| vj_child_unknown (jname child : string) :
    Attribute e "name" = Some jname →
    Attribute e "child_link" = Some child →
    ¬ link_known urdf_model (trim child) →
    virtual_joint_fault e
      (ROS_ERROR "Virtual joint does not attach to a link on the robot (link '%s' is not known)" [child])
| vj_no_parent (jname child : string) :
    Attribute e "name" = Some jname →
    Attribute e "child_link" = Some child →
    link_known urdf_model (trim child) →
    Attribute e "parent_frame" = None →
    virtual_joint_fault e
      (ROS_ERROR "Parent frame of virtual joint is not specified" [])
| vj_no_type (jname child parent : string) :
    Attribute e "name" = Some jname →
    Attribute e "child_link" = Some child →
    link_known urdf_model (trim child) →
    Attribute e "parent_frame" = Some parent →
    Attribute e "type" = None →
    virtual_joint_fault e
      (ROS_ERROR "Type of virtual joint is not specified" [])
| vj_unknown_type (jname child parent type : string) :
    Attribute e "name" = Some jname →
    Attribute e "child_link" = Some child →
    link_known urdf_model (trim child) →
    Attribute e "parent_frame" = Some parent →
    Attribute e "type" = Some type →
    transform tolower (trim type) ∉ joint_types →
    virtual_joint_fault e
      (ROS_ERROR "Unknown type of joint: '%s'. Assuming 'fixed' instead. Other known types are 'planar' and 'floating'." [type]).

(** A group element; [groups] are the groups that are left. *)
Inductive group_fault (e : TiXmlElement) : Diagnostic → Prop :=
| group_no_name :
    Attribute e "name" = None →
    group_fault e (ROS_ERROR "Group name not specified" [])
| group_unsatisfied (gname : string) :
    Attribute e "name" = Some gname →
    trim gname ∉ Group.name_ <$> groups →
    group_fault e
      (ROS_ERROR "Group '%s' has unsatisfied subgroups" [trim gname]).

(** The children of a group element of name [gname]. *)
Inductive group_link_fault (gname : string) (c : TiXmlElement)
  : Diagnostic → Prop :=
| link_no_name :
    Attribute c "name" = None →
    group_link_fault gname c (ROS_ERROR "Link name not specified" [])
| link_unknown (lname : string) :
    Attribute c "name" = Some lname →
    ¬ link_known urdf_model (trim lname) →
    group_link_fault gname c
      (ROS_ERROR "Link '%s' declared as part of group '%s' is not known to the URDF" [lname; gname]).

Inductive group_joint_fault (gname : string) (c : TiXmlElement)
  : Diagnostic → Prop :=
| joint_no_name :
    Attribute c "name" = None →
    group_joint_fault gname c (ROS_ERROR "Joint name not specified" [])
| joint_unknown (jname : string) :
    Attribute c "name" = Some jname →
    ¬ joint_known urdf_model virtual_joints (trim jname) →
    group_joint_fault gname c
      (ROS_ERROR "Joint '%s' declared as part of group '%s' is not known to the URDF" [jname; gname]).

Inductive chain_fault (gname : string) (c : TiXmlElement)
  : Diagnostic → Prop :=
| chain_no_base :
    Attribute c "base_link" = None →
    chain_fault gname c (ROS_ERROR "Base link name not specified for chain" [])
| chain_no_tip (base : string) :
    Attribute c "base_link" = Some base →
    Attribute c "tip_link" = None →
    chain_fault gname c (ROS_ERROR "Tip link name not specified for chain" [])
| chain_base_unknown (base tip : string) :
    Attribute c "base_link" = Some base →
    Attribute c "tip_link" = Some tip →
    ¬ link_known urdf_model (trim base) →
    chain_fault gname c
      (ROS_ERROR "Link '%s' declared as part of a chain in group '%s' is not known to the URDF" [base; gname])
| chain_tip_unknown (base tip : string) :
    Attribute c "base_link" = Some base →
    Attribute c "tip_link" = Some tip →
    link_known urdf_model (trim base) →
    ¬ link_known urdf_model (trim tip) →
    chain_fault gname c
      (ROS_ERROR "Link '%s' declared as part of a chain in group '%s' is not known to the URDF" [tip; gname])
| chain_not_connected (base tip : string) (base_link tip_link : Link) :
    Attribute c "base_link" = Some base →
    Attribute c "tip_link" = Some tip →
    getLink urdf_model (trim base) = Some base_link →
    getLink urdf_model (trim tip) = Some tip_link →
    ¬ connected (trim base) base_link tip_link →
    chain_fault gname c
      (ROS_ERROR "Links '%s' and '%s' do not form a chain. Not included in group '%s'" [base; tip; gname]).

Inductive subgroup_fault (c : TiXmlElement) : Diagnostic → Prop :=
| subgroup_no_name :
    Attribute c "name" = None →
    subgroup_fault c
      (ROS_ERROR "Group name not specified when included as subgroup" []).

Inductive group_state_fault (e : TiXmlElement) : Diagnostic → Prop :=
| state_no_name :
    Attribute e "name" = None →
    group_state_fault e (ROS_ERROR "Name of group state is not specified" [])
| state_no_group (sname : string) :
    Attribute e "name" = Some sname →
    Attribute e "group" = None →
    group_state_fault e
      (ROS_ERROR "Name of group for state '%s' is not specified" [sname])
| state_group_unknown (sname gname : string) :
    Attribute e "name" = Some sname →
    Attribute e "group" = Some gname →
    trim gname ∉ Group.name_ <$> groups →
    group_state_fault e
      (ROS_ERROR "Group state '%s' specified for group '%s', but that group is not known" [sname; gname]).

(** The joint children of a group state of name [sname]. *)
Inductive joint_value_fault (sname : string) (c : TiXmlElement)
  : Diagnostic → Prop :=
| value_no_name :
    Attribute c "name" = None →
    joint_value_fault sname c
      (ROS_ERROR "Joint name not specified in group state '%s'" [sname])
| value_no_value (jname : string) :
    Attribute c "name" = Some jname →
    Attribute c "value" = None →
    joint_value_fault sname c
      (ROS_ERROR "Joint name not specified for joint '%s' in group state '%s'" [jname; sname])
| value_joint_unknown (jname jval : string) :
    Attribute c "name" = Some jname →
    Attribute c "value" = Some jval →
    ¬ joint_known urdf_model virtual_joints (trim jname) →
    joint_value_fault sname c
      (ROS_ERROR "Joint '%s' declared as part of group state '%s' is not known to the URDF" [jname; sname])
| value_not_a_number (jname jval : string) :
    Attribute c "name" = Some jname →
    Attribute c "value" = Some jval →
    joint_known urdf_model virtual_joints (trim jname) →
    throws lexical_cast (tokens jval) = true →
    joint_value_fault sname c
      (ROS_ERROR "Unable to parse joint value '%s'" [jval]).

Inductive end_effector_fault (e : TiXmlElement) : Diagnostic → Prop :=
| effector_no_name :
    Attribute e "name" = None →
    end_effector_fault e (ROS_ERROR "Name of end effector is not specified" [])
| effector_no_group (ename : string) :
    Attribute e "name" = Some ename →
    Attribute e "group" = None →
    end_effector_fault e
      (ROS_ERROR "Group not specified for end effector '%s'" [ename])
| effector_group_unknown (ename gname : string) :
    Attribute e "name" = Some ename →
    Attribute e "group" = Some gname →
    trim gname ∉ Group.name_ <$> groups →
    end_effector_fault e
      (ROS_ERROR "End effector '%s' specified for group '%s', but that group is not known" [ename; gname])
| effector_no_parent (ename gname : string) :
    Attribute e "name" = Some ename →
    Attribute e "group" = Some gname →
    trim gname ∈ Group.name_ <$> groups →
    Attribute e "parent_link" = None →
    end_effector_fault e
      (ROS_ERROR "Parent link not specified for end effector '%s'" [ename])
| effector_parent_unknown (ename gname parent : string) :
    Attribute e "name" = Some ename →
    Attribute e "group" = Some gname →
    trim gname ∈ Group.name_ <$> groups →
    Attribute e "parent_link" = Some parent →
    ¬ link_known urdf_model (trim parent) →
    end_effector_fault e
      (ROS_ERROR "Link '%s' specified as parent for end effector '%s' is not known to the URDF" [parent; ename]).

Inductive sensor_fault (e : TiXmlElement) : Diagnostic → Prop :=
| sensor_no_name :
    Attribute e "name" = None →
    sensor_fault e (ROS_ERROR "Name of visual sensor is not specified" [])
| sensor_no_frame (sname : string) :
    Attribute e "name" = Some sname →
    Attribute e "frame" = None →
    sensor_fault e
      (ROS_ERROR "No frame specified for visual sensor '%s'" [sname])
| sensor_no_fov (sname frame : string) :
    Attribute e "name" = Some sname →
    Attribute e "frame" = Some frame →
    Attribute e "fov_angle" = None →
    sensor_fault e
      (ROS_ERROR "No field of view angle specified for visual sensor '%s'" [sname])
| sensor_no_min (sname frame fov : string) :
    Attribute e "name" = Some sname →
    Attribute e "frame" = Some frame →
    Attribute e "fov_angle" = Some fov →
    Attribute e "min_range" = None →
    sensor_fault e
      (ROS_ERROR "No minimum range along Z axis specified for visual sensor '%s'" [sname])
| sensor_no_max (sname frame fov rmin : string) :
    Attribute e "name" = Some sname →
    Attribute e "frame" = Some frame →
    Attribute e "fov_angle" = Some fov →
    Attribute e "min_range" = Some rmin →
    Attribute e "max_range" = None →
    sensor_fault e
      (ROS_ERROR "No maximum range along Z axis specified for visual sensor '%s'" [sname])
| sensor_bad_fov (sname frame fov rmin rmax : string) :
    Attribute e "name" = Some sname →
    Attribute e "frame" = Some frame →
    Attribute e "fov_angle" = Some fov →
    Attribute e "min_range" = Some rmin →
    Attribute e "max_range" = Some rmax →
    lexical_cast fov = None →
    sensor_fault e
      (ROS_ERROR "Unable to parse field of view angle ('%s') for sensor '%s'" [fov; sname])
| sensor_bad_min (sname frame fov rmin rmax : string) :
    Attribute e "name" = Some sname →
    Attribute e "frame" = Some frame →
    Attribute e "fov_angle" = Some fov →
    Attribute e "min_range" = Some rmin →
    Attribute e "max_range" = Some rmax →
    is_Some (lexical_cast fov) →
    lexical_cast rmin = None →
    sensor_fault e
      (ROS_ERROR "Unable to parse minimum range ('%s') for sensor '%s'" [rmin; sname])
| sensor_bad_max (sname frame fov rmin rmax : string) :
    Attribute e "name" = Some sname →
    Attribute e "frame" = Some frame →
    Attribute e "fov_angle" = Some fov →
    Attribute e "min_range" = Some rmin →
    Attribute e "max_range" = Some rmax →
    is_Some (lexical_cast fov) →
    is_Some (lexical_cast rmin) →
    lexical_cast rmax = None →
    sensor_fault e
      (ROS_ERROR "Unable to parse maximum range ('%s') for sensor '%s'" [rmax; sname]).

Inductive collision_fault (e : TiXmlElement) : Diagnostic → Prop :=
| collision_no_pair :
    Attribute e "link1" = None ∨ Attribute e "link2" = None →
    collision_fault e
      (ROS_ERROR "A pair of links needs to be specified to disable collisions" [])
| collision_first_unknown (link1 link2 : string) :
    Attribute e "link1" = Some link1 →
    Attribute e "link2" = Some link2 →
    ¬ link_known urdf_model (trim link1) →
    collision_fault e
      (ROS_ERROR "Link '%s' is not known to URDF. Cannot disable collisons." [link1])
| collision_second_unknown (link1 link2 : string) :
    Attribute e "link1" = Some link1 →
    Attribute e "link2" = Some link2 →
    link_known urdf_model (trim link1) →
    ¬ link_known urdf_model (trim link2) →
    collision_fault e
      (ROS_ERROR "Link '%s' is not known to URDF. Cannot disable collisons." [link2]).

(** The faults of a document with root [robot_xml], each with the error
    that goes with it. *)
Inductive Fault (robot_xml : TiXmlElement) : Diagnostic → Prop :=
| fault_robot_unnamed :
    Attribute robot_xml "name" = None →
    Fault robot_xml (ROS_ERROR "No name given for the robot." [])
| fault_robot_other (name : string) :
    Attribute robot_xml "name" = Some name →
    trim name ≠ getName urdf_model →
    Fault robot_xml
      (ROS_ERROR "Semantic description is not specified for the same robot as the URDF" [])
| fault_virtual_joint (e : TiXmlElement) (d : Diagnostic) :
    e ∈ ChildElements "virtual_joint" (child_nodes robot_xml) →
    virtual_joint_fault e d → Fault robot_xml d
| fault_group (e : TiXmlElement) (d : Diagnostic) :
    e ∈ ChildElements "group" (child_nodes robot_xml) →
    group_fault e d → Fault robot_xml d
| fault_group_link (e c : TiXmlElement) (gname : string) (d : Diagnostic) :
    e ∈ ChildElements "group" (child_nodes robot_xml) →
    Attribute e "name" = Some gname →
    c ∈ ChildElements "link" (child_nodes e) →
    group_link_fault gname c d → Fault robot_xml d
| fault_group_joint (e c : TiXmlElement) (gname : string) (d : Diagnostic) :
    e ∈ ChildElements "group" (child_nodes robot_xml) →
    Attribute e "name" = Some gname →
    c ∈ ChildElements "joint" (child_nodes e) →
    group_joint_fault gname c d → Fault robot_xml d
| fault_chain (e c : TiXmlElement) (gname : string) (d : Diagnostic) :
    e ∈ ChildElements "group" (child_nodes robot_xml) →
    Attribute e "name" = Some gname →
    c ∈ ChildElements "chain" (child_nodes e) →
    chain_fault gname c d → Fault robot_xml d
| fault_subgroup (e c : TiXmlElement) (gname : string) (d : Diagnostic) :
    e ∈ ChildElements "group" (child_nodes robot_xml) →
    Attribute e "name" = Some gname →
    c ∈ ChildElements "group" (child_nodes e) →
    subgroup_fault c d → Fault robot_xml d
| fault_group_state (e : TiXmlElement) (d : Diagnostic) :
    e ∈ ChildElements "group_state" (child_nodes robot_xml) →
    group_state_fault e d → Fault robot_xml d
| fault_joint_value (e c : TiXmlElement) (sname gname : string)
    (d : Diagnostic) :
    e ∈ ChildElements "group_state" (child_nodes robot_xml) →
    Attribute e "name" = Some sname →
    Attribute e "group" = Some gname →
    trim gname ∈ Group.name_ <$> groups →
    c ∈ ChildElements "joint" (child_nodes e) →
    joint_value_fault sname c d → Fault robot_xml d
| fault_end_effector (e : TiXmlElement) (d : Diagnostic) :
    e ∈ ChildElements "end_effector" (child_nodes robot_xml) →
    end_effector_fault e d → Fault robot_xml d
| fault_sensor (e : TiXmlElement) (d : Diagnostic) :
    e ∈ ChildElements "visual_sensor" (child_nodes robot_xml) →
    sensor_fault e d → Fault robot_xml d
| fault_collision (e : TiXmlElement) (d : Diagnostic) :
    e ∈ ChildElements "disable_collisions" (child_nodes robot_xml) →
    collision_fault e d → Fault robot_xml d.

End Faults.

(** ** A concrete setting for running the loader *)

(** Plain decimal literals, read as fractions: an instance of the numeric
    conversion for the examples below. *)
Definition digit (c : ascii) : option Z :=
  let n := nat_of_ascii c in
  if Nat.leb 48 n && Nat.leb n 57 then Some (Z.of_nat (n - 48)) else None.

Fixpoint decimal_digits (s : string) (num : Z) (den : positive)
    (frac seen : bool) : option Q :=
  match s with
  | EmptyString => if seen then Some (num # den) else None
  | String c s' =>
      if Ascii.eqb c "."%char
      then if frac then None else decimal_digits s' num den true seen
      else match digit c with
           | Some d =>
               decimal_digits s' (10 * num + d)%Z
                 (if frac then (10 * den)%positive else den) frac true
           | None => None
           end
  end.

Definition decimal_cast (s : string) : option Q :=
  match s with
  | String "-"%char s' => option_map Qopp (decimal_digits s' 0 1 false false)
  | _ => decimal_digits s 0 1 false false
  end.

(** A small arm: [hand] below [wrist] below [root], and a second tree
    consisting of the single link [dock]. *)
Definition root_link : Link := RootLink "root".
Definition wrist_link : Link := ChildLink "wrist" root_link.
Definition hand_link : Link := ChildLink "hand" wrist_link.
Definition dock_link : Link := RootLink "dock".

Definition lookup_link (links : list Link) (n : string) : option Link :=
  List.find (λ l, String.eqb (name l) n) links.

Definition arm_urdf : ModelInterface :=
  {| getName := "arm";
     getLink := lookup_link [root_link; wrist_link; hand_link];
     getJoint := λ n, String.eqb n "wrist_joint" || String.eqb n "hand_joint" |}.

Definition arm_and_dock_urdf : ModelInterface :=
  {| getName := "arm";
     getLink := lookup_link [root_link; wrist_link; hand_link; dock_link];
     getJoint := λ n, String.eqb n "wrist_joint" || String.eqb n "hand_joint" |}.

Definition empty_model : Model Q := MkModel "" [] [] [] [] [] [].

(** A model that holds content from an earlier load. *)
Definition used_model : Model Q :=
  MkModel "arm" [Group.mk "g" ["hand"] [] [] []] [] [] [] []
    [("hand", "wrist")].

Definition leaf (tag : string) (attrs : list (string * string)) : TiXmlElement :=
  Element tag attrs [].

(** A group state whose second token is not a number. *)
Definition pose_doc : TiXmlElement :=
  Element "robot" [("name", "arm")]
    [ Element "group" [("name", "g")] [leaf "joint" [("name", "wrist_joint")]];
      Element "group_state" [("name", "up"); ("group", "g")]
        [leaf "joint" [("name", "wrist_joint"); ("value", "0.1 abc 0.3")]] ].

(** Two groups of one name; the second lists a subgroup nobody declares. *)
Definition twin_doc : TiXmlElement :=
  Element "robot" [("name", "arm")]
    [ Element "group" [("name", "A")] [leaf "link" [("name", "hand")]];
      Element "group" [("name", "A")] [leaf "group" [("name", "X")]] ].

(** Two groups of one name that list themselves. *)
Definition self_twin_doc : TiXmlElement :=
  Element "robot" [("name", "arm")]
    [ Element "group" [("name", "A")] [leaf "link" [("name", "hand")]];
      Element "group" [("name", "A")] [leaf "group" [("name", "A")]] ].

(** The scenarios of the description: an undeclared subgroup, a cycle. *)
Definition gripper_doc : TiXmlElement :=
  Element "robot" [("name", "arm")]
    [ Element "group" [("name", "arm")] [leaf "link" [("name", "wrist")]];
      Element "group" [("name", "arm_with_gripper")]
        [leaf "group" [("name", "arm")]; leaf "group" [("name", "gripper")]] ].

Definition cycle_doc : TiXmlElement :=
  Element "robot" [("name", "arm")]
    [ Element "group" [("name", "A")] [leaf "group" [("name", "B")]];
      Element "group" [("name", "B")] [leaf "group" [("name", "A")]] ].

(** The groups parsed from [twin_doc] and from [self_twin_doc]. *)
Definition plain_A : Group.t := Group.mk "A" ["hand"] [] [] [].
Definition A_with_X : Group.t := Group.mk "A" [] [] [] ["X"].
Definition A_with_A : Group.t := Group.mk "A" [] [] [] ["A"].

(** Two plain groups whose names differ in whitespace only. *)
Definition double_doc : TiXmlElement :=
  Element "robot" [("name", "arm")]
    [ Element "group" [("name", "A ")] [leaf "link" [("name", "hand")]];
      Element "group" [("name", " A")] [leaf "link" [("name", "wrist")]] ].

(** The elements the examples look at one by one. *)
Definition pose_joint : TiXmlElement :=
  leaf "joint" [("name", "wrist_joint"); ("value", "0.1 abc 0.3")].

Definition arm_chain : TiXmlElement :=
  leaf "chain" [("base_link", "root"); ("tip_link", "hand")].

Definition dock_chain : TiXmlElement :=
  leaf "chain" [("base_link", " dock"); ("tip_link", "hand ")].

Definition world_joint : TiXmlElement :=
  leaf "virtual_joint"
    [("name", "world_joint"); ("child_link", "root");
     ("parent_frame", "odom"); ("type", " Planar ")].

Definition cam_sensor : TiXmlElement :=
  leaf "visual_sensor"
    [("name", "cam"); ("frame", "hand"); ("fov_angle", "1.5");
     ("min_range", "0.1"); ("max_range", "5")].

(** The groups of [gripper_doc] and of [cycle_doc]. *)
Definition gripper_groups : list Group.t :=
  [Group.mk "arm" ["wrist"] [] [] [];
   Group.mk "arm_with_gripper" [] [] [] ["arm"; "gripper"]].

Definition cycle_groups : list Group.t :=
  [Group.mk "A" [] [] [] ["B"]; Group.mk "B" [] [] [] ["A"]].

(** A document reader and a file store for the examples: one file, whose
    text stands for [twin_doc]. *)
Definition sample_text : string := "<robot name='arm'>".

Definition sample_parse (xmlstring : string) : TiXmlDocument :=
  if String.eqb xmlstring (read_lines sample_text)
  then Document [twin_doc] else Document [].

Definition sample_disk (filename : string) : option string :=
  if String.eqb filename "arm.srdf" then Some sample_text else None.

(** More elements for the examples: a group with a chain, a joint that
    is a virtual joint and a link that does not exist; a joint whose
    value is blank; the chain of [arm_chain] with its ends swapped; an
    end effector. *)
Definition world_vj : VirtualJoint.t :=
  VirtualJoint.mk "world_joint" "root" "odom" "planar".

Definition arm_group : TiXmlElement :=
  Element "group" [("name", " arm")]
    [ leaf "chain" [("base_link", "root"); ("tip_link", "hand")];
      leaf "joint" [("name", "world_joint")];
      leaf "joint" [("name", "elbow_joint")];
      leaf "link" [("name", "wrist ")];
      leaf "link" [("name", "finger")];
      leaf "group" [("name", "gripper")] ].

Definition blank_joint : TiXmlElement :=
  leaf "joint" [("name", "wrist_joint"); ("value", "  ")].

Definition swapped_chain : TiXmlElement :=
  leaf "chain" [("base_link", "hand"); ("tip_link", "root")].

Definition tool_effector : TiXmlElement :=
  leaf "end_effector"
    [("name", "tool"); ("group", "arm"); ("parent_link", "hand")].

Definition home_state : TiXmlElement :=
  Element "group_state" [("name", "home"); ("group", "arm ")]
    [leaf "joint" [("name", "no_such_joint"); ("value", "1")]].

(** A document whose first top-level element is not a [robot] and whose
    second is one. *)
Definition mixed_doc : TiXmlDocument :=
  Document [leaf "machine" []; Element "robot" [("name", "arm")] []].

(** A root with one fault for each loader. *)
Definition faulty_doc : TiXmlElement :=
  Element "robot" [("name", "other")]
    [ leaf "virtual_joint" [("name", "world_joint"); ("child_link", "sky")];
      Element "group" [("name", "arm")]
        [leaf "link" [("name", "finger")];
         leaf "chain" [("base_link", "root")]];
      Element "group" [("name", "both")] [leaf "group" [("name", "leg")]];
      Element "group_state" [("name", "home"); ("group", "arm")]
        [leaf "joint" [("name", "wrist_joint"); ("value", "1 x")]];
      leaf "end_effector" [("name", "tool"); ("group", "leg")];
      leaf "visual_sensor"
        [("name", "cam"); ("frame", "hand"); ("fov_angle", "wide");
         ("min_range", "0.1"); ("max_range", "5")];
      leaf "disable_collisions" [("link1", "hand")] ].

(** A document whose only top-level element is not a [robot]. *)
Definition stray_doc : TiXmlDocument := Document [leaf "machine" []].

Definition full_doc : TiXmlElement :=
  Element "robot" [("name", " arm ")]
    [ leaf "virtual_joint"
        [("name", "world_joint"); ("child_link", "root");
         ("parent_frame", "odom"); ("type", " Planar ")];
      leaf "virtual_joint"
        [("name", "odd_joint"); ("child_link", "root");
         ("parent_frame", "odom"); ("type", "revolute")];
      Element "group" [("name", "arm")]
        [leaf "chain" [("base_link", "root"); ("tip_link", "hand")];
         leaf "joint" [("name", "world_joint")]];
      Element "group_state" [("name", "home"); ("group", "arm")]
        [leaf "joint" [("name", "wrist_joint"); ("value", " 0.5  1.25 ")]];
      leaf "end_effector"
        [("name", "tool"); ("group", "arm"); ("parent_link", "hand")];
      leaf "visual_sensor"
        [("name", "cam"); ("frame", "hand"); ("fov_angle", "1.5");
         ("min_range", "0.1"); ("max_range", "5")];
      leaf "visual_sensor"
        [("name", "bad_cam"); ("frame", "hand"); ("fov_angle", "1.5");
         ("min_range", "0.1"); ("max_range", "far")];
      leaf "disable_collisions" [("link1", "hand"); ("link2", "wrist")] ].

(** ** Properties *)

(** *** Strings and tokens *)

Lemma trim_left_length (s : string) :
  String.length (trim_left s) ≤ String.length s.
Proof.
  induction s as [|c s IH]; simpl; [lia|].
  destruct (isspace c); simpl; lia.
Qed.

Lemma trim_left_head (s : string) (c : ascii) (s' : string) :
  trim_left s = String c s' → isspace c = false.
Proof.
  induction s as [|a s IH]; simpl; [discriminate|].
  destruct (isspace a) eqn:Ha; [exact IH|].
  intros [= <- <-]. exact Ha.
Qed.

Lemma trim_left_fixed (c : ascii) (s : string) :
  isspace c = false → trim_left (String c s) = String c s.
Proof. intros H. simpl. by rewrite H. Qed.

Lemma trim_left_idem (s : string) : trim_left (trim_left s) = trim_left s.
Proof.
  destruct (trim_left s) as [|c s'] eqn:E; [done|].
  apply trim_left_fixed. eapply trim_left_head, E.
Qed.

Lemma tokens_trim_left (s : string) : tokens (trim_left s) = tokens s.
Proof.
  induction s as [|c s IH]; simpl; [done|].
  destruct (isspace c) eqn:Hc; [exact IH|].
  simpl. by rewrite Hc.
Qed.

(** Taking a word off a string that starts with one splits its tokens
    and shortens it. *)
Lemma take_word_tokens (c : ascii) (s : string) :
  isspace c = false →
  tokens (String c s)
  = fst (take_word (String c s)) :: tokens (snd (take_word (String c s)))
  ∧ String.length (snd (take_word (String c s))) ≤ String.length s.
Proof.
  revert c. induction s as [|a s IH]; intros c Hc.
  - simpl. rewrite Hc. simpl. split; [done|lia].
  - destruct (isspace a) eqn:Ha.
    + simpl. rewrite Hc, Ha. simpl. rewrite Ha. split; [done|lia].
    + destruct (IH a Ha) as [Ht Hl].
      change (tokens (String c (String a s)))
        with (if isspace c then tokens (String a s)
              else if word_ends (String a s)
                   then String c EmptyString :: tokens (String a s)
                   else match tokens (String a s) with
                        | w :: r => String c w :: r
                        | [] => [String c EmptyString]
                        end).
      change (take_word (String c (String a s)))
        with (if isspace c then (EmptyString, String c (String a s))
              else let (w, r) := take_word (String a s) in (String c w, r)).
      rewrite Hc. change (word_ends (String a s)) with (isspace a).
      rewrite Ha, Ht.
      destruct (take_word (String a s)) as [w r]. simpl in *.
      split; [done|lia].
Qed.

(** *** Reading the values of a joint *)

Section GroupStateValues.

Context {D : Type}.
Variable lexical_cast : string → option D.
Implicit Types (m : gmap string (list D)) (j k : string).

Lemma index_lookup_total m j : index m j !!! j = m !!! j.
Proof.
  unfold index. destruct (m !! j) eqn:E; [done|].
  rewrite lookup_total_insert_eq, lookup_total_alt, E. done.
Qed.

Lemma index_lookup_ne m j k : k ≠ j → index m j !! k = m !! k.
Proof.
  intros Hk. unfold index. destruct (m !! j); [done|].
  by rewrite lookup_insert_ne.
Qed.

Lemma push_back_lookup_total m j (d : D) :
  push_back m j d !!! j = m !!! j ++ [d].
Proof. unfold push_back. by rewrite lookup_total_insert_eq. Qed.

Lemma push_back_lookup_ne m j k (d : D) :
  k ≠ j → push_back m j d !! k = m !! k.
Proof. intros Hk. unfold push_back. by rewrite lookup_insert_ne. Qed.

Lemma throws_all_cast (l : list string) :
  throws lexical_cast l = false ↔ all_cast lexical_cast l.
Proof.
  unfold all_cast. induction l as [|t l IH]; simpl.
  - split; [|done]. intros _ t Ht. by apply elem_of_nil in Ht.
  - destruct (lexical_cast t) eqn:Et; simpl.
    + rewrite IH. split.
      * intros H t' [->|Ht']%elem_of_cons; [by rewrite Et|by apply H].
      * intros H t' Ht'. apply H. by right.
    + split; [done|]. intros H.
      destruct (H t) as [d Hd]; [by left|congruence].
Qed.

Lemma cast_prefix_all (l : list string) :
  all_cast lexical_cast l → cast_prefix lexical_cast l = cast_each lexical_cast l.
Proof.
  unfold all_cast, cast_each. induction l as [|t l IH]; intros H; simpl; [done|].
  destruct (H t) as [d Hd]; [by left|]. rewrite Hd. simpl.
  f_equal. apply IH. intros t' Ht'. apply H. by right.
Qed.

(** One round of the loop on a good stream that still holds a word. *)
Lemma read_values_round fuel (b : string) c s m j :
  trim_left b = String c s →
  read_values lexical_cast (S fuel) (MkStream b false false) j m =
    let w := fst (take_word (String c s)) in
    let r := trim_left (snd (take_word (String c s))) in
    match lexical_cast w with
    | Some d =>
        read_values lexical_cast fuel (MkStream r (is_empty r) false) j
          (push_back (index m j) j d)
    | None => Some (index m j, true)
    end.
Proof.
  intros Hb. cbn [read_values]. unfold extract. cbn [good eofbit failbit eof buffer negb andb].
  rewrite Hb. destruct (take_word (String c s)) as [w r] eqn:Ew.
  cbn [fst snd]. unfold ws. cbn [good eofbit failbit buffer].
  destruct r as [|a r]; [|done]. done.
Qed.

(** The loop from the state a round leaves behind: the remaining
    tokens are converted up to the first failure, and the bound on
    the rounds is not reached. *)
Lemma read_values_rest fuel (r : string) m j :
  String.length r < fuel → trim_left r = r →
  ∃ m', read_values lexical_cast fuel (MkStream r (is_empty r) false) j m
        = Some (m', throws lexical_cast (tokens r))
      ∧ m' !!! j = m !!! j ++ cast_prefix lexical_cast (tokens r)
      ∧ ∀ k, k ≠ j → m' !! k = m !! k.
Proof.
  revert r m. induction fuel as [|fuel IH]; intros r m Hlen Htrim; [lia|].
  destruct r as [|c s].
  - exists m. simpl. by rewrite app_nil_r.
  - assert (Hc : isspace c = false) by (eapply trim_left_head, Htrim).
    cbn [is_empty]. rewrite (read_values_round fuel _ c s m j Htrim).
    destruct (take_word_tokens c s Hc) as [Ht Hl].
    rewrite Ht. cbn [throws existsb cast_prefix]. cbv zeta.
    destruct (lexical_cast (fst (take_word (String c s)))) as [d|].
    + destruct (IH (trim_left (snd (take_word (String c s))))
                  (push_back (index m j) j d)) as (m' & Hrun & Hj & Hk).
      { pose proof (trim_left_length (snd (take_word (String c s)))).
        simpl in Hlen. lia. }
      { apply trim_left_idem. }
      rewrite tokens_trim_left in Hrun, Hj.
      exists m'. split; [exact Hrun|]. split.
      * rewrite Hj, push_back_lookup_total, index_lookup_total.
        by rewrite <- app_assoc.
      * intros k Hne. rewrite Hk, push_back_lookup_ne, index_lookup_ne; done.
    + exists (index m j). split; [done|]. split.
      * by rewrite index_lookup_total, app_nil_r.
      * intros k Hne. by apply index_lookup_ne.
Qed.

(** The whole loop of lines 336 to 340 on a value attribute. *)
Lemma read_values_spec (jval : string) m j :
  lexical_cast "" = None →
  ∃ m' threw,
    read_values lexical_cast (rounds jval) (MkStream jval false false) j m
    = Some (m', threw)
    ∧ m' !!! j = m !!! j ++ cast_prefix lexical_cast (tokens jval)
    ∧ (∀ k, k ≠ j → m' !! k = m !! k)
    ∧ (threw = false ↔ tokens jval ≠ [] ∧ all_cast lexical_cast (tokens jval)).
Proof.
  intros Hempty. unfold rounds.
  destruct (trim_left jval) as [|c s] eqn:Hb.
  - exists (index m j), true.
    assert (Ht : tokens jval = []) by (by rewrite <- tokens_trim_left, Hb).
    rewrite Ht. split.
    { cbn [read_values]. unfold extract.
      cbn [good eofbit failbit eof buffer negb andb]. rewrite Hb.
      by rewrite Hempty. }
    split; [by rewrite index_lookup_total, app_nil_r|].
    split; [intros k Hk; by apply index_lookup_ne|].
    split; [done|]. by intros [? _].
  - assert (Hc : isspace c = false) by (eapply trim_left_head, Hb).
    rewrite (read_values_round _ _ c s m j Hb).
    destruct (take_word_tokens c s Hc) as [Ht Hl].
    assert (Htok : tokens jval
                   = fst (take_word (String c s))
                     :: tokens (snd (take_word (String c s))))
      by (by rewrite <- tokens_trim_left, Hb).
    rewrite Htok. cbn [cast_prefix]. cbv zeta.
    destruct (lexical_cast (fst (take_word (String c s)))) as [d|] eqn:Ed.
    + destruct (read_values_rest (String.length jval)
                  (trim_left (snd (take_word (String c s))))
                  (push_back (index m j) j d) j) as (m' & Hrun & Hj & Hk).
      { pose proof (trim_left_length (snd (take_word (String c s)))).
        pose proof (trim_left_length jval). rewrite Hb in *. simpl in *. lia. }
      { apply trim_left_idem. }
      rewrite tokens_trim_left in Hrun, Hj.
      exists m', (throws lexical_cast (tokens (snd (take_word (String c s))))).
      split; [exact Hrun|]. split.
      { rewrite Hj, push_back_lookup_total, index_lookup_total.
        by rewrite <- app_assoc. }
      split.
      { intros k Hne. rewrite Hk, push_back_lookup_ne, index_lookup_ne; done. }
      rewrite throws_all_cast. split.
      * intros H. split; [done|].
        intros t [->|Ht']%elem_of_cons; [by rewrite Ed|by apply H].
      * intros [_ H] t Ht'. apply H. by right.
    + exists (index m j), true. split; [done|].
      split; [by rewrite index_lookup_total, app_nil_r|].
      split; [intros k Hk; by apply index_lookup_ne|].
      split; [done|]. intros [_ H].
      destruct (H (fst (take_word (String c s)))) as [d Hd]; [by left|].
      congruence.
Qed.

End GroupStateValues.

(** *** The element loaders *)

Section ElementLoaders.

Context {D : Type}.
Variable lexical_cast : string → option D.
Variable urdf_model : ModelInterface.

(** C1 (amended).  For a joint element of a group state with a name, a
    value and a known joint, the stored value sequence of the joint is
    extended by the numbers of the whitespace-separated tokens of the
    value, in document order, up to the first token that is not a
    number: that token ends the reading of this value list and is
    reported.  The sequences of the other joints are untouched, and a
    value list whose tokens are all numbers is stored whole. *)
Theorem joint_values_stop_at_first_bad_token
    (virtual_joints : list VirtualJoint.t) (sname : string)
    (joint_xml : TiXmlElement) (jname jval : string)
    (joint_values : gmap string (list D)) (log : list Diagnostic) :
  lexical_cast "" = None →
  Attribute joint_xml "name" = Some jname →
  Attribute joint_xml "value" = Some jval →
  joint_missing urdf_model virtual_joints (trim jname) = false →
  let r := loadJointValue lexical_cast urdf_model virtual_joints sname
             joint_xml (joint_values, log) in
  fst r !!! trim jname
    = joint_values !!! trim jname ++ cast_prefix lexical_cast (tokens jval)
  ∧ (∀ k, k ≠ trim jname → fst r !! k = joint_values !! k)
  ∧ (all_cast lexical_cast (tokens jval) →
     fst r !!! trim jname
       = joint_values !!! trim jname ++ cast_each lexical_cast (tokens jval))
  ∧ (¬ all_cast lexical_cast (tokens jval) →
     ROS_ERROR "Unable to parse joint value '%s'" [jval] ∈ snd r).
Proof.
  intros Hempty Hname Hval Hknown r. subst r.
  unfold loadJointValue. rewrite Hname, Hval, Hknown.
  destruct (read_values_spec lexical_cast jval joint_values (trim jname) Hempty)
    as (m' & threw & Hrun & Hj & Hk & Hthrew).
  rewrite Hrun.
  assert (Hfst : ∀ (st : gmap string (list D) * list Diagnostic) d,
             fst (let (jv, lg) := st in
                  if bool_decide (jv = ∅) then report jv lg d else (jv, lg))
             = fst st)
    by (intros [jv lg] d; by destruct (bool_decide (jv = ∅))).
  assert (Hsnd : ∀ (st : gmap string (list D) * list Diagnostic) d e,
             e ∈ snd st →
             e ∈ snd (let (jv, lg) := st in
                      if bool_decide (jv = ∅) then report jv lg d else (jv, lg))).
  { intros [jv lg] d e He. destruct (bool_decide (jv = ∅)); simpl in *; [|done].
    apply elem_of_app. by left. }
  split; [|split; [|split]].
  - rewrite Hfst. by destruct threw.
  - intros k Hne. rewrite Hfst. destruct threw; by apply Hk.
  - intros Hall. rewrite Hfst, <- cast_prefix_all by done. by destruct threw.
  - intros Hnot. apply Hsnd. destruct threw.
    + simpl. apply elem_of_app. right. by left.
    + exfalso. apply Hnot. by apply Hthrew.
Qed.

Local Ltac no_sensor :=
  right; intros ? (?&?&?&?&?&?&?&?&?&?&?&?&?&?&?); congruence.

Lemma describes_sensor_cases (s_xml : TiXmlElement) :
  (∃ entry, describes_sensor lexical_cast s_xml entry)
  ∨ (∀ entry, ¬ describes_sensor lexical_cast s_xml entry).
Proof.
  destruct (Attribute s_xml "name") as [sname|] eqn:H1;
    [|no_sensor].
  destruct (Attribute s_xml "frame") as [frame|] eqn:H2;
    [|no_sensor].
  destruct (Attribute s_xml "fov_angle") as [fov|] eqn:H3;
    [|no_sensor].
  destruct (Attribute s_xml "min_range") as [rmin|] eqn:H4;
    [|no_sensor].
  destruct (Attribute s_xml "max_range") as [rmax|] eqn:H5;
    [|no_sensor].
  destruct (lexical_cast fov) as [a|] eqn:H6;
    [|no_sensor].
  destruct (lexical_cast rmin) as [b|] eqn:H7;
    [|no_sensor].
  destruct (lexical_cast rmax) as [c|] eqn:H8;
    [|no_sensor].
  left. exists (VisualSensor.mk (trim sname) (trim frame) a b c).
  exists sname, frame, fov, rmin, rmax. simpl. tauto.
Qed.

(** C7.  A visual sensor element adds an entry exactly when its five
    attributes are present and its three numeric fields are numbers;
    otherwise the sequence is left as it was and one error is
    reported: there is no partial entry. *)
Theorem visual_sensor_all_or_nothing
    (s_xml : TiXmlElement) (visual_sensors : list (VisualSensor.t D))
    (log : list Diagnostic) :
  let r := loadVisualSensor lexical_cast s_xml (visual_sensors, log) in
  (∀ entry, describes_sensor lexical_cast s_xml entry →
            r = (visual_sensors ++ [entry], log))
  ∧ ((∀ entry, ¬ describes_sensor lexical_cast s_xml entry) →
     fst r = visual_sensors ∧ ∃ fmt args, snd r = log ++ [ROS_ERROR fmt args])
  ∧ ((∃ entry, fst r = visual_sensors ++ [entry])
     ↔ ∃ entry, describes_sensor lexical_cast s_xml entry).
Proof.
  cbv zeta.
  assert (Hyes : ∀ entry, describes_sensor lexical_cast s_xml entry →
            loadVisualSensor lexical_cast s_xml (visual_sensors, log)
            = (visual_sensors ++ [entry], log)).
  { intros [n f a b c]
      (sname & frame & fov & rmin & rmax & H1 & H2 & H3 & H4 & H5
       & H6 & H7 & H8 & H9 & H10).
    simpl in *. subst n f. unfold loadVisualSensor.
    by rewrite H1, H2, H3, H4, H5, H6, H7, H8. }
  assert (Hno : (∀ entry, ¬ describes_sensor lexical_cast s_xml entry) →
            fst (loadVisualSensor lexical_cast s_xml (visual_sensors, log))
            = visual_sensors
            ∧ ∃ fmt args,
                snd (loadVisualSensor lexical_cast s_xml (visual_sensors, log))
                = log ++ [ROS_ERROR fmt args]).
  { intros Hnone. unfold loadVisualSensor.
    destruct (Attribute s_xml "name") as [sname|] eqn:H1; [|simpl; eauto].
    destruct (Attribute s_xml "frame") as [frame|] eqn:H2; [|simpl; eauto].
    destruct (Attribute s_xml "fov_angle") as [fov|] eqn:H3; [|simpl; eauto].
    destruct (Attribute s_xml "min_range") as [rmin|] eqn:H4; [|simpl; eauto].
    destruct (Attribute s_xml "max_range") as [rmax|] eqn:H5; [|simpl; eauto].
    destruct (lexical_cast fov) as [a|] eqn:H6; [|simpl; eauto].
    destruct (lexical_cast rmin) as [b|] eqn:H7; [|simpl; eauto].
    destruct (lexical_cast rmax) as [c|] eqn:H8; [|simpl; eauto].
    exfalso.
    apply (Hnone (VisualSensor.mk (trim sname) (trim frame) a b c)).
    exists sname, frame, fov, rmin, rmax. simpl. tauto. }
  split; [exact Hyes|]. split; [exact Hno|]. split.
  - intros [entry Hentry].
    destruct (describes_sensor_cases s_xml) as [Hsome|Hnone]; [exact Hsome|].
    destruct (Hno Hnone) as [Hsame _]. rewrite Hsame in Hentry.
    apply (f_equal length) in Hentry. rewrite length_app in Hentry.
    simpl in Hentry. lia.
  - intros [entry Hentry]. exists entry. by rewrite (Hyes entry Hentry).
Qed.

End ElementLoaders.

(** *** Virtual joints and chains *)

Section Kinematics.

Variable urdf_model : ModelInterface.

Lemma known_type_spec (ty : string) :
  known_type ty = true ↔ ty ∈ joint_types.
Proof.
  unfold known_type, joint_types.
  rewrite !orb_true_iff, !String.eqb_eq, !elem_of_cons, elem_of_nil.
  tauto.
Qed.

(** C8.  A virtual joint element with its four attributes and an
    existing child link is stored with the trimmed, lowercased type when
    that is planar, floating or fixed, and with the type fixed, an error
    being reported, for any other value. *)
Theorem virtual_joint_type_normalized
    (vj_xml : TiXmlElement) (jname child parent type : string) (l : Link)
    (virtual_joints : list VirtualJoint.t) (log : list Diagnostic) :
  Attribute vj_xml "name" = Some jname →
  Attribute vj_xml "child_link" = Some child →
  Attribute vj_xml "parent_frame" = Some parent →
  Attribute vj_xml "type" = Some type →
  getLink urdf_model (trim child) = Some l →
  let lowered := transform tolower (trim type) in
  let r := loadVirtualJoint urdf_model vj_xml (virtual_joints, log) in
  (lowered ∈ joint_types →
   r = (virtual_joints ++
          [VirtualJoint.mk (trim jname) (trim child) (trim parent) lowered],
        log))
  ∧ (lowered ∉ joint_types →
     r = (virtual_joints ++
            [VirtualJoint.mk (trim jname) (trim child) (trim parent) "fixed"],
          log ++ [ROS_ERROR "Unknown type of joint: '%s'. Assuming 'fixed' instead. Other known types are 'planar' and 'floating'." [type]])).
Proof.
  intros Hn Hc Hp Ht Hl lowered r. subst r.
  unfold loadVirtualJoint. rewrite Hn, Hc, Hl, Hp, Ht. fold lowered.
  pose proof (known_type_spec lowered) as Hk.
  destruct (known_type lowered); simpl.
  - split; [done|]. intros Hnot. exfalso. apply Hnot. by apply Hk.
  - split; [|done]. intros Hin. apply Hk in Hin. discriminate.
Qed.

(** **** The chain check *)

Lemma root_name_ancestor (l : Link) : root_name l ∈ ancestors l.
Proof.
  induction l as [n|n p IH]; simpl; [by left|by right].
Qed.

Lemma name_ancestor (l : Link) : name l ∈ ancestors l.
Proof. destruct l; simpl; by left. Qed.

(** The first walk finds the base exactly when it is among the names
    above the tip; when it does not, it has recorded all of them. *)
Lemma tip_walk_found (base_str : string) (l : Link) (seen : gset string) :
  fst (tip_walk base_str l seen) = true ↔ base_str ∈ ancestors l.
Proof.
  revert seen. induction l as [n|n p IH]; intros seen; simpl.
  - destruct (String.eqb_spec n base_str) as [->|Hne]; simpl.
    + split; [|done]. intros _. by left.
    + split; [done|]. intros [->|H]%elem_of_cons; [done|].
      by apply elem_of_nil in H.
  - destruct (String.eqb_spec n base_str) as [->|Hne]; simpl.
    + split; [|done]. intros _. by left.
    + rewrite IH. split; [by right|].
      intros [->|H]%elem_of_cons; done.
Qed.

Lemma tip_walk_seen (base_str : string) (l : Link) (seen : gset string) :
  fst (tip_walk base_str l seen) = false →
  ∀ n, n ∈ snd (tip_walk base_str l seen) ↔ n ∈ ancestors l ∨ n ∈ seen.
Proof.
  revert seen. induction l as [a|a p IH]; intros seen; simpl.
  - destruct (String.eqb a base_str); simpl; [done|].
    intros _ n. rewrite elem_of_union, elem_of_singleton, elem_of_cons, elem_of_nil.
    tauto.
  - destruct (String.eqb a base_str); simpl; [done|].
    intros Hf n. rewrite (IH _ Hf), elem_of_union, elem_of_singleton, elem_of_cons.
    tauto.
Qed.

Lemma base_walk_found (seen : gset string) (l : Link) :
  base_walk seen l = true ↔ ∃ n, n ∈ ancestors l ∧ n ∈ seen.
Proof.
  induction l as [a|a p IH]; simpl.
  - destruct (bool_decide_reflect (a ∈ seen)) as [Hin|Hout].
    + split; [|done]. intros _. exists a. split; [by left|done].
    + split; [done|]. intros (n & [->|H]%elem_of_cons & Hn); [done|].
      by apply elem_of_nil in H.
  - destruct (bool_decide_reflect (a ∈ seen)) as [Hin|Hout].
    + split; [|done]. intros _. exists a. split; [by left|done].
    + rewrite IH. split.
      * intros (n & Hn & Hs). exists n. split; [by right|done].
      * intros (n & [->|H]%elem_of_cons & Hn); [done|]. by exists n.
Qed.

Lemma chain_found_connected (base_str : string) (base_link tip_link : Link) :
  chain_found base_str (Some tip_link) (Some base_link) = true
  ↔ connected base_str base_link tip_link.
Proof.
  unfold chain_found, connected.
  pose proof (tip_walk_found base_str tip_link ∅) as Hfound.
  pose proof (tip_walk_seen base_str tip_link ∅) as Hseen.
  destruct (tip_walk base_str tip_link ∅) as [[|] seen]; simpl in *.
  - split; [|done]. intros _. left. by apply Hfound.
  - rewrite base_walk_found. split.
    + intros (n & Hb & Hs). right. exists n. split; [done|].
      apply (Hseen eq_refl) in Hs as [Hs|Hs]; [done|].
      by apply not_elem_of_empty in Hs.
    + intros [Hb|(n & Hb & Ht)].
      * apply Hfound in Hb. discriminate.
      * exists n. split; [done|]. apply (Hseen eq_refl). by left.
Qed.

Lemma loadGroupChain_checked (gname : string) (chain_xml : TiXmlElement)
    (base tip : string) (base_link tip_link : Link)
    (chains : list (string * string)) (log : list Diagnostic) :
  Attribute chain_xml "base_link" = Some base →
  Attribute chain_xml "tip_link" = Some tip →
  getLink urdf_model (trim base) = Some base_link →
  getLink urdf_model (trim tip) = Some tip_link →
  loadGroupChain urdf_model gname chain_xml (chains, log)
  = if chain_found (trim base) (Some tip_link) (Some base_link)
    then (chains ++ [(trim base, trim tip)], log)
    else (chains,
          log ++ [ROS_ERROR "Links '%s' and '%s' do not form a chain. Not included in group '%s'" [base; tip; gname]]).
Proof.
  intros Hb Ht Hbl Htl. unfold loadGroupChain.
  by rewrite Hb, Ht, Hbl, Htl.
Qed.

(** C2.  A chain element whose trimmed base and tip name links of the
    kinematic model is appended as (base, tip) exactly when the base is
    met on the walk from the tip up the parent links, or a link on the
    walk from the base up the parent links was visited by the walk
    from the tip; otherwise it is dropped and reported.  A chain whose
    base is its tip is accepted. *)
Theorem chain_accepted_iff_connected
    (gname : string) (chain_xml : TiXmlElement) (base tip : string)
    (base_link tip_link : Link)
    (chains : list (string * string)) (log : list Diagnostic) :
  Attribute chain_xml "base_link" = Some base →
  Attribute chain_xml "tip_link" = Some tip →
  getLink urdf_model (trim base) = Some base_link →
  getLink urdf_model (trim tip) = Some tip_link →
  let r := loadGroupChain urdf_model gname chain_xml (chains, log) in
  (fst r = chains ++ [(trim base, trim tip)]
   ↔ connected (trim base) base_link tip_link)
  ∧ (connected (trim base) base_link tip_link →
     r = (chains ++ [(trim base, trim tip)], log))
  ∧ (¬ connected (trim base) base_link tip_link →
     r = (chains,
          log ++ [ROS_ERROR "Links '%s' and '%s' do not form a chain. Not included in group '%s'" [base; tip; gname]]))
  ∧ (trim base = trim tip →
     r = (chains ++ [(trim base, trim tip)], log)).
Proof.
  intros Hb Ht Hbl Htl r. subst r.
  rewrite (loadGroupChain_checked gname chain_xml base tip base_link tip_link)
    by done.
  pose proof (chain_found_connected (trim base) base_link tip_link) as Hc.
  destruct (chain_found (trim base) (Some tip_link) (Some base_link)).
  - split; [simpl; tauto|]. split; [done|]. split.
    + intros Hn. exfalso. apply Hn. by apply Hc.
    + done.
  - assert (Hn : ¬ connected (trim base) base_link tip_link).
    { intros H. apply Hc in H. discriminate. }
    split.
    { simpl. split; [|done]. intros H. apply (f_equal length) in H.
      rewrite length_app in H. simpl in H. lia. }
    split; [done|]. split; [done|].
    intros Heq. exfalso. apply Hn. right.
    rewrite Heq, Htl in Hbl. injection Hbl as <-.
    exists (name tip_link). split; apply name_ancestor.
Qed.

(** C10.  In a kinematic model whose parent walks all end at one root,
    every chain element whose trimmed base and tip name links is
    accepted: the rejection branch is not reached. *)
Theorem single_rooted_chain_accepted
    (gname : string) (chain_xml : TiXmlElement) (base tip : string)
    (chains : list (string * string)) (log : list Diagnostic) :
  single_rooted urdf_model →
  Attribute chain_xml "base_link" = Some base →
  Attribute chain_xml "tip_link" = Some tip →
  is_Some (getLink urdf_model (trim base)) →
  is_Some (getLink urdf_model (trim tip)) →
  loadGroupChain urdf_model gname chain_xml (chains, log)
  = (chains ++ [(trim base, trim tip)], log).
Proof.
  intros [root Hroot] Hb Ht [base_link Hbl] [tip_link Htl].
  rewrite (loadGroupChain_checked gname chain_xml base tip base_link tip_link)
    by done.
  assert (Hc : connected (trim base) base_link tip_link).
  { right. exists root. split.
    - rewrite <- (Hroot _ _ Hbl). apply root_name_ancestor.
    - rewrite <- (Hroot _ _ Htl). apply root_name_ancestor. }
  apply chain_found_connected in Hc. by rewrite Hc.
Qed.

End Kinematics.

(** *** The subgroup check *)

Section SubgroupCheck.

Variable groups : list Group.t.
Implicit Types (K : gset string) (g : Group.t).

Lemma Known_named (n : string) :
  Known groups n → n ∈ Group.name_ <$> groups.
Proof. intros [g Hg _]. by apply list_elem_of_fmap_2. Qed.

Lemma subgroups_ok_spec K (subgroups : list string) :
  subgroups_ok K subgroups = true ↔ ∀ s, s ∈ subgroups → s ∈ K.
Proof.
  unfold subgroups_ok. induction subgroups as [|a l IH]; simpl.
  - split; [|done]. intros _ s Hs. by apply elem_of_nil in Hs.
  - rewrite andb_true_iff, bool_decide_eq_true, IH. split.
    + intros [Ha Hl] s [->|Hs]%elem_of_cons; auto.
    + intros H. split; [apply H; by left|]. intros s Hs. apply H. by right.
Qed.

(** The two things the body of the loop over [i] can do. *)
Lemma scan_group_cases K (update : bool) g :
  (scan_group (K, update) g = (K, update)
   ∧ (Group.name_ g ∈ K ∨ subgroups_ok K (Group.subgroups_ g) = false))
  ∨ (scan_group (K, update) g = ({[ Group.name_ g ]} ∪ K, true)
     ∧ (Group.name_ g ∉ K) ∧ subgroups_ok K (Group.subgroups_ g) = true).
Proof.
  unfold scan_group.
  destruct (bool_decide_reflect (Group.name_ g ∈ K)) as [Hin|Hout];
    [left; auto|].
  destruct (Group.subgroups_ g) as [|s l] eqn:Hs; cbn [vector_empty].
  - right. auto.
  - destruct (subgroups_ok K (s :: l)) eqn:Hok; [right|left]; auto.
Qed.

Lemma scan_fold (l : list Group.t) K (update : bool) :
  (∀ g, g ∈ l → g ∈ groups) → sound_marks groups K →
  let r := fold_left scan_group l (K, update) in
  sound_marks groups (fst r) ∧ K ⊆ fst r
  ∧ (snd r = true → update = true ∨ size K < size (fst r))
  ∧ (snd r = false →
     update = false ∧ fst r = K
     ∧ ∀ g, g ∈ l → subgroups_ok K (Group.subgroups_ g) = true →
            Group.name_ g ∈ K).
Proof.
  revert K update.
  induction l as [|g l IH]; intros K update Hl Hsound; cbn [fold_left].
  - simpl. split; [done|]. split; [done|]. split; [by left|].
    intros ->. split; [done|]. split; [done|].
    intros g Hg. by apply elem_of_nil in Hg.
  - assert (Hg : g ∈ groups) by (apply Hl; by left).
    assert (Hl' : ∀ g', g' ∈ l → g' ∈ groups)
      by (intros g' Hg'; apply Hl; by right).
    destruct (scan_group_cases K update g) as [[-> Hskip]|(-> & Hnew & Hok)].
    + destruct (IH K update Hl' Hsound) as (Hs & Hsub & Ht & Hf).
      split; [done|]. split; [done|]. split; [done|].
      intros Hfalse. destruct (Hf Hfalse) as (Hu & HK & Hclosed).
      split; [done|]. split; [done|].
      intros g' [->|Hg']%elem_of_cons Hok'; [|by apply Hclosed].
      destruct Hskip as [?|Hno]; [done|congruence].
    + assert (Hsound' : sound_marks groups ({[ Group.name_ g ]} ∪ K)).
      { intros n [->%elem_of_singleton|Hn]%elem_of_union; [|by apply Hsound].
        apply Known_mark; [done|].
        intros s Hs. apply Hsound.
        by apply (proj1 (subgroups_ok_spec K _) Hok). }
      destruct (IH _ true Hl' Hsound') as (Hs & Hsub & Ht & Hf).
      split; [done|]. split; [clear -Hsub; set_solver|]. split.
      * intros _. right.
        apply Nat.lt_le_trans with (size ({[ Group.name_ g ]} ∪ K)).
        -- rewrite size_union by (clear -Hnew; set_solver). rewrite size_singleton. lia.
        -- by apply subseteq_size.
      * intros Hfalse. by destruct (Hf Hfalse) as [? _].
Qed.

Lemma size_list_to_set_le (l : list string) :
  size (list_to_set l : gset string) ≤ length l.
Proof.
  induction l as [|a l IH].
  - rewrite list_to_set_nil, size_empty. done.
  - rewrite list_to_set_cons, size_union_alt, size_singleton. simpl.
    assert (Hsub : list_to_set l ∖ {[a]} ⊆ (list_to_set l : gset string))
      by (by intros x [Hx _]%elem_of_difference).
    apply subseteq_size in Hsub. lia.
Qed.

Lemma sound_size K : sound_marks groups K → size K ≤ length groups.
Proof.
  intros Hsound.
  rewrite <- (length_fmap Group.name_ groups).
  etrans; [|apply size_list_to_set_le].
  apply subseteq_size. intros n Hn.
  apply elem_of_list_to_set, Known_named, Hsound, Hn.
Qed.

(** The loop ends within the bound, with a sound set to which the
    marking rule adds nothing. *)
Lemma check_subgroups_ends (fuel : nat) K :
  sound_marks groups K → length groups < fuel + size K →
  ∃ K', check_subgroups fuel groups K = Some K'
        ∧ sound_marks groups K' ∧ closed_under_marking groups K'.
Proof.
  revert K. induction fuel as [|fuel IH]; intros K Hsound Hfuel.
  - pose proof (sound_size K Hsound). lia.
  - cbn [check_subgroups]. unfold scan.
    destruct (scan_fold groups K false (λ g H, H) Hsound)
      as (Hs & Hsub & Ht & Hf).
    destruct (fold_left scan_group groups (K, false)) as [K1 [|]];
      simpl in *.
    + destruct (Ht eq_refl) as [?|Hgrow]; [done|].
      apply IH; [done|lia].
    + destruct (Hf eq_refl) as (_ & -> & Hclosed).
      exists K. done.
Qed.

Lemma closed_contains_known K :
  closed_under_marking groups K → ∀ n, Known groups n → n ∈ K.
Proof.
  intros Hclosed n Hn. induction Hn as [g Hg _ IH].
  apply Hclosed; [done|]. by apply subgroups_ok_spec.
Qed.

(** The subgroup check computes the least set closed under marking. *)
Lemma check_subgroups_known :
  ∃ K, check_subgroups (passes groups) groups ∅ = Some K
       ∧ ∀ n, n ∈ K ↔ Known groups n.
Proof.
  destruct (check_subgroups_ends (passes groups) ∅) as (K & Hrun & Hs & Hc).
  - intros n Hn. by apply not_elem_of_empty in Hn.
  - unfold passes. lia.
  - exists K. split; [done|]. intros n. split; [apply Hs|].
    by apply closed_contains_known.
Qed.

Lemma keep_fold K (l correct : list Group.t) (log : list Diagnostic) :
  fold_left (keep_group K) l (correct, log)
  = (correct ++ filter (λ g, Group.name_ g ∈ K) l,
     log ++ (unsatisfied <$> filter (λ g, Group.name_ g ∉ K) l)).
Proof.
  revert correct log. induction l as [|g l IH]; intros correct log.
  - simpl. by rewrite !app_nil_r.
  - cbn [fold_left]. unfold keep_group at 2.
    destruct (bool_decide_reflect (Group.name_ g ∈ K)) as [Hin|Hout].
    + rewrite IH, filter_cons_True by done.
      rewrite filter_cons_False by (intros H; by apply H).
      by rewrite <- app_assoc.
    + unfold report. rewrite IH, filter_cons_False, filter_cons_True by done.
      rewrite fmap_cons, <- app_assoc. done.
Qed.

Lemma filter_all {A : Type} (P : A → Prop) `{!∀ x, Decision (P x)}
    (l : list A) :
  (∀ x, x ∈ l → P x) → filter P l = l.
Proof.
  induction l as [|a l IH]; intros Hall; [done|].
  rewrite filter_cons_True by (apply Hall; by left).
  f_equal. apply IH. intros x Hx. apply Hall. by right.
Qed.

Lemma filter_none {A : Type} (P : A → Prop) `{!∀ x, Decision (P x)}
    (l : list A) :
  (∀ x, x ∈ l → ¬ P x) → filter P l = [].
Proof.
  induction l as [|a l IH]; intros Hnone; [done|].
  rewrite filter_cons_False by (apply Hnone; by left).
  apply IH. intros x Hx. apply Hnone. by right.
Qed.

(** When the sizes agree every group is known, so that skipping the
    copy at line 255 keeps what the copy would keep. *)
Lemma same_size_all_known K :
  sound_marks groups K → size K = length groups →
  ∀ g, g ∈ groups → Group.name_ g ∈ K.
Proof.
  intros Hsound Hsize g Hg.
  assert (Hsub : K ⊆ list_to_set (Group.name_ <$> groups)).
  { intros n Hn. apply elem_of_list_to_set, Known_named, Hsound, Hn. }
  assert (HK : K = list_to_set (Group.name_ <$> groups)).
  { apply set_subseteq_size_eq; [done|].
    pose proof (size_list_to_set_le (Group.name_ <$> groups)) as Hle.
    rewrite length_fmap in Hle. lia. }
  rewrite HK. apply elem_of_list_to_set. by apply list_elem_of_fmap_2.
Qed.

Lemma keep_valid_filter K (log : list Diagnostic) :
  sound_marks groups K →
  keep_valid K groups log
  = (filter (λ g, Group.name_ g ∈ K) groups,
     log ++ (unsatisfied <$> filter (λ g, Group.name_ g ∉ K) groups)).
Proof.
  intros Hsound. unfold keep_valid.
  destruct (Nat.eqb_spec (size K) (length groups)) as [Heq|Hne];
    cbn [negb].
  - pose proof (same_size_all_known K Hsound Heq) as Hall.
    rewrite filter_all by done.
    rewrite filter_none by (intros g Hg Hn; by apply Hn, Hall).
    by rewrite app_nil_r.
  - by rewrite keep_fold.
Qed.

(** With distinct names, a name carries one group. *)
Lemma distinct_names_inj (g g' : Group.t) :
  distinct_names groups → g ∈ groups → g' ∈ groups →
  Group.name_ g = Group.name_ g' → g = g'.
Proof.
  unfold distinct_names. induction groups as [|a l IH]; intros Hnd Hg Hg' Hn.
  - by apply elem_of_nil in Hg.
  - rewrite fmap_cons in Hnd. apply NoDup_cons in Hnd as [Ha Hnd].
    apply elem_of_cons in Hg as [->|Hg]; apply elem_of_cons in Hg' as [->|Hg'].
    + done.
    + exfalso. apply Ha. rewrite Hn. by apply list_elem_of_fmap_2.
    + exfalso. apply Ha. rewrite <- Hn. by apply list_elem_of_fmap_2.
    + by apply IH.
Qed.

Lemma dangling_unknown (g : Group.t) :
  distinct_names groups → g ∈ groups → dangling groups g →
  ¬ Known groups (Group.name_ g).
Proof.
  intros Hnd Hg (s & Hs & Hnone) Hk.
  inversion Hk as [g' Hg' Hsubs Hn].
  assert (g' = g) as -> by (by apply distinct_names_inj).
  pose proof (Known_named s (Hsubs s Hs)) as Hnamed.
  apply list_elem_of_fmap in Hnamed as (g'' & Heq & Hg'').
  by apply (Hnone g'').
Qed.

(** With distinct names, what a known name includes is reached by a
    finite descent. *)
Lemma Known_Acc (n : string) :
  distinct_names groups → Known groups n →
  Acc (λ b a, includes groups a b) n.
Proof.
  intros Hnd Hk. induction Hk as [g Hg _ IH].
  constructor. intros b (g' & Hg' & Hn & Hb).
  assert (g' = g) as -> by (by apply distinct_names_inj).
  by apply IH.
Qed.

Lemma clos_trans_flip (a b : string) :
  clos_trans string (includes groups) a b →
  clos_trans string (λ b a, includes groups a b) b a.
Proof.
  induction 1 as [x y H|x y z _ IH1 _ IH2].
  - by apply t_step.
  - by apply t_trans with y.
Qed.

Lemma Acc_no_loop {A : Type} (R : A → A → Prop) (x : A) :
  Acc R x → ¬ R x x.
Proof. induction 1 as [x _ IH]. intros Hx. exact (IH x Hx Hx). Qed.

Lemma on_cycle_unknown (g : Group.t) :
  distinct_names groups → on_cycle groups g →
  ¬ Known groups (Group.name_ g).
Proof.
  intros Hnd Hcycle Hk.
  apply (Acc_no_loop (clos_trans string (λ b a, includes groups a b))
           (Group.name_ g)).
  - apply Acc_clos_trans. by apply Known_Acc.
  - by apply clos_trans_flip.
Qed.

(** What lines 224 to 264 compute. *)
Lemma resolveGroups_filter (log : list Diagnostic) :
  ∃ known : gset string,
    check_subgroups (passes groups) groups ∅ = Some known
    ∧ (∀ n, n ∈ known ↔ Known groups n)
    ∧ resolveGroups groups log
      = (filter (λ g, Group.name_ g ∈ known) groups,
         log ++ (unsatisfied <$> filter (λ g, Group.name_ g ∉ known) groups)).
Proof.
  destruct check_subgroups_known as (known & Hrun & Hknown).
  exists known. unfold resolveGroups. rewrite Hrun.
  rewrite keep_valid_filter by (intros n Hn; by apply Hknown).
  done.
Qed.

(** C3 (amended).  The subgroup check ends with the least set of names
    closed under the marking rule.  A group survives exactly when its
    name is in that set, surviving groups keep their document order,
    and one error is reported for every removed group.  When the names
    of the groups are pairwise distinct, every group on a direct or
    transitive subgroup cycle and every group listing a subgroup name
    that no group carries is removed and reported. *)
Theorem subgroup_check_keeps_known (log : list Diagnostic) :
  ∃ known : gset string,
    check_subgroups (passes groups) groups ∅ = Some known
    ∧ (∀ n, n ∈ known ↔ Known groups n)
    ∧ fst (resolveGroups groups log)
      = filter (λ g, Group.name_ g ∈ known) groups
    ∧ snd (resolveGroups groups log)
      = log ++ (unsatisfied <$> filter (λ g, Group.name_ g ∉ known) groups)
    ∧ (∀ g, g ∈ groups →
         (g ∈ fst (resolveGroups groups log) ↔ Known groups (Group.name_ g))
         ∧ (¬ Known groups (Group.name_ g) →
            unsatisfied g ∈ snd (resolveGroups groups log)))
    ∧ (distinct_names groups →
       ∀ g, g ∈ groups → on_cycle groups g ∨ dangling groups g →
            (g ∉ fst (resolveGroups groups log))
            ∧ unsatisfied g ∈ snd (resolveGroups groups log)).
Proof.
  destruct (resolveGroups_filter log) as (known & Hrun & Hknown & ->).
  exists known. cbn [fst snd].
  assert (Hone : ∀ g, g ∈ groups →
            (g ∈ filter (λ g, Group.name_ g ∈ known) groups
             ↔ Known groups (Group.name_ g))
            ∧ (¬ Known groups (Group.name_ g) →
               unsatisfied g
               ∈ log ++ (unsatisfied <$>
                           filter (λ g, Group.name_ g ∉ known) groups))).
  { intros g Hg. split.
    - rewrite list_elem_of_filter, Hknown. tauto.
    - intros Hn. apply elem_of_app. right.
      apply list_elem_of_fmap_2, list_elem_of_filter.
      split; [|done]. by rewrite Hknown. }
  split; [done|]. split; [done|]. split; [done|]. split; [done|].
  split; [exact Hone|].
  intros Hnd g Hg Hbad.
  assert (Hunknown : ¬ Known groups (Group.name_ g)).
  { destruct Hbad; [by apply on_cycle_unknown|by apply dangling_unknown]. }
  destruct (Hone g Hg) as [Hiff Herr].
  split; [|by apply Herr]. intros Hin. by apply Hunknown, Hiff.
Qed.

End SubgroupCheck.

(** *** Whole loads *)

Section Loads.

Context {D : Type}.
Variable lexical_cast : string → option D.
Variable urdf_model : ModelInterface.
Variable Parse : string → TiXmlDocument.
Variable open_file : string → option string.

Implicit Types (m : Model D) (log : list Diagnostic).

Local Ltac split_pairs :=
  repeat match goal with
    | |- context [let (_, _) := ?e in _] => destruct e
    end.

(** The loaders that run after the groups are resolved leave the
    group sequence alone. *)
Lemma loadVirtualJoints_groups x (st : Model D * list Diagnostic) :
  groups_ (fst (loadVirtualJoints urdf_model x st)) = groups_ (fst st).
Proof. destruct st. unfold loadVirtualJoints. by split_pairs. Qed.

Lemma loadVirtualJoints_virtual_joints x m log :
  virtual_joints_ (fst (loadVirtualJoints urdf_model x (m, log)))
  = fst (fold_left (λ st vj_xml, loadVirtualJoint urdf_model vj_xml st)
           (ChildElements "virtual_joint" (child_nodes x))
           (virtual_joints_ m, log)).
Proof. unfold loadVirtualJoints. by split_pairs. Qed.

Lemma loadGroupStates_groups x (st : Model D * list Diagnostic) :
  groups_ (fst (loadGroupStates lexical_cast urdf_model x st))
  = groups_ (fst st).
Proof. destruct st. unfold loadGroupStates. by split_pairs. Qed.

Lemma loadEndEffectors_groups x (st : Model D * list Diagnostic) :
  groups_ (fst (loadEndEffectors urdf_model x st)) = groups_ (fst st).
Proof. destruct st. unfold loadEndEffectors. by split_pairs. Qed.

Lemma loadVisualSensors_groups x (st : Model D * list Diagnostic) :
  groups_ (fst (loadVisualSensors lexical_cast x st)) = groups_ (fst st).
Proof. destruct st. unfold loadVisualSensors. by split_pairs. Qed.

Lemma loadDisabledCollisions_groups x (st : Model D * list Diagnostic) :
  groups_ (fst (loadDisabledCollisions urdf_model x st)) = groups_ (fst st).
Proof. destruct st. unfold loadDisabledCollisions. by split_pairs. Qed.

Lemma loadGroups_groups x m log :
  groups_ (fst (loadGroups (D:=D) urdf_model x (m, log)))
  = fst (resolveGroups
           (fst (parseGroups urdf_model (virtual_joints_ m) x (groups_ m, log)))
           (snd (parseGroups urdf_model (virtual_joints_ m) x (groups_ m, log)))).
Proof.
  unfold loadGroups.
  destruct (parseGroups urdf_model (virtual_joints_ m) x (groups_ m, log))
    as [groups log'].
  cbn [fst snd]. by destruct (resolveGroups groups log').
Qed.

(** The parsing loop appends one group per named [group] element. *)
Lemma loadGroup_name virtual_joints (e : TiXmlElement)
    (groups : list Group.t) log :
  Group.name_ <$> fst (loadGroup urdf_model virtual_joints e (groups, log))
  = (Group.name_ <$> groups) ++ (trim <$> omap (λ e, Attribute e "name") [e]).
Proof.
  unfold loadGroup. simpl.
  destruct (Attribute e "name") as [gname|]; simpl.
  - split_pairs. cbn [fst]. by rewrite fmap_app.
  - by rewrite app_nil_r.
Qed.

Lemma parse_fold_names virtual_joints (l : list TiXmlElement)
    (st : list Group.t * list Diagnostic) :
  Group.name_ <$>
    fst (fold_left (λ st x, loadGroup urdf_model virtual_joints x st) l st)
  = (Group.name_ <$> fst st) ++ (trim <$> omap (λ e, Attribute e "name") l).
Proof.
  revert st. induction l as [|e l IH]; intros [groups log].
  - simpl. by rewrite app_nil_r.
  - cbn [fold_left]. rewrite IH.
    destruct (loadGroup urdf_model virtual_joints e (groups, log))
      as [groups' log'] eqn:Hstep.
    pose proof (loadGroup_name virtual_joints e groups log) as Hn.
    rewrite Hstep in Hn. cbn [fst] in *. rewrite Hn.
    rewrite <- app_assoc. f_equal.
    change (e :: l) with ([e] ++ l). by rewrite omap_app, fmap_app.
Qed.

Lemma initXml_groups_names m (robot_xml : TiXmlElement) :
  Group.name_ <$>
    groups_ (loaded (initXml lexical_cast urdf_model m (Some robot_xml)))
  `sublist_of` declared_group_names robot_xml.
Proof.
  unfold initXml, loaded.
  destruct (String.eqb (ValueStr robot_xml) "robot"); cbn [negb fst snd].
  - rewrite loadDisabledCollisions_groups, loadVisualSensors_groups,
      loadEndEffectors_groups, loadGroupStates_groups.
    match goal with
    | |- context [loadVirtualJoints urdf_model robot_xml ?st] =>
        pose proof (loadVirtualJoints_groups robot_xml st) as Hvj;
        destruct (loadVirtualJoints urdf_model robot_xml st) as [m1 log1]
    end.
    rewrite loadGroups_groups.
    destruct (resolveGroups_filter
                (fst (parseGroups urdf_model (virtual_joints_ m1) robot_xml
                        (groups_ m1, log1)))
                (snd (parseGroups urdf_model (virtual_joints_ m1) robot_xml
                        (groups_ m1, log1))))
      as (known & _ & _ & ->).
    cbn [fst].
    etrans; [apply fmap_sublist, sublist_filter|].
    unfold parseGroups. rewrite parse_fold_names. cbn [fst] in *.
    rewrite Hvj.
    destruct (Attribute robot_xml "name") as [nm|]; [destruct (negb _)|]; done.
  - apply sublist_nil_l.
Qed.

(** **** Messages are only ever added *)

Lemma fold_log_grows {A E : Type}
    (f : A * list Diagnostic → E → A * list Diagnostic) :
  (∀ st e, snd st `prefix_of` snd (f st e)) →
  ∀ l st, snd st `prefix_of` snd (fold_left f l st).
Proof.
  intros Hf l. induction l as [|e l IH]; intros st; simpl; [done|].
  etrans; [apply Hf|apply IH].
Qed.

Local Ltac step_log_grows :=
  unfold report; repeat case_match; simplify_eq; cbn [fst snd];
  try done; try (by apply prefix_app_r);
  try (by do 2 apply prefix_app_r).

Lemma loadVirtualJoint_log e (st : list VirtualJoint.t * list Diagnostic) :
  snd st `prefix_of` snd (loadVirtualJoint urdf_model e st).
Proof. destruct st. unfold loadVirtualJoint. step_log_grows. Qed.

Lemma loadGroupLink_log gname e (st : list string * list Diagnostic) :
  snd st `prefix_of` snd (loadGroupLink urdf_model gname e st).
Proof. destruct st. unfold loadGroupLink. step_log_grows. Qed.

Lemma loadGroupJoint_log vjs gname e (st : list string * list Diagnostic) :
  snd st `prefix_of` snd (loadGroupJoint urdf_model vjs gname e st).
Proof. destruct st. unfold loadGroupJoint. step_log_grows. Qed.

Lemma loadGroupChain_log gname e
    (st : list (string * string) * list Diagnostic) :
  snd st `prefix_of` snd (loadGroupChain urdf_model gname e st).
Proof. destruct st. unfold loadGroupChain. step_log_grows. Qed.

Lemma loadSubgroup_log e (st : list string * list Diagnostic) :
  snd st `prefix_of` snd (loadSubgroup e st).
Proof. destruct st. unfold loadSubgroup. step_log_grows. Qed.

Lemma loadGroup_log vjs e (st : list Group.t * list Diagnostic) :
  snd st `prefix_of` snd (loadGroup urdf_model vjs e st).
Proof.
  destruct st as [groups log]. unfold loadGroup.
  destruct (Attribute e "name") as [gname|]; [|by apply prefix_app_r].
  pose proof (fold_log_grows _ (λ st x, loadGroupLink_log gname x st)
                (ChildElements "link" (child_nodes e)) ([], log)) as H1.
  destruct (fold_left _ (ChildElements "link" _) _) as [links log1].
  pose proof (fold_log_grows _ (λ st x, loadGroupJoint_log vjs gname x st)
                (ChildElements "joint" (child_nodes e)) ([], log1)) as H2.
  destruct (fold_left _ (ChildElements "joint" _) _) as [joints log2].
  pose proof (fold_log_grows _ (λ st x, loadGroupChain_log gname x st)
                (ChildElements "chain" (child_nodes e)) ([], log2)) as H3.
  destruct (fold_left _ (ChildElements "chain" _) _) as [chains log3].
  pose proof (fold_log_grows _ (λ st x, loadSubgroup_log x st)
                (ChildElements "group" (child_nodes e)) ([], log3)) as H4.
  destruct (fold_left _ (ChildElements "group" _) _) as [subgroups log4].
  cbn [fst snd] in *.
  assert (log `prefix_of` log4) by (by repeat (etrans; [eassumption|])).
  destruct (_ && _); [by apply prefix_app_r|done].
Qed.

Lemma resolveGroups_log (groups : list Group.t) log :
  log `prefix_of` snd (resolveGroups groups log).
Proof.
  destruct (resolveGroups_filter groups log) as (known & _ & _ & ->).
  by apply prefix_app_r.
Qed.

Lemma loadJointValue_log vjs sname e
    (st : gmap string (list D) * list Diagnostic) :
  snd st `prefix_of` snd (loadJointValue lexical_cast urdf_model vjs sname e st).
Proof. destruct st. unfold loadJointValue. step_log_grows. Qed.

Lemma loadGroupState_log groups vjs e
    (st : list (GroupState.t D) * list Diagnostic) :
  snd st `prefix_of`
    snd (loadGroupState lexical_cast urdf_model groups vjs e st).
Proof.
  destruct st as [states log]. unfold loadGroupState.
  destruct (Attribute e "name") as [sname|]; [|by apply prefix_app_r].
  destruct (Attribute e "group") as [gname|]; [|by apply prefix_app_r].
  destruct (group_known groups (trim gname)); [|by apply prefix_app_r].
  pose proof (fold_log_grows _ (λ st x, loadJointValue_log vjs sname x st)
                (ChildElements "joint" (child_nodes e)) (∅, log)) as H1.
  by destruct (fold_left _ _ _).
Qed.

Lemma loadEndEffector_log groups e
    (st : list EndEffector.t * list Diagnostic) :
  snd st `prefix_of` snd (loadEndEffector urdf_model groups e st).
Proof. destruct st. unfold loadEndEffector. step_log_grows. Qed.

Lemma loadVisualSensor_log e (st : list (VisualSensor.t D) * list Diagnostic) :
  snd st `prefix_of` snd (loadVisualSensor lexical_cast e st).
Proof. destruct st. unfold loadVisualSensor. step_log_grows. Qed.

Lemma loadDisabledCollision_log e
    (st : list (string * string) * list Diagnostic) :
  snd st `prefix_of` snd (loadDisabledCollision urdf_model e st).
Proof. destruct st. unfold loadDisabledCollision. step_log_grows. Qed.

Lemma loadVirtualJoints_log x (st : Model D * list Diagnostic) :
  snd st `prefix_of` snd (loadVirtualJoints urdf_model x st).
Proof.
  destruct st as [m log]. unfold loadVirtualJoints.
  pose proof (fold_log_grows _ (λ st e, loadVirtualJoint_log e st)
                (ChildElements "virtual_joint" (child_nodes x))
                (virtual_joints_ m, log)) as H1.
  by destruct (fold_left _ _ _).
Qed.

Lemma loadGroups_log x (st : Model D * list Diagnostic) :
  snd st `prefix_of` snd (loadGroups urdf_model x st).
Proof.
  destruct st as [m log]. unfold loadGroups, parseGroups.
  pose proof (fold_log_grows _ (λ st e, loadGroup_log (virtual_joints_ m) e st)
                (ChildElements "group" (child_nodes x)) (groups_ m, log)) as H1.
  destruct (fold_left _ _ _) as [groups log1].
  pose proof (resolveGroups_log groups log1) as H2.
  destruct (resolveGroups groups log1) as [groups' log2].
  cbn [fst snd] in *. by etrans.
Qed.

Lemma loadGroupStates_log x (st : Model D * list Diagnostic) :
  snd st `prefix_of` snd (loadGroupStates lexical_cast urdf_model x st).
Proof.
  destruct st as [m log]. unfold loadGroupStates.
  pose proof (fold_log_grows _
                (λ st e, loadGroupState_log (groups_ m) (virtual_joints_ m) e st)
                (ChildElements "group_state" (child_nodes x))
                (group_states_ m, log)) as H1.
  by destruct (fold_left _ _ _).
Qed.

Lemma loadEndEffectors_log x (st : Model D * list Diagnostic) :
  snd st `prefix_of` snd (loadEndEffectors urdf_model x st).
Proof.
  destruct st as [m log]. unfold loadEndEffectors.
  pose proof (fold_log_grows _ (λ st e, loadEndEffector_log (groups_ m) e st)
                (ChildElements "end_effector" (child_nodes x))
                (end_effectors_ m, log)) as H1.
  by destruct (fold_left _ _ _).
Qed.

Lemma loadVisualSensors_log x (st : Model D * list Diagnostic) :
  snd st `prefix_of` snd (loadVisualSensors lexical_cast x st).
Proof.
  destruct st as [m log]. unfold loadVisualSensors.
  pose proof (fold_log_grows _ (λ st e, loadVisualSensor_log e st)
                (ChildElements "visual_sensor" (child_nodes x))
                (visual_sensors_ m, log)) as H1.
  by destruct (fold_left _ _ _).
Qed.

Lemma loadDisabledCollisions_log x (st : Model D * list Diagnostic) :
  snd st `prefix_of` snd (loadDisabledCollisions urdf_model x st).
Proof.
  destruct st as [m log]. unfold loadDisabledCollisions.
  pose proof (fold_log_grows _ (λ st e, loadDisabledCollision_log e st)
                (ChildElements "disable_collisions" (child_nodes x))
                (disabled_collisions_ m, log)) as H1.
  by destruct (fold_left _ _ _).
Qed.

(** What the six loaders report comes after what was reported for the
    name of the robot. *)
Lemma loaders_log x (st : Model D * list Diagnostic) :
  snd st `prefix_of`
    snd (loadDisabledCollisions urdf_model x
           (loadVisualSensors lexical_cast x
              (loadEndEffectors urdf_model x
                 (loadGroupStates lexical_cast urdf_model x
                    (loadGroups urdf_model x
                       (loadVirtualJoints urdf_model x st)))))).
Proof.
  etrans; [apply loadVirtualJoints_log|].
  etrans; [apply loadGroups_log|].
  etrans; [apply loadGroupStates_log|].
  etrans; [apply loadEndEffectors_log|].
  etrans; [apply loadVisualSensors_log|].
  apply loadDisabledCollisions_log.
Qed.

(** **** The result of a load *)

Lemma FirstChildElement_tag (tag : string) (l : list TiXmlElement)
    (e : TiXmlElement) :
  FirstChildElement tag l = Some e → ValueStr e = tag.
Proof.
  unfold FirstChildElement, ChildElements.
  induction l as [|a l IH]; simpl; [done|].
  destruct (String.eqb_spec (ValueStr a) tag) as [Heq|Hne]; simpl.
  - by intros [= <-].
  - exact IH.
Qed.

Lemma initXml_succeeds m (e : TiXmlElement) :
  ValueStr e = "robot" →
  succeeded (initXml lexical_cast urdf_model m (Some e)) = true.
Proof. intros He. unfold initXml, succeeded. by rewrite He. Qed.

Lemma initXml_fails m (e : TiXmlElement) :
  ValueStr e ≠ "robot" →
  initXml lexical_cast urdf_model m (Some e) = (false, clear m, [no_robot]).
Proof.
  intros He. unfold initXml.
  by destruct (String.eqb_spec (ValueStr e) "robot").
Qed.

(** A load does not look at what the model held before. *)
Lemma initXml_fresh m m' (robot_xml : option TiXmlElement) :
  initXml lexical_cast urdf_model m robot_xml
  = initXml lexical_cast urdf_model m' robot_xml.
Proof. reflexivity. Qed.

Lemma initXmlDocument_result m (xml : option TiXmlDocument) :
  (∃ e, xml ≫= (λ doc, FirstChildElement "robot" (top_level doc)) = Some e
        ∧ ValueStr e = "robot"
        ∧ initXmlDocument lexical_cast urdf_model m xml
          = initXml lexical_cast urdf_model m (Some e))
  ∨ (xml ≫= (λ doc, FirstChildElement "robot" (top_level doc)) = None
     ∧ initXmlDocument lexical_cast urdf_model m xml = (false, m, [no_robot])).
Proof.
  unfold initXmlDocument. destruct xml as [doc|]; simpl; [|by right].
  destruct (FirstChildElement "robot" (top_level doc)) as [e|] eqn:He;
    [left|by right].
  exists e. split; [done|]. split; [|done].
  by apply FirstChildElement_tag in He.
Qed.

(** C4 (amended).  The names of the groups a load leaves in the model
    are, in document order, among the trimmed names of the group
    elements of the document; they are pairwise distinct when those
    are.  (The loader does not compare the names of groups.) *)
Theorem distinct_declared_names_stay_distinct m (robot_xml : TiXmlElement) :
  Group.name_ <$>
    groups_ (loaded (initXml lexical_cast urdf_model m (Some robot_xml)))
  `sublist_of` declared_group_names robot_xml
  ∧ (NoDup (declared_group_names robot_xml) →
     distinct_names
       (groups_ (loaded (initXml lexical_cast urdf_model m (Some robot_xml))))).
Proof.
  split; [apply initXml_groups_names|].
  intros Hnd. unfold distinct_names.
  eapply sublist_NoDup; [exact Hnd|apply initXml_groups_names].
Qed.

(** The result of the four entry points, and the two messages about
    the name of the robot. *)
Lemma load_result_cases m :
  (∀ robot_xml,
     succeeded (initXml lexical_cast urdf_model m robot_xml) = false
     ↔ robot_xml = None
       ∨ ∃ e, robot_xml = Some e ∧ ValueStr e ≠ "robot")
  ∧ (∀ xml,
       succeeded (initXmlDocument lexical_cast urdf_model m xml) = false
       ↔ xml ≫= (λ doc, FirstChildElement "robot" (top_level doc)) = None)
  ∧ (∀ xmlstring,
       succeeded (initString lexical_cast urdf_model Parse m xmlstring) = false
       ↔ FirstChildElement "robot" (top_level (Parse xmlstring)) = None)
  ∧ (∀ filename,
       succeeded (initFile lexical_cast urdf_model Parse open_file m filename)
       = false
       ↔ open_file filename = None
         ∨ ∃ contents,
             open_file filename = Some contents
             ∧ FirstChildElement "robot"
                 (top_level (Parse (read_lines contents))) = None)
  ∧ (∀ e, ValueStr e = "robot" → Attribute e "name" = None →
          succeeded (initXml lexical_cast urdf_model m (Some e)) = true
          ∧ ROS_ERROR "No name given for the robot." []
            ∈ reported (initXml lexical_cast urdf_model m (Some e)))
  ∧ (∀ e name, ValueStr e = "robot" → Attribute e "name" = Some name →
          trim name ≠ getName urdf_model →
          succeeded (initXml lexical_cast urdf_model m (Some e)) = true
          ∧ ROS_ERROR "Semantic description is not specified for the same robot as the URDF" []
            ∈ reported (initXml lexical_cast urdf_model m (Some e))).
Proof.
  assert (Hdoc : ∀ xml,
            succeeded (initXmlDocument lexical_cast urdf_model m xml) = false
            ↔ xml ≫= (λ doc, FirstChildElement "robot" (top_level doc)) = None).
  { intros xml.
    destruct (initXmlDocument_result m xml) as [(e & -> & He & ->)|[-> ->]].
    - rewrite initXml_succeeds by done. split; discriminate.
    - done. }
  split; [|split; [exact Hdoc|split; [|split; [|split]]]].
  - intros [e|].
    + destruct (decide (ValueStr e = "robot")) as [He|He].
      * rewrite initXml_succeeds by done. split; [done|].
        intros [?|(e' & [= <-] & ?)]; done.
      * rewrite initXml_fails by done. split; [|done].
        intros _. right. by exists e.
    + split; [by left|done].
  - intros xmlstring. unfold initString. by rewrite Hdoc.
  - intros filename. unfold initFile.
    destruct (open_file filename) as [contents|].
    + unfold initString. rewrite Hdoc. simpl. split.
      * intros H. right. by exists contents.
      * intros [?|(c & [= <-] & ?)]; done.
    + split; [by left|done].
  - intros e He Hname. split; [by apply initXml_succeeds|].
    unfold initXml, reported. rewrite He, Hname. cbn [String.eqb negb snd].
    simpl String.eqb. cbn [negb snd].
    eapply elem_of_prefix; [|apply loaders_log]. by left.
  - intros e name He Hname Hdiff. split; [by apply initXml_succeeds|].
    unfold initXml, reported. rewrite He, Hname.
    simpl String.eqb. cbn [negb snd name_].
    destruct (String.eqb_spec (trim name) (getName urdf_model)); [done|].
    eapply elem_of_prefix; [|apply loaders_log]. by left.
Qed.

(** C9.  Loading a document that loads with success a second time into
    the same model gives the model of the single load, through each of
    the entry points. *)
Theorem reload_is_idempotent m :
  (∀ robot_xml,
     succeeded (initXml lexical_cast urdf_model m robot_xml) = true →
     loaded (initXml lexical_cast urdf_model
               (loaded (initXml lexical_cast urdf_model m robot_xml))
               robot_xml)
     = loaded (initXml lexical_cast urdf_model m robot_xml))
  ∧ (∀ xml,
       succeeded (initXmlDocument lexical_cast urdf_model m xml) = true →
       loaded (initXmlDocument lexical_cast urdf_model
                 (loaded (initXmlDocument lexical_cast urdf_model m xml)) xml)
       = loaded (initXmlDocument lexical_cast urdf_model m xml))
  ∧ (∀ xmlstring,
       succeeded (initString lexical_cast urdf_model Parse m xmlstring) = true →
       loaded (initString lexical_cast urdf_model Parse
                 (loaded (initString lexical_cast urdf_model Parse m xmlstring))
                 xmlstring)
       = loaded (initString lexical_cast urdf_model Parse m xmlstring))
  ∧ (∀ filename,
       succeeded (initFile lexical_cast urdf_model Parse open_file m filename)
       = true →
       loaded (initFile lexical_cast urdf_model Parse open_file
                 (loaded (initFile lexical_cast urdf_model Parse open_file
                            m filename))
                 filename)
       = loaded (initFile lexical_cast urdf_model Parse open_file m filename)).
Proof.
  assert (Hdoc : ∀ m' xml,
            succeeded (initXmlDocument lexical_cast urdf_model m xml) = true →
            initXmlDocument lexical_cast urdf_model m' xml
            = initXmlDocument lexical_cast urdf_model m xml).
  { intros m' xml.
    destruct (initXmlDocument_result m xml) as [(e & Hroot & He & ->)|[_ ->]];
      [|discriminate].
    intros _.
    destruct (initXmlDocument_result m' xml) as [(e' & Hroot' & _ & ->)|[Hno _]];
      [|congruence].
    rewrite Hroot in Hroot'. injection Hroot' as <-. apply initXml_fresh. }
  split; [|split; [|split]].
  - intros robot_xml _. by rewrite (initXml_fresh _ m).
  - intros xml Hok. by rewrite Hdoc.
  - intros xmlstring Hok. unfold initString in *. by rewrite Hdoc.
  - intros filename. unfold initFile.
    destruct (open_file filename) as [contents|]; [|discriminate].
    intros Hok. unfold initString in *. by rewrite Hdoc.
Qed.

End Loads.

(** ** The loader on concrete documents *)

(** C1, as stated, fails: the value list "0.1 abc 0.3" is stored as
    [0.1], the token after the one that is not a number is not read,
    whereas skipping only the bad token would give [0.1; 0.3]. *)
Lemma bad_token_ends_value_list :
  ∃ gs : GroupState.t Q,
    group_states_
      (loaded (initXml decimal_cast arm_urdf empty_model (Some pose_doc)))
    = [gs]
    ∧ GroupState.joint_values_ gs !!! "wrist_joint" = [1 # 10]%Q
    ∧ cast_each decimal_cast (tokens "0.1 abc 0.3") = [1 # 10; 3 # 10]%Q
    ∧ GroupState.joint_values_ gs !!! "wrist_joint"
      ≠ cast_each decimal_cast (tokens "0.1 abc 0.3").
Proof.
  eexists. split; [vm_compute; reflexivity|].
  split; [vm_compute; reflexivity|].
  split; [vm_compute; reflexivity|].
  vm_compute. discriminate.
Qed.

Lemma joint_values_stop_at_first_bad_token_witness :
  (decimal_cast "" = None
   ∧ Attribute pose_joint "name" = Some "wrist_joint"
   ∧ Attribute pose_joint "value" = Some "0.1 abc 0.3"
   ∧ joint_missing arm_urdf [] (trim "wrist_joint") = false)
  ∧ let r := loadJointValue decimal_cast arm_urdf [] "up" pose_joint (∅, []) in
    fst r !!! trim "wrist_joint"
      = (∅ : gmap string (list Q)) !!! trim "wrist_joint"
        ++ cast_prefix decimal_cast (tokens "0.1 abc 0.3")
    ∧ (∀ k, k ≠ trim "wrist_joint" → fst r !! k = (∅ : gmap string (list Q)) !! k)
    ∧ (all_cast decimal_cast (tokens "0.1 abc 0.3") →
       fst r !!! trim "wrist_joint"
         = (∅ : gmap string (list Q)) !!! trim "wrist_joint"
           ++ cast_each decimal_cast (tokens "0.1 abc 0.3"))
    ∧ (¬ all_cast decimal_cast (tokens "0.1 abc 0.3") →
       ROS_ERROR "Unable to parse joint value '%s'" ["0.1 abc 0.3"] ∈ snd r).
Proof.
  split; [repeat split; reflexivity|].
  apply (joint_values_stop_at_first_bad_token decimal_cast arm_urdf [] "up"
           pose_joint "wrist_joint" "0.1 abc 0.3" ∅ []); reflexivity.
Defined.

Lemma chain_accepted_iff_connected_witness :
  (Attribute arm_chain "base_link" = Some "root"
   ∧ Attribute arm_chain "tip_link" = Some "hand"
   ∧ getLink arm_urdf (trim "root") = Some root_link
   ∧ getLink arm_urdf (trim "hand") = Some hand_link)
  ∧ connected (trim "root") root_link hand_link
  ∧ loadGroupChain arm_urdf "arm" arm_chain ([], [])
    = ([(trim "root", trim "hand")], []).
Proof.
  split; [repeat split; reflexivity|].
  assert (Hc : connected (trim "root") root_link hand_link).
  { left. vm_compute. do 2 right. left. }
  split; [exact Hc|].
  apply (proj1 (proj2 (chain_accepted_iff_connected arm_urdf "arm" arm_chain
                         "root" "hand" root_link hand_link [] []
                         eq_refl eq_refl eq_refl eq_refl))).
  exact Hc.
Defined.

(** A chain between two trees of the kinematic model is dropped. *)
Example chain_across_trees_rejected :
  loadGroupChain arm_and_dock_urdf "arm" dock_chain ([], [])
  = ([], [ROS_ERROR "Links '%s' and '%s' do not form a chain. Not included in group '%s'" [" dock"; "hand "; "arm"]]).
Proof. vm_compute. reflexivity. Qed.

Lemma arm_single_rooted : single_rooted arm_urdf.
Proof.
  exists "root". intros n l. unfold arm_urdf, getLink, lookup_link.
  cbn [List.find name root_link wrist_link hand_link].
  repeat (destruct (String.eqb _ n); [by intros [= <-]|]).
  discriminate.
Defined.

Lemma single_rooted_chain_accepted_witness :
  single_rooted arm_urdf
  ∧ loadGroupChain arm_urdf "arm" arm_chain ([], [])
    = ([(trim "root", trim "hand")], []).
Proof.
  split; [exact arm_single_rooted|].
  apply (single_rooted_chain_accepted arm_urdf "arm" arm_chain "root" "hand"
           [] [] arm_single_rooted eq_refl eq_refl);
    vm_compute; eauto.
Defined.

(** C3, as stated, fails when two groups carry one name: the second
    group of [twin_doc] lists the subgroup [X], which no group carries,
    and the second group of [self_twin_doc] lists itself; both stay in
    the group list, and nothing is reported. *)
Lemma twin_groups_survive :
  fst (parseGroups arm_urdf [] twin_doc ([], [])) = [plain_A; A_with_X]
  ∧ dangling [plain_A; A_with_X] A_with_X
  ∧ resolveGroups [plain_A; A_with_X] [] = ([plain_A; A_with_X], [])
  ∧ fst (parseGroups arm_urdf [] self_twin_doc ([], [])) = [plain_A; A_with_A]
  ∧ on_cycle [plain_A; A_with_A] A_with_A
  ∧ resolveGroups [plain_A; A_with_A] [] = ([plain_A; A_with_A], []).
Proof.
  split; [vm_compute; reflexivity|]. split.
  { exists "X". split; [by left|].
    intros g' [->|[->|H]%elem_of_cons]%elem_of_cons; [done|done|].
    by apply elem_of_nil in H. }
  split; [vm_compute; reflexivity|].
  split; [vm_compute; reflexivity|]. split.
  { apply t_step. exists A_with_A. split; [by right; left|].
    split; [done|by left]. }
  vm_compute. reflexivity.
Qed.

Lemma subgroup_check_keeps_known_witness :
  distinct_names cycle_groups
  ∧ ∃ known : gset string,
      check_subgroups (passes cycle_groups) cycle_groups ∅ = Some known
      ∧ (∀ n, n ∈ known ↔ Known cycle_groups n)
      ∧ fst (resolveGroups cycle_groups [])
        = filter (λ g, Group.name_ g ∈ known) cycle_groups
      ∧ snd (resolveGroups cycle_groups [])
        = [] ++ (unsatisfied <$>
                   filter (λ g, Group.name_ g ∉ known) cycle_groups)
      ∧ (∀ g, g ∈ cycle_groups →
           (g ∈ fst (resolveGroups cycle_groups [])
            ↔ Known cycle_groups (Group.name_ g))
           ∧ (¬ Known cycle_groups (Group.name_ g) →
              unsatisfied g ∈ snd (resolveGroups cycle_groups [])))
      ∧ (distinct_names cycle_groups →
         ∀ g, g ∈ cycle_groups →
              on_cycle cycle_groups g ∨ dangling cycle_groups g →
              (g ∉ fst (resolveGroups cycle_groups []))
              ∧ unsatisfied g ∈ snd (resolveGroups cycle_groups [])).
Proof.
  split.
  - unfold distinct_names. apply (bool_decide_unpack _). vm_compute. exact I.
  - exact (subgroup_check_keeps_known cycle_groups []).
Defined.

(** The scenarios of the description on the subgroup check. *)
Example gripper_scenario :
  resolveGroups gripper_groups []
  = ([Group.mk "arm" ["wrist"] [] [] []],
     [ROS_ERROR "Group '%s' has unsatisfied subgroups" ["arm_with_gripper"]]).
Proof. vm_compute. reflexivity. Qed.

Example cycle_scenario :
  resolveGroups cycle_groups []
  = ([], [ROS_ERROR "Group '%s' has unsatisfied subgroups" ["A"];
          ROS_ERROR "Group '%s' has unsatisfied subgroups" ["B"]]).
Proof. vm_compute. reflexivity. Qed.

(** C4, as stated, fails: two group elements whose trimmed names agree
    both stay in the group list. *)
Lemma same_name_groups_both_survive :
  Group.name_ <$>
    groups_ (loaded (initXml decimal_cast arm_urdf empty_model (Some double_doc)))
  = ["A"; "A"]
  ∧ ¬ distinct_names
        (groups_ (loaded (initXml decimal_cast arm_urdf empty_model
                            (Some double_doc)))).
Proof.
  assert (Hn : Group.name_ <$>
                 groups_ (loaded (initXml decimal_cast arm_urdf empty_model
                                    (Some double_doc)))
               = ["A"; "A"]) by (vm_compute; reflexivity).
  split; [exact Hn|].
  unfold distinct_names. rewrite Hn.
  intros [Hnot _]%NoDup_cons. apply Hnot. by left.
Qed.

Lemma distinct_declared_names_stay_distinct_witness :
  NoDup (declared_group_names gripper_doc)
  ∧ distinct_names
      (groups_ (loaded (initXml decimal_cast arm_urdf used_model
                          (Some gripper_doc)))).
Proof.
  assert (Hnd : NoDup (declared_group_names gripper_doc)).
  { apply (bool_decide_unpack _). vm_compute. exact I. }
  split; [exact Hnd|].
  exact (proj2 (distinct_declared_names_stay_distinct decimal_cast arm_urdf
                  used_model gripper_doc) Hnd).
Defined.

(** C5.  The claim does not hold of the code: a load of a parsed
    document without a [robot] element, and a load of a file that cannot
    be opened, return failure before [clear] is reached, and the model
    keeps what an earlier load put into it.  The entry point on a root
    element resets the model also when it fails. *)
Theorem failed_load_keeps_prior_contents :
  initXmlDocument decimal_cast arm_urdf used_model (Some stray_doc)
  = (false, used_model, [no_robot])
  ∧ initXmlDocument decimal_cast arm_urdf used_model None
    = (false, used_model, [no_robot])
  ∧ initString decimal_cast arm_urdf sample_parse used_model "<machine/>"
    = (false, used_model, [no_robot])
  ∧ initFile decimal_cast arm_urdf sample_parse sample_disk used_model
      "missing.srdf"
    = (false, used_model,
       [ROS_ERROR "Could not open file [%s] for parsing." ["missing.srdf"]])
  ∧ used_model ≠ clear used_model
  ∧ initXml decimal_cast arm_urdf used_model None
    = (false, clear used_model, [no_robot])
  ∧ initXml decimal_cast arm_urdf used_model (Some (leaf "machine" []))
    = (false, clear used_model, [no_robot]).
Proof.
  repeat split; try reflexivity. discriminate.
Qed.

Lemma visual_sensor_all_or_nothing_witness :
  describes_sensor decimal_cast cam_sensor
    (VisualSensor.mk "cam" "hand" (15 # 10) (1 # 10) (5 # 1))%Q
  ∧ loadVisualSensor decimal_cast cam_sensor ([], [])
    = ([VisualSensor.mk "cam" "hand" (15 # 10) (1 # 10) (5 # 1)]%Q, []).
Proof.
  assert (Hd : describes_sensor decimal_cast cam_sensor
                 (VisualSensor.mk "cam" "hand" (15 # 10) (1 # 10) (5 # 1))%Q).
  { exists "cam", "hand", "1.5", "0.1", "5". repeat split; reflexivity. }
  split; [exact Hd|].
  exact (proj1 (visual_sensor_all_or_nothing decimal_cast cam_sensor [] [])
           _ Hd).
Defined.

(** A sensor whose last numeric field is not a number leaves no entry. *)
Example sensor_with_bad_range_dropped :
  loadVisualSensor decimal_cast
    (leaf "visual_sensor"
       [("name", "bad_cam"); ("frame", "hand"); ("fov_angle", "1.5");
        ("min_range", "0.1"); ("max_range", "far")]) ([], [])
  = ([], [ROS_ERROR "Unable to parse maximum range ('%s') for sensor '%s'"
            ["far"; "bad_cam"]]).
Proof. reflexivity. Qed.

Lemma virtual_joint_type_normalized_witness :
  (Attribute world_joint "name" = Some "world_joint"
   ∧ Attribute world_joint "child_link" = Some "root"
   ∧ Attribute world_joint "parent_frame" = Some "odom"
   ∧ Attribute world_joint "type" = Some " Planar "
   ∧ getLink arm_urdf (trim "root") = Some root_link
   ∧ transform tolower (trim " Planar ") ∈ joint_types)
  ∧ loadVirtualJoint arm_urdf world_joint ([], [])
    = ([VirtualJoint.mk "world_joint" "root" "odom" "planar"], []).
Proof.
  assert (Hin : transform tolower (trim " Planar ") ∈ joint_types)
    by (vm_compute; left).
  split; [repeat split; try reflexivity; exact Hin|].
  exact (proj1 (virtual_joint_type_normalized arm_urdf world_joint
                  "world_joint" "root" "odom" " Planar " root_link [] []
                  eq_refl eq_refl eq_refl eq_refl eq_refl) Hin).
Defined.

(** An unrecognised type degrades to fixed. *)
Example unknown_joint_type_becomes_fixed :
  loadVirtualJoint arm_urdf
    (leaf "virtual_joint"
       [("name", "odd_joint"); ("child_link", "root");
        ("parent_frame", "odom"); ("type", "revolute")]) ([], [])
  = ([VirtualJoint.mk "odd_joint" "root" "odom" "fixed"],
     [ROS_ERROR "Unknown type of joint: '%s'. Assuming 'fixed' instead. Other known types are 'planar' and 'floating'." ["revolute"]]).
Proof. reflexivity. Qed.

Lemma reload_is_idempotent_witness :
  succeeded (initXml decimal_cast arm_urdf used_model (Some full_doc)) = true
  ∧ loaded (initXml decimal_cast arm_urdf
              (loaded (initXml decimal_cast arm_urdf used_model (Some full_doc)))
              (Some full_doc))
    = loaded (initXml decimal_cast arm_urdf used_model (Some full_doc)).
Proof.
  split; [reflexivity|].
  apply (proj1 (reload_is_idempotent decimal_cast arm_urdf sample_parse
                  sample_disk used_model) (Some full_doc)).
  reflexivity.
Defined.

(** ** Further properties of the loader *)

(** *** Reading a file *)

Lemma take_line_split (s line rest : string) :
  take_line s = (line, Some rest) →
  s = String.append line (String newline rest)
  ∧ String.length rest < String.length s.
Proof.
  revert line. induction s as [|c s IH]; intros line; simpl; [discriminate|].
  destruct (Ascii.eqb_spec c newline) as [->|Hc].
  - intros [= <- <-]. simpl. split; [done|lia].
  - destruct (take_line s) as [line' rest'] eqn:Hs.
    intros [= <- ->]. destruct (IH line' eq_refl) as [-> Hlen].
    simpl. split; [done|lia].
Qed.

Lemma take_line_whole (s line : string) :
  take_line s = (line, None) → line = s ∧ read_lines s
  = String.append s (String newline EmptyString).
Proof.
  revert line. induction s as [|c s IH]; intros line; simpl.
  - by intros [= <-].
  - destruct (Ascii.eqb c newline); [discriminate|].
    destruct (take_line s) as [line' rest'] eqn:Hs.
    intros [= <- ->]. destruct (IH line' eq_refl) as [-> Hr].
    by rewrite Hr.
Qed.

Lemma read_lines_append (line rest : string) :
  read_lines (String.append line rest) = String.append line (read_lines rest).
Proof. induction line as [|c line IH]; simpl; [done|by rewrite IH]. Qed.

Lemma append_assoc (a b c : string) :
  String.append (String.append a b) c = String.append a (String.append b c).
Proof.
  induction a as [|x a IH]; [done|].
  change (String x (String.append (String.append a b) c)
          = String x (String.append a (String.append b c))).
  by rewrite IH.
Qed.

Lemma read_file_lines (fuel : nat) (contents xml_string : string) :
  String.length contents + 1 < fuel →
  read_file fuel (MkStream contents false false) xml_string
  = Some (String.append xml_string (read_lines contents)).
Proof.
  revert contents xml_string.
  induction fuel as [|fuel IH]; intros contents xml_string Hfuel; [lia|].
  cbn [read_file good eofbit failbit negb andb]. unfold getline.
  cbn [good eofbit failbit negb andb buffer].
  destruct contents as [|c s].
  - destruct fuel as [|fuel]; [simpl in Hfuel; lia|]. done.
  - destruct (take_line (String c s)) as [line [rest|]] eqn:Hline.
    + destruct (take_line_split _ _ _ Hline) as [Hs Hlen].
      rewrite IH by (simpl in *; lia).
      rewrite Hs, read_lines_append. simpl read_lines at 2.
      by rewrite !append_assoc.
    + destruct (take_line_whole _ _ Hline) as [-> Hr].
      destruct fuel as [|fuel]; [simpl in Hfuel; lia|].
      cbn [read_file good eofbit failbit negb andb]. by rewrite Hr.
Qed.

(** X1.  The loop of [initFile] over the lines of an opened file ends
    and hands to [initString] the text of the file followed by one
    newline, whether or not the file ends in a newline. *)
Theorem read_file_gives_contents_and_newline (contents : string) :
  read_file (S (S (String.length contents))) (MkStream contents false false)
    EmptyString
  = Some (read_lines contents)
  ∧ read_lines contents = String.append contents (String newline EmptyString).
Proof.
  split.
  - rewrite read_file_lines by lia. done.
  - induction contents as [|c s IH]; simpl; [done|by rewrite IH].
Qed.

(** *** Parsing one group *)

Section GroupParsing.

Variable urdf_model : ModelInterface.

Lemma joint_missing_known (virtual_joints : list VirtualJoint.t) (j : string) :
  joint_missing urdf_model virtual_joints j = false
  ↔ joint_known urdf_model virtual_joints j.
Proof.
  unfold joint_missing, joint_known.
  destruct (getJoint urdf_model j); [by split; [left|]|].
  rewrite negb_false_iff. split.
  - intros (vj & Hvj & Heq)%existsb_exists. right.
    apply String.eqb_eq in Heq. subst j.
    by apply list_elem_of_fmap_2, list_elem_of_In.
  - intros [?|(vj & -> & Hvj)%list_elem_of_fmap]; [done|].
    apply existsb_exists. exists vj. split; [by apply list_elem_of_In|].
    apply String.eqb_refl.
Qed.

Lemma fold_links (gname : string) (l : list TiXmlElement)
    (links : list string) (log : list Diagnostic) :
  fst (fold_left (λ st x, loadGroupLink urdf_model gname x st) l (links, log))
  = links ++ filter (λ n, is_Some (getLink urdf_model n))
               (trim <$> omap (λ c, Attribute c "name") l).
Proof.
  revert links log. induction l as [|e l IH]; intros links log.
  - simpl. by rewrite app_nil_r.
  - cbn [fold_left]. unfold loadGroupLink at 2.
    change (omap (λ c, Attribute c "name") (e :: l))
      with (match Attribute e "name" with
            | Some n => n :: omap (λ c, Attribute c "name") l
            | None => omap (λ c, Attribute c "name") l
            end).
    destruct (Attribute e "name") as [lname|]; [|apply IH].
    rewrite fmap_cons.
    destruct (getLink urdf_model (trim lname)) as [lk|] eqn:Hl.
    + rewrite IH, filter_cons_True by (by rewrite Hl).
      by rewrite <- app_assoc.
    + unfold report. rewrite IH, filter_cons_False; [done|].
      rewrite Hl. by intros [? ?].
Qed.

Lemma fold_joints (virtual_joints : list VirtualJoint.t) (gname : string)
    (l : list TiXmlElement) (joints : list string) (log : list Diagnostic) :
  fst (fold_left (λ st x, loadGroupJoint urdf_model virtual_joints gname x st)
         l (joints, log))
  = joints ++ filter (λ j, joint_missing urdf_model virtual_joints j = false)
                (trim <$> omap (λ c, Attribute c "name") l).
Proof.
  revert joints log. induction l as [|e l IH]; intros joints log.
  - simpl. by rewrite app_nil_r.
  - cbn [fold_left]. unfold loadGroupJoint at 2.
    change (omap (λ c, Attribute c "name") (e :: l))
      with (match Attribute e "name" with
            | Some n => n :: omap (λ c, Attribute c "name") l
            | None => omap (λ c, Attribute c "name") l
            end).
    destruct (Attribute e "name") as [jname|]; [|apply IH].
    rewrite fmap_cons.
    destruct (joint_missing urdf_model virtual_joints (trim jname)) eqn:Hj.
    + unfold report. rewrite IH, filter_cons_False; [done|]. by rewrite Hj.
    + rewrite IH, filter_cons_True by done. by rewrite <- app_assoc.
Qed.

Lemma fold_subgroups (l : list TiXmlElement) (subgroups : list string)
    (log : list Diagnostic) :
  fst (fold_left (λ st x, loadSubgroup x st) l (subgroups, log))
  = subgroups ++ (trim <$> omap (λ c, Attribute c "name") l).
Proof.
  revert subgroups log. induction l as [|e l IH]; intros subgroups log.
  - simpl. by rewrite app_nil_r.
  - cbn [fold_left]. unfold loadSubgroup at 2.
    change (omap (λ c, Attribute c "name") (e :: l))
      with (match Attribute e "name" with
            | Some n => n :: omap (λ c, Attribute c "name") l
            | None => omap (λ c, Attribute c "name") l
            end).
    destruct (Attribute e "name") as [sub|]; [|apply IH].
    rewrite fmap_cons, IH. by rewrite <- app_assoc.
Qed.

Lemma loadGroupChain_known (gname : string) (e : TiXmlElement)
    (chains : list (string * string)) (log : list Diagnostic) :
  Forall (chain_known urdf_model) chains →
  Forall (chain_known urdf_model)
    (fst (loadGroupChain urdf_model gname e (chains, log))).
Proof.
  intros Hc. unfold loadGroupChain.
  destruct (Attribute e "base_link") as [base|]; [|done].
  destruct (Attribute e "tip_link") as [tip|]; [|done].
  destruct (getLink urdf_model (trim base)) as [bl|] eqn:Hb; [|done].
  destruct (getLink urdf_model (trim tip)) as [tl|] eqn:Ht; [|done].
  destruct (chain_found (trim base) (Some tl) (Some bl)) eqn:Hf; [|done].
  cbn [fst]. apply Forall_app. split; [done|].
  apply Forall_singleton. exists bl, tl. cbn [fst snd].
  split; [done|]. split; [done|]. by apply chain_found_connected.
Qed.

Lemma fold_chains (gname : string) (l : list TiXmlElement)
    (st : list (string * string) * list Diagnostic) :
  Forall (chain_known urdf_model) (fst st) →
  Forall (chain_known urdf_model)
    (fst (fold_left (λ st x, loadGroupChain urdf_model gname x st) l st)).
Proof.
  revert st. induction l as [|e l IH]; intros [chains log] Hc; [done|].
  cbn [fold_left]. apply IH.
  destruct (loadGroupChain urdf_model gname e (chains, log)) eqn:Hstep.
  pose proof (loadGroupChain_known gname e chains log Hc) as H.
  by rewrite Hstep in H.
Qed.

(** What a named group element appends. *)
Lemma loadGroup_named (virtual_joints : list VirtualJoint.t)
    (e : TiXmlElement) (gname : string) (groups : list Group.t)
    (log : list Diagnostic) :
  Attribute e "name" = Some gname →
  ∃ g log',
    loadGroup urdf_model virtual_joints e (groups, log) = (groups ++ [g], log')
    ∧ Group.name_ g = trim gname
    ∧ Group.links_ g
      = filter (λ n, is_Some (getLink urdf_model n)) (child_names "link" e)
    ∧ Group.joints_ g
      = filter (λ j, joint_missing urdf_model virtual_joints j = false)
          (child_names "joint" e)
    ∧ Group.subgroups_ g = child_names "group" e
    ∧ Forall (chain_known urdf_model) (Group.chains_ g)
    ∧ (Group.links_ g = [] → Group.joints_ g = [] → Group.chains_ g = [] →
       Group.subgroups_ g = [] →
       ∃ log'', log' = log'' ++ [ROS_WARN "Group '%s' is empty." [gname]]).
Proof.
  intros Hname. unfold loadGroup. rewrite Hname.
  pose proof (fold_links gname (ChildElements "link" (child_nodes e)) [] log)
    as Hlinks.
  destruct (fold_left _ (ChildElements "link" _) _) as [links log1].
  pose proof (fold_joints virtual_joints gname
                (ChildElements "joint" (child_nodes e)) [] log1) as Hjoints.
  destruct (fold_left _ (ChildElements "joint" _) _) as [joints log2].
  pose proof (fold_chains gname (ChildElements "chain" (child_nodes e))
                ([], log2) (Forall_nil_2 _)) as Hchains.
  destruct (fold_left _ (ChildElements "chain" _) _) as [chains log3].
  pose proof (fold_subgroups (ChildElements "group" (child_nodes e)) [] log3)
    as Hsubs.
  destruct (fold_left _ (ChildElements "group" _) _) as [subgroups log4].
  cbn [fst app] in *. subst links joints subgroups.
  eexists _, _. split; [reflexivity|]. cbn [Group.name_ Group.links_
    Group.joints_ Group.chains_ Group.subgroups_].
  split; [done|]. split; [done|]. split; [done|]. split; [done|].
  split; [done|].
  intros -> -> -> ->. cbn [vector_empty andb]. by eexists.
Qed.

(** X2.  A group element with a name always adds one group, whatever is
    wrong with its children: the links and joints of the group are the
    trimmed names of its link and joint children that are known, in
    document order, a joint being known also when a virtual joint loaded
    before carries its name; its subgroups are the trimmed names of its
    group children, not checked at this point; its chains are pairs of
    related links.  A group that ends up with nothing in it is kept and
    a warning is reported.  A group element without a name adds
    nothing and is reported. *)
Theorem named_group_keeps_known_children
    (virtual_joints : list VirtualJoint.t) (e : TiXmlElement)
    (groups : list Group.t) (log : list Diagnostic) :
  let r := loadGroup urdf_model virtual_joints e (groups, log) in
  (∀ gname, Attribute e "name" = Some gname →
     ∃ g, fst r = groups ++ [g]
       ∧ Group.name_ g = trim gname
       ∧ Group.links_ g
         = filter (λ n, is_Some (getLink urdf_model n)) (child_names "link" e)
       ∧ Group.joints_ g
         = filter (λ j, joint_missing urdf_model virtual_joints j = false)
             (child_names "joint" e)
       ∧ Forall (joint_known urdf_model virtual_joints) (Group.joints_ g)
       ∧ Group.subgroups_ g = child_names "group" e
       ∧ Forall (chain_known urdf_model) (Group.chains_ g)
       ∧ (Group.links_ g = [] → Group.joints_ g = [] → Group.chains_ g = [] →
          Group.subgroups_ g = [] →
          ∃ log', snd r = log' ++ [ROS_WARN "Group '%s' is empty." [gname]]))
  ∧ (Attribute e "name" = None →
     r = (groups, log ++ [ROS_ERROR "Group name not specified" []])).
Proof.
  cbv zeta. split.
  - intros gname Hname.
    destruct (loadGroup_named virtual_joints e gname groups log Hname)
      as (g & log' & -> & Hn & Hl & Hj & Hs & Hc & Hw).
    exists g. cbn [fst snd]. repeat (split; [done|]). split.
    { rewrite Hj. apply Forall_forall. intros j [Hk _]%list_elem_of_filter.
      by apply joint_missing_known. }
    done.
  - intros Hname. unfold loadGroup. by rewrite Hname.
Qed.

End GroupParsing.

(** *** The groups that are left *)

Lemma Known_inv (groups : list Group.t) (n : string) :
  Known groups n →
  ∃ g, g ∈ groups ∧ Group.name_ g = n
       ∧ ∀ s, s ∈ Group.subgroups_ g → Known groups s.
Proof. intros [g Hg Hs]. by exists g. Qed.

Lemma Known_mono (groups groups' : list Group.t) (n : string) :
  (∀ g, g ∈ groups → g ∈ groups') → Known groups n → Known groups' n.
Proof.
  intros Hsub Hk. induction Hk as [g Hg _ IH].
  apply Known_mark; [by apply Hsub|done].
Qed.

(** Removing the groups that are not known does not change which names
    are known. *)
Lemma Known_filter (groups : list Group.t) (K : gset string) (n : string) :
  (∀ m, m ∈ K ↔ Known groups m) →
  Known (filter (λ g, Group.name_ g ∈ K) groups) n ↔ Known groups n.
Proof.
  intros HK. split.
  - apply Known_mono. by intros g [_ Hg]%list_elem_of_filter.
  - intros Hk. induction Hk as [g Hg Hsubs IH].
    apply Known_mark; [|done].
    apply list_elem_of_filter. split; [|done].
    apply HK. by apply Known_mark.
Qed.

Lemma on_cycle_mono (groups groups' : list Group.t) (g : Group.t) :
  (∀ g, g ∈ groups → g ∈ groups') → on_cycle groups g → on_cycle groups' g.
Proof.
  intros Hsub. unfold on_cycle.
  generalize (Group.name_ g) at 1 3. generalize (Group.name_ g).
  intros a b Hc. induction Hc as [x y (g0 & Hg0 & Hn & Hs)|x y z _ IH1 _ IH2].
  - apply t_step. exists g0. split; [by apply Hsub|done].
  - by apply t_trans with y.
Qed.

(** X3.  In the group list the subgroup check leaves, every name that
    occurs is the name of a left group all of whose subgroups are names
    of left groups.  When the names of the parsed groups are pairwise
    distinct, every subgroup of every left group names a left group and
    no left group is on a subgroup cycle. *)
Theorem left_groups_resolve (groups : list Group.t) (log : list Diagnostic) :
  let left := fst (resolveGroups groups log) in
  (∀ g, g ∈ left →
     ∃ g0, g0 ∈ left ∧ Group.name_ g0 = Group.name_ g
           ∧ ∀ s, s ∈ Group.subgroups_ g0 → s ∈ Group.name_ <$> left)
  ∧ (distinct_names groups →
     ∀ g, g ∈ left →
       (∀ s, s ∈ Group.subgroups_ g → s ∈ Group.name_ <$> left)
       ∧ ¬ on_cycle left g).
Proof.
  cbv zeta.
  destruct (resolveGroups_filter groups log) as (K & _ & HK & ->). cbn [fst].
  assert (Hnamed : ∀ s, Known groups s →
            s ∈ Group.name_ <$> filter (λ g, Group.name_ g ∈ K) groups).
  { intros s Hs. destruct (Known_inv groups s Hs) as (g' & Hg' & <- & _).
    apply list_elem_of_fmap_2, list_elem_of_filter. split; [|done].
    by apply HK. }
  assert (Hres : ∀ g, g ∈ filter (λ g, Group.name_ g ∈ K) groups →
            ∃ g0, g0 ∈ filter (λ g, Group.name_ g ∈ K) groups
                  ∧ Group.name_ g0 = Group.name_ g
                  ∧ ∀ s, s ∈ Group.subgroups_ g0 → Known groups s).
  { intros g [Hk Hg]%list_elem_of_filter. apply HK in Hk.
    destruct (Known_inv groups _ Hk) as (g0 & Hg0 & Hn & Hsubs).
    exists g0. split; [|done]. apply list_elem_of_filter. split; [|done].
    rewrite Hn. by apply HK. }
  split.
  - intros g Hg. destruct (Hres g Hg) as (g0 & Hg0 & Hn & Hsubs).
    exists g0. split; [done|]. split; [done|]. intros s Hs. by apply Hnamed, Hsubs.
  - intros Hnd g Hg. split.
    + destruct (Hres g Hg) as (g0 & Hg0 & Hn & Hsubs).
      apply list_elem_of_filter in Hg as [_ Hg].
      apply list_elem_of_filter in Hg0 as [_ Hg0].
      assert (g0 = g) as -> by (by apply (distinct_names_inj groups)).
      intros s Hs. by apply Hnamed, Hsubs.
    + intros Hcycle.
      apply list_elem_of_filter in Hg as [Hk Hg].
      apply (on_cycle_unknown groups g Hnd); [|by apply HK].
      eapply on_cycle_mono; [|exact Hcycle].
      by intros g' [_ Hg']%list_elem_of_filter.
Qed.

(** X4.  The subgroup check is stable: run again on the groups it left,
    it removes nothing and reports nothing. *)
Theorem subgroup_check_is_stable (groups : list Group.t)
    (log log' : list Diagnostic) :
  resolveGroups (fst (resolveGroups groups log)) log'
  = (fst (resolveGroups groups log), log').
Proof.
  destruct (resolveGroups_filter groups log) as (K & _ & HK & ->). cbn [fst].
  destruct (resolveGroups_filter (filter (λ g, Group.name_ g ∈ K) groups) log')
    as (K' & _ & HK' & ->).
  assert (Hall : ∀ g, g ∈ filter (λ g, Group.name_ g ∈ K) groups →
                      Group.name_ g ∈ K').
  { intros g [Hk Hg]%list_elem_of_filter.
    apply HK', (Known_filter groups K); [done|]. by apply HK. }
  rewrite (filter_all (λ g, Group.name_ g ∈ K')) by done.
  rewrite (filter_none (λ g, Group.name_ g ∉ K'))
    by (intros g Hg Hn; by apply Hn, Hall).
  by rewrite app_nil_r.
Qed.

(** X5.  Which groups are left does not depend on the order in which
    the groups were declared: a group may list a subgroup that is
    declared after it. *)
Theorem left_groups_up_to_order (groups groups' : list Group.t)
    (log log' : list Diagnostic) :
  groups ≡ₚ groups' →
  fst (resolveGroups groups log) ≡ₚ fst (resolveGroups groups' log').
Proof.
  intros Hperm.
  destruct (resolveGroups_filter groups log) as (K & _ & HK & ->).
  destruct (resolveGroups_filter groups' log') as (K' & _ & HK' & ->).
  cbn [fst].
  assert (K = K') as ->.
  { apply set_eq. intros n. rewrite HK, HK'. split; apply Known_mono.
    - intros g Hg. by rewrite <- Hperm.
    - intros g Hg. by rewrite Hperm. }
  by rewrite Hperm.
Qed.

(** *** Chains in either direction *)

Section ChainDirections.

Variable urdf_model : ModelInterface.

Lemma connected_common (a : string) (la lb : Link) :
  name la = a →
  connected a la lb ↔ ∃ n, n ∈ ancestors la ∧ n ∈ ancestors lb.
Proof.
  intros Hname. unfold connected. split; [|by right].
  intros [Ha|Hc]; [|done]. exists a. split; [|done].
  rewrite <- Hname. apply name_ancestor.
Qed.

(** X6.  When lookup by name returns the link of that name, a chain is
    accepted exactly when the walks from its two links up the parent
    links meet a common name; so a chain is accepted with its ends in
    one order exactly when it is accepted with its ends swapped. *)
Theorem chain_ends_can_be_swapped
    (gname : string) (e e' : TiXmlElement) (a b : string) (la lb : Link)
    (chains : list (string * string)) (log : list Diagnostic) :
  named_lookup urdf_model →
  Attribute e "base_link" = Some a → Attribute e "tip_link" = Some b →
  Attribute e' "base_link" = Some b → Attribute e' "tip_link" = Some a →
  getLink urdf_model (trim a) = Some la →
  getLink urdf_model (trim b) = Some lb →
  (fst (loadGroupChain urdf_model gname e (chains, log))
   = chains ++ [(trim a, trim b)]
   ↔ ∃ n, n ∈ ancestors la ∧ n ∈ ancestors lb)
  ∧ (fst (loadGroupChain urdf_model gname e (chains, log))
     = chains ++ [(trim a, trim b)]
     ↔ fst (loadGroupChain urdf_model gname e' (chains, log))
       = chains ++ [(trim b, trim a)]).
Proof.
  intros Hlookup Ha Hb Hb' Ha' Hla Hlb.
  assert (Hacc : ∀ x y (xml : TiXmlElement) (lx ly : Link),
            Attribute xml "base_link" = Some x →
            Attribute xml "tip_link" = Some y →
            getLink urdf_model (trim x) = Some lx →
            getLink urdf_model (trim y) = Some ly →
            fst (loadGroupChain urdf_model gname xml (chains, log))
            = chains ++ [(trim x, trim y)]
            ↔ ∃ n, n ∈ ancestors lx ∧ n ∈ ancestors ly).
  { intros x y xml lx ly Hx Hy Hlx Hly.
    rewrite (loadGroupChain_checked urdf_model gname xml x y lx ly) by done.
    rewrite <- (connected_common (trim x) lx ly) by (by apply Hlookup).
    rewrite <- chain_found_connected.
    destruct (chain_found (trim x) (Some ly) (Some lx)); cbn [fst].
    - done.
    - split; [|done]. intros H. apply (f_equal length) in H.
      rewrite length_app in H. simpl in H. lia. }
  split; [by apply Hacc|].
  rewrite (Hacc a b e la lb), (Hacc b a e' lb la) by done.
  split; intros (n & H1 & H2); by exists n.
Qed.

End ChainDirections.

(** *** The model a load leaves *)

Section LoadedModel.

Context {D : Type}.
Variable lexical_cast : string → option D.
Variable urdf_model : ModelInterface.

Local Ltac model_fields :=
  cbn [name_ groups_ group_states_ virtual_joints_ end_effectors_
         visual_sensors_ disabled_collisions_ clear].

Local Ltac run_stages :=
  unfold loadDisabledCollisions, loadVisualSensors, loadEndEffectors,
    loadGroupStates, loadGroups, loadVirtualJoints, parseGroups;
  model_fields;
  destruct (fold_left (λ st e, loadVirtualJoint _ e st) _ _)
    as [vjs log1] eqn:Hvj;
  model_fields;
  destruct (fold_left (λ st e, loadGroup _ vjs e st) _ _)
    as [parsed log2] eqn:Hparsed;
  destruct (resolveGroups parsed log2) as [groups log3] eqn:Hgroups;
  model_fields;
  destruct (fold_left (λ st e, loadGroupState _ _ _ _ e st) _ _)
    as [states log4] eqn:Hstates;
  model_fields;
  destruct (fold_left (λ st e, loadEndEffector _ _ e st) _ _)
    as [eefs log5] eqn:Heefs;
  model_fields;
  destruct (fold_left (λ st e, loadVisualSensor _ e st) _ _)
    as [sensors log6] eqn:Hsensors;
  model_fields;
  destruct (fold_left (λ st e, loadDisabledCollision _ e st) _ _)
    as [cols log7] eqn:Hcols;
  eexists _, log1, log2, log3, log4, log5, log6, parsed; cbv zeta;
  rewrite Hvj; cbn [fst]; rewrite Hparsed, Hgroups; cbn [fst];
  rewrite Hstates, Heefs, Hsensors, Hcols; split; reflexivity.

(** The stages of a load that finds its root element: each sequence
    of the model is what the loop of its loader builds from the empty
    sequence, the later loops reading the joints and groups built
    before. *)
Lemma initXml_stages (m : Model D) (x : TiXmlElement) :
  ValueStr x = "robot" →
  ∃ (log0 log1 log2 log3 log4 log5 log6 : list Diagnostic)
    (parsed : list Group.t),
    let vjs :=
      fst (fold_left (λ st e, loadVirtualJoint urdf_model e st)
             (ChildElements "virtual_joint" (child_nodes x)) ([], log0)) in
    let groups := fst (resolveGroups parsed log2) in
    parsed
    = fst (fold_left (λ st e, loadGroup urdf_model vjs e st)
             (ChildElements "group" (child_nodes x)) ([], log1))
    ∧ loaded (initXml lexical_cast urdf_model m (Some x))
      = MkModel
          (match Attribute x "name" with Some n => trim n | None => "" end)
          groups
          (fst (fold_left
                  (λ st e, loadGroupState lexical_cast urdf_model groups vjs e st)
                  (ChildElements "group_state" (child_nodes x)) ([], log3)))
          vjs
          (fst (fold_left (λ st e, loadEndEffector urdf_model groups e st)
                  (ChildElements "end_effector" (child_nodes x)) ([], log4)))
          (fst (fold_left (λ st e, loadVisualSensor lexical_cast e st)
                  (ChildElements "visual_sensor" (child_nodes x)) ([], log5)))
          (fst (fold_left (λ st e, loadDisabledCollision urdf_model e st)
                  (ChildElements "disable_collisions" (child_nodes x))
                  ([], log6))).
Proof.
  intros He. unfold initXml, loaded. rewrite He.
  simpl String.eqb. cbn [negb fst snd]. cbv zeta.
  destruct (Attribute x "name") as [nm|]; [destruct (negb _)|]; run_stages.
Qed.

End LoadedModel.

(** *** What every loaded entity satisfies *)

Lemma fold_fst_invariant {A E : Type} (P : A → Prop)
    (f : A * list Diagnostic → E → A * list Diagnostic) :
  (∀ acc log e, P acc → P (fst (f (acc, log) e))) →
  ∀ l st, P (fst st) → P (fst (fold_left f l st)).
Proof.
  intros Hf l. induction l as [|e l IH]; intros [acc log] Hst; [done|].
  cbn [fold_left]. apply IH.
  destruct (f (acc, log) e) as [acc' log'] eqn:Hstep.
  pose proof (Hf acc log e Hst) as H. by rewrite Hstep in H.
Qed.

Lemma fold_fst_members {A E : Type}
    (f : list A * list Diagnostic → E → list A * list Diagnostic)
    (Q : E → A → Prop) :
  (∀ acc log e, ∃ out, fst (f (acc, log) e) = acc ++ out
                       ∧ ∀ x, x ∈ out ↔ Q e x) →
  ∀ l acc log x,
    x ∈ fst (fold_left f l (acc, log)) ↔ x ∈ acc ∨ ∃ e, e ∈ l ∧ Q e x.
Proof.
  intros Hf l. induction l as [|e l IH]; intros acc log x.
  - simpl. split; [by left|]. intros [?|(e & He & _)]; [done|].
    by apply elem_of_nil in He.
  - cbn [fold_left]. destruct (Hf acc log e) as (out & Hout & HQ).
    destruct (f (acc, log) e) as [acc' log'] eqn:Hstep. cbn [fst] in Hout.
    subst acc'. rewrite IH, elem_of_app, HQ. split.
    + intros [[?|?]|(e' & He' & Hq)]; [by left| |].
      * right. exists e. split; [by left|done].
      * right. exists e'. split; [by right|done].
    + intros [?|(e' & [->|He']%elem_of_cons & Hq)]; [by left; left| |].
      * by left; right.
      * right. by exists e'.
Qed.

Lemma group_known_spec (groups : list Group.t) (n : string) :
  group_known groups n = true ↔ n ∈ Group.name_ <$> groups.
Proof.
  unfold group_known. rewrite existsb_exists, list_elem_of_fmap. split.
  - intros (g & Hg & Heq). apply String.eqb_eq in Heq.
    exists g. split; [done|]. by apply list_elem_of_In.
  - intros (g & -> & Hg). exists g. split; [by apply list_elem_of_In|].
    apply String.eqb_refl.
Qed.

Section ModelInvariants.

Context {D : Type}.
Variable lexical_cast : string → option D.
Variable urdf_model : ModelInterface.

Lemma loadVirtualJoint_sound (e : TiXmlElement)
    (virtual_joints : list VirtualJoint.t) (log : list Diagnostic) :
  Forall (λ vj, link_known urdf_model (VirtualJoint.child_link_ vj)
                ∧ VirtualJoint.type_ vj ∈ joint_types) virtual_joints →
  Forall (λ vj, link_known urdf_model (VirtualJoint.child_link_ vj)
                ∧ VirtualJoint.type_ vj ∈ joint_types)
    (fst (loadVirtualJoint urdf_model e (virtual_joints, log))).
Proof.
  intros Hvj. unfold loadVirtualJoint.
  destruct (Attribute e "name") as [jname|]; [|done].
  destruct (Attribute e "child_link") as [child|]; [|done].
  destruct (getLink urdf_model (trim child)) as [l|] eqn:Hl; [|done].
  destruct (Attribute e "parent_frame") as [parent|]; [|done].
  destruct (Attribute e "type") as [type|]; [|done].
  destruct (known_type (transform tolower (trim type))) eqn:Hk;
    cbn [negb report fst]; apply Forall_app; (split; [done|]);
    apply Forall_singleton; cbn [VirtualJoint.child_link_ VirtualJoint.type_];
    (split; [unfold link_known; by rewrite Hl|]).
  - by apply known_type_spec.
  - unfold joint_types. do 2 right. left.
Qed.

Lemma loadGroup_sound (virtual_joints : list VirtualJoint.t) (e : TiXmlElement)
    (groups : list Group.t) (log : list Diagnostic) :
  Forall (λ g, Forall (link_known urdf_model) (Group.links_ g)
               ∧ Forall (joint_known urdf_model virtual_joints) (Group.joints_ g)
               ∧ Forall (chain_known urdf_model) (Group.chains_ g)) groups →
  Forall (λ g, Forall (link_known urdf_model) (Group.links_ g)
               ∧ Forall (joint_known urdf_model virtual_joints) (Group.joints_ g)
               ∧ Forall (chain_known urdf_model) (Group.chains_ g))
    (fst (loadGroup urdf_model virtual_joints e (groups, log))).
Proof.
  intros Hg. destruct (Attribute e "name") as [gname|] eqn:Hname.
  - destruct (loadGroup_named urdf_model virtual_joints e gname groups log Hname)
      as (g & log' & -> & _ & Hl & Hj & _ & Hc & _).
    cbn [fst]. apply Forall_app. split; [done|]. apply Forall_singleton.
    split; [|split; [|done]].
    + rewrite Hl. apply Forall_forall. by intros n [Hk _]%list_elem_of_filter.
    + rewrite Hj. apply Forall_forall. intros j [Hk _]%list_elem_of_filter.
      by apply joint_missing_known.
  - unfold loadGroup. by rewrite Hname.
Qed.

(** The loop over the tokens of a value touches the entry of its joint
    only. *)
Lemma read_values_keys (fuel : nat) (ss : stringstream) (j : string)
    (m m' : gmap string (list D)) (threw : bool) :
  read_values lexical_cast fuel ss j m = Some (m', threw) →
  ∀ k, is_Some (m' !! k) → k = j ∨ is_Some (m !! k).
Proof.
  revert ss m. induction fuel as [|fuel IH]; intros ss m; [done|].
  cbn [read_values].
  destruct (good ss && negb (eof ss)); [|intros [= <- <-]; by right].
  destruct (extract ss) as [val ss'].
  assert (Hindex : ∀ k, is_Some (index m j !! k) → k = j ∨ is_Some (m !! k)).
  { intros k. destruct (decide (k = j)) as [->|Hne]; [by left|].
    rewrite index_lookup_ne by done. by right. }
  destruct (lexical_cast val) as [d|].
  - intros Hrun k Hk. destruct (IH _ _ Hrun k Hk) as [?|Hk']; [by left|].
    destruct (decide (k = j)) as [->|Hne]; [by left|].
    rewrite push_back_lookup_ne in Hk' by done. by apply Hindex.
  - intros [= <- <-]. exact Hindex.
Qed.

Lemma loadJointValue_keys (virtual_joints : list VirtualJoint.t)
    (sname : string) (e : TiXmlElement) (joint_values : gmap string (list D))
    (log : list Diagnostic) :
  (∀ k, is_Some (joint_values !! k) → joint_known urdf_model virtual_joints k) →
  ∀ k, is_Some (fst (loadJointValue lexical_cast urdf_model virtual_joints
                       sname e (joint_values, log)) !! k) →
       joint_known urdf_model virtual_joints k.
Proof.
  intros Hm. unfold loadJointValue.
  destruct (Attribute e "name") as [jname|]; [|done].
  destruct (Attribute e "value") as [jval|]; [|done].
  destruct (joint_missing urdf_model virtual_joints (trim jname)) eqn:Hj;
    [done|].
  apply joint_missing_known in Hj.
  assert (Hfst : ∀ (st : gmap string (list D) * list Diagnostic) d,
             fst (let (jv, lg) := st in
                  if bool_decide (jv = ∅) then report jv lg d else (jv, lg))
             = fst st)
    by (intros [jv lg] d; by destruct (bool_decide (jv = ∅))).
  rewrite Hfst.
  destruct (read_values lexical_cast (rounds jval) _ (trim jname) joint_values)
    as [[m' [|]]|] eqn:Hrun; cbn [report fst]; [| |done];
    intros k Hk;
    (destruct (read_values_keys _ _ _ _ _ _ Hrun k Hk) as [->|Hk'];
     [done|by apply Hm]).
Qed.

Lemma loadGroupState_sound (groups : list Group.t)
    (virtual_joints : list VirtualJoint.t) (e : TiXmlElement)
    (group_states : list (GroupState.t D)) (log : list Diagnostic) :
  Forall (λ gs, GroupState.group_ gs ∈ Group.name_ <$> groups
                ∧ ∀ k, is_Some (GroupState.joint_values_ gs !! k) →
                       joint_known urdf_model virtual_joints k) group_states →
  Forall (λ gs, GroupState.group_ gs ∈ Group.name_ <$> groups
                ∧ ∀ k, is_Some (GroupState.joint_values_ gs !! k) →
                       joint_known urdf_model virtual_joints k)
    (fst (loadGroupState lexical_cast urdf_model groups virtual_joints e
            (group_states, log))).
Proof.
  intros Hs. unfold loadGroupState.
  destruct (Attribute e "name") as [sname|]; [|done].
  destruct (Attribute e "group") as [gname|]; [|done].
  destruct (group_known groups (trim gname)) eqn:Hg; [|done].
  pose proof (fold_fst_invariant
                (λ jv : gmap string (list D),
                   ∀ k, is_Some (jv !! k) →
                        joint_known urdf_model virtual_joints k)
                (λ st x, loadJointValue lexical_cast urdf_model virtual_joints
                           sname x st)
                (λ acc lg x, loadJointValue_keys virtual_joints sname x acc lg)
                (ChildElements "joint" (child_nodes e)) (∅, log)) as Hkeys.
  destruct (fold_left _ _ _) as [joint_values log'].
  cbn [fst] in *. apply Forall_app. split; [done|]. apply Forall_singleton.
  cbn [GroupState.group_ GroupState.joint_values_].
  split; [by apply group_known_spec|].
  apply Hkeys. intros k [v Hk]. by rewrite lookup_empty in Hk.
Qed.

Lemma loadEndEffector_sound (groups : list Group.t) (e : TiXmlElement)
    (end_effectors : list EndEffector.t) (log : list Diagnostic) :
  Forall (λ ee, EndEffector.component_group_ ee ∈ Group.name_ <$> groups
                ∧ link_known urdf_model (EndEffector.parent_link_ ee))
    end_effectors →
  Forall (λ ee, EndEffector.component_group_ ee ∈ Group.name_ <$> groups
                ∧ link_known urdf_model (EndEffector.parent_link_ ee))
    (fst (loadEndEffector urdf_model groups e (end_effectors, log))).
Proof.
  intros He. unfold loadEndEffector.
  destruct (Attribute e "name") as [ename|]; [|done].
  destruct (Attribute e "group") as [gname|]; [|done].
  destruct (group_known groups (trim gname)) eqn:Hg; cbn [negb]; [|done].
  destruct (Attribute e "parent_link") as [parent|]; [|done].
  destruct (getLink urdf_model (trim parent)) as [l|] eqn:Hl; [|done].
  cbn [fst]. apply Forall_app. split; [done|]. apply Forall_singleton.
  cbn [EndEffector.component_group_ EndEffector.parent_link_].
  split; [by apply group_known_spec|]. unfold link_known. by rewrite Hl.
Qed.

End ModelInvariants.

Section SensorsAndCollisions.

Context {D : Type}.
Variable lexical_cast : string → option D.
Variable urdf_model : ModelInterface.

Lemma describes_sensor_unique (e : TiXmlElement) (s s' : VisualSensor.t D) :
  describes_sensor lexical_cast e s → describes_sensor lexical_cast e s' →
  s = s'.
Proof.
  destruct s as [n f a b c], s' as [n' f' a' b' c'].
  intros (?&?&?&?&?&?&?&?&?&?&?&?&?&?&?) (?&?&?&?&?&?&?&?&?&?&?&?&?&?&?).
  simpl in *. simplify_eq. done.
Qed.

Lemma loadVisualSensor_out (e : TiXmlElement)
    (visual_sensors : list (VisualSensor.t D)) (log : list Diagnostic) :
  ∃ out, fst (loadVisualSensor lexical_cast e (visual_sensors, log))
         = visual_sensors ++ out
         ∧ ∀ s, s ∈ out ↔ describes_sensor lexical_cast e s.
Proof.
  unfold loadVisualSensor.
  destruct (Attribute e "name") as [sname|] eqn:H1;
    [|exists []; split; [by rewrite app_nil_r|];
      intros s; split; [by intros ?%elem_of_nil|];
      intros (?&?&?&?&?&?&?&?&?&?&?&?&?&?&?); congruence].
  destruct (Attribute e "frame") as [frame|] eqn:H2;
    [|exists []; split; [by rewrite app_nil_r|];
      intros s; split; [by intros ?%elem_of_nil|];
      intros (?&?&?&?&?&?&?&?&?&?&?&?&?&?&?); congruence].
  destruct (Attribute e "fov_angle") as [fov|] eqn:H3;
    [|exists []; split; [by rewrite app_nil_r|];
      intros s; split; [by intros ?%elem_of_nil|];
      intros (?&?&?&?&?&?&?&?&?&?&?&?&?&?&?); congruence].
  destruct (Attribute e "min_range") as [rmin|] eqn:H4;
    [|exists []; split; [by rewrite app_nil_r|];
      intros s; split; [by intros ?%elem_of_nil|];
      intros (?&?&?&?&?&?&?&?&?&?&?&?&?&?&?); congruence].
  destruct (Attribute e "max_range") as [rmax|] eqn:H5;
    [|exists []; split; [by rewrite app_nil_r|];
      intros s; split; [by intros ?%elem_of_nil|];
      intros (?&?&?&?&?&?&?&?&?&?&?&?&?&?&?); congruence].
  destruct (lexical_cast fov) as [a|] eqn:H6;
    [|exists []; split; [by rewrite app_nil_r|];
      intros s; split; [by intros ?%elem_of_nil|];
      intros (?&?&?&?&?&?&?&?&?&?&?&?&?&?&?); congruence].
  destruct (lexical_cast rmin) as [b|] eqn:H7;
    [|exists []; split; [by rewrite app_nil_r|];
      intros s; split; [by intros ?%elem_of_nil|];
      intros (?&?&?&?&?&?&?&?&?&?&?&?&?&?&?); congruence].
  destruct (lexical_cast rmax) as [c|] eqn:H8;
    [|exists []; split; [by rewrite app_nil_r|];
      intros s; split; [by intros ?%elem_of_nil|];
      intros (?&?&?&?&?&?&?&?&?&?&?&?&?&?&?); congruence].
  assert (Hd : describes_sensor lexical_cast e
                 (VisualSensor.mk (trim sname) (trim frame) a b c)).
  { exists sname, frame, fov, rmin, rmax. simpl. tauto. }
  exists [VisualSensor.mk (trim sname) (trim frame) a b c].
  split; [done|]. intros s. rewrite list_elem_of_singleton. split.
  - by intros ->.
  - intros Hs. by apply (describes_sensor_unique e).
Qed.

Lemma loadDisabledCollision_out (e : TiXmlElement)
    (disabled_collisions : list (string * string)) (log : list Diagnostic) :
  ∃ out, fst (loadDisabledCollision urdf_model e (disabled_collisions, log))
         = disabled_collisions ++ out
         ∧ ∀ p, p ∈ out
                ↔ ∃ link1 link2,
                    Attribute e "link1" = Some link1
                    ∧ Attribute e "link2" = Some link2
                    ∧ p = (trim link1, trim link2)
                    ∧ link_known urdf_model (trim link1)
                    ∧ link_known urdf_model (trim link2).
Proof.
  unfold loadDisabledCollision, link_known.
  destruct (Attribute e "link1") as [link1|] eqn:H1;
    [|exists []; split; [by rewrite app_nil_r|];
      intros p; split; [by intros ?%elem_of_nil|];
      intros (?&?&?&?&?); congruence].
  destruct (Attribute e "link2") as [link2|] eqn:H2;
    [|exists []; split; [by rewrite app_nil_r|];
      intros p; split; [by intros ?%elem_of_nil|];
      intros (?&?&?&?&?); congruence].
  destruct (getLink urdf_model (trim link1)) as [l1|] eqn:Hl1;
    [|exists []; split; [by rewrite app_nil_r|];
      intros p; split; [by intros ?%elem_of_nil|];
      intros (?&?&?&?&?&[? ?]&?); congruence].
  destruct (getLink urdf_model (trim link2)) as [l2|] eqn:Hl2;
    [|exists []; split; [by rewrite app_nil_r|];
      intros p; split; [by intros ?%elem_of_nil|];
      intros (?&?&?&?&?&?&[? ?]); congruence].
  exists [(trim link1, trim link2)]. split; [done|].
  intros p. rewrite list_elem_of_singleton. split.
  - intros ->. exists link1, link2. rewrite Hl1, Hl2. eauto 10.
  - intros (?&?&?&?&?&?&?). congruence.
Qed.

End SensorsAndCollisions.

Section LoadedEntities.

Context {D : Type}.
Variable lexical_cast : string → option D.
Variable urdf_model : ModelInterface.

Local Ltac open_stages m x He :=
  let H := fresh "Hstages" in
  pose proof (initXml_stages lexical_cast urdf_model m x He) as H;
  cbv zeta in H;
  destruct H as (log0 & log1 & log2 & log3 & log4 & log5 & log6 & parsed
                 & Hparsed & ->);
  cbn [name_ groups_ group_states_ virtual_joints_ end_effectors_
         visual_sensors_ disabled_collisions_].

Local Ltac failed_load He :=
  rewrite initXml_fails by exact He; unfold loaded, clear;
  cbn [fst snd name_ groups_ group_states_ virtual_joints_ end_effectors_
         visual_sensors_ disabled_collisions_].

Lemma virtual_joints_sound (x : TiXmlElement) (log : list Diagnostic) :
  Forall (λ vj, link_known urdf_model (VirtualJoint.child_link_ vj)
                ∧ VirtualJoint.type_ vj ∈ joint_types)
    (fst (fold_left (λ st e, loadVirtualJoint urdf_model e st)
            (ChildElements "virtual_joint" (child_nodes x)) ([], log))).
Proof.
  apply (fold_fst_invariant
           (Forall (λ vj, link_known urdf_model (VirtualJoint.child_link_ vj)
                          ∧ VirtualJoint.type_ vj ∈ joint_types))).
  - intros acc lg e. apply loadVirtualJoint_sound.
  - apply Forall_nil_2.
Qed.

(** X7.  Every virtual joint of a loaded model is attached to a link of
    the kinematic model and has one of the three types planar, floating
    and fixed. *)
Theorem loaded_virtual_joints_attach (m : Model D) (x : TiXmlElement) :
  ∀ vj,
    vj ∈ virtual_joints_ (loaded (initXml lexical_cast urdf_model m (Some x))) →
    link_known urdf_model (VirtualJoint.child_link_ vj)
    ∧ VirtualJoint.type_ vj ∈ joint_types.
Proof.
  destruct (decide (ValueStr x = "robot")) as [He|He].
  - open_stages m x He. apply Forall_forall, virtual_joints_sound.
  - failed_load He. by intros vj ?%elem_of_nil.
Qed.

(** X8.  In every group of a loaded model, every link is a link of the
    kinematic model, every joint is a joint of the kinematic model or
    carries the name of a virtual joint of the loaded model, and every
    chain is a pair of links of the kinematic model that are related. *)
Theorem loaded_groups_refer_to_known_parts (m : Model D) (x : TiXmlElement) :
  ∀ g,
    g ∈ groups_ (loaded (initXml lexical_cast urdf_model m (Some x))) →
    Forall (link_known urdf_model) (Group.links_ g)
    ∧ Forall (joint_known urdf_model
                (virtual_joints_
                   (loaded (initXml lexical_cast urdf_model m (Some x)))))
        (Group.joints_ g)
    ∧ Forall (chain_known urdf_model) (Group.chains_ g).
Proof.
  destruct (decide (ValueStr x = "robot")) as [He|He].
  - open_stages m x He.
    destruct (resolveGroups_filter parsed log2) as (K & _ & _ & ->). cbn [fst].
    intros g [_ Hg]%list_elem_of_filter. revert g Hg. apply Forall_forall.
    rewrite Hparsed.
    apply (fold_fst_invariant
             (Forall (λ g, Forall (link_known urdf_model) (Group.links_ g)
                           ∧ Forall (joint_known urdf_model _) (Group.joints_ g)
                           ∧ Forall (chain_known urdf_model) (Group.chains_ g)))).
    + intros acc lg e. apply loadGroup_sound.
    + apply Forall_nil_2.
  - failed_load He. by intros g ?%elem_of_nil.
Qed.

(** X9.  Every group state of a loaded model names a group of the loaded
    model, and every joint for which it holds values is a joint of the
    kinematic model or carries the name of a virtual joint of the loaded
    model. *)
Theorem loaded_group_states_refer_to_groups (m : Model D) (x : TiXmlElement) :
  ∀ gs,
    gs ∈ group_states_ (loaded (initXml lexical_cast urdf_model m (Some x))) →
    GroupState.group_ gs
    ∈ Group.name_ <$>
        groups_ (loaded (initXml lexical_cast urdf_model m (Some x)))
    ∧ ∀ j, is_Some (GroupState.joint_values_ gs !! j) →
           joint_known urdf_model
             (virtual_joints_
                (loaded (initXml lexical_cast urdf_model m (Some x)))) j.
Proof.
  destruct (decide (ValueStr x = "robot")) as [He|He].
  - open_stages m x He. apply Forall_forall.
    apply (fold_fst_invariant
             (Forall (λ gs, GroupState.group_ gs ∈ Group.name_ <$> _
                            ∧ ∀ k, is_Some (GroupState.joint_values_ gs !! k) →
                                   joint_known urdf_model _ k))).
    + intros acc lg e. apply loadGroupState_sound.
    + apply Forall_nil_2.
  - failed_load He. by intros gs ?%elem_of_nil.
Qed.

(** X10.  Every end effector of a loaded model names a group of the
    loaded model and has a parent link of the kinematic model. *)
Theorem loaded_end_effectors_refer_to_groups (m : Model D) (x : TiXmlElement) :
  ∀ ee,
    ee ∈ end_effectors_ (loaded (initXml lexical_cast urdf_model m (Some x))) →
    EndEffector.component_group_ ee
    ∈ Group.name_ <$>
        groups_ (loaded (initXml lexical_cast urdf_model m (Some x)))
    ∧ link_known urdf_model (EndEffector.parent_link_ ee).
Proof.
  destruct (decide (ValueStr x = "robot")) as [He|He].
  - open_stages m x He. apply Forall_forall.
    apply (fold_fst_invariant
             (Forall (λ ee, EndEffector.component_group_ ee ∈ Group.name_ <$> _
                            ∧ link_known urdf_model (EndEffector.parent_link_ ee)))).
    + intros acc lg e. apply loadEndEffector_sound.
    + apply Forall_nil_2.
  - failed_load He. by intros ee ?%elem_of_nil.
Qed.

(** X11.  After a load that finds its root element, the visual sensors
    of the model are exactly the entries described by the visual sensor
    elements of the root: nothing else is stored and no described sensor
    is left out. *)
Theorem loaded_sensors_are_the_described (m : Model D) (x : TiXmlElement) :
  ValueStr x = "robot" →
  ∀ s,
    s ∈ visual_sensors_ (loaded (initXml lexical_cast urdf_model m (Some x)))
    ↔ ∃ e, e ∈ ChildElements "visual_sensor" (child_nodes x)
           ∧ describes_sensor lexical_cast e s.
Proof.
  intros He s. open_stages m x He.
  rewrite (fold_fst_members _ (describes_sensor lexical_cast)).
  - split; [|by right]. by intros [?%elem_of_nil|?].
  - intros acc lg e. apply loadVisualSensor_out.
Qed.

(** X12.  After a load that finds its root element, the disabled
    collision pairs of the model are exactly the trimmed (link1, link2)
    pairs of the elements that give both attributes and name two links
    of the kinematic model; a pair is stored in the order it is given. *)
Theorem loaded_collisions_are_the_declared (m : Model D) (x : TiXmlElement) :
  ValueStr x = "robot" →
  ∀ p,
    p ∈ disabled_collisions_
          (loaded (initXml lexical_cast urdf_model m (Some x)))
    ↔ ∃ e, e ∈ ChildElements "disable_collisions" (child_nodes x)
           ∧ ∃ link1 link2,
               Attribute e "link1" = Some link1
               ∧ Attribute e "link2" = Some link2
               ∧ p = (trim link1, trim link2)
               ∧ link_known urdf_model (trim link1)
               ∧ link_known urdf_model (trim link2).
Proof.
  intros He p. open_stages m x He.
  rewrite (fold_fst_members _
             (λ e p, ∃ link1 link2,
                       Attribute e "link1" = Some link1
                       ∧ Attribute e "link2" = Some link2
                       ∧ p = (trim link1, trim link2)
                       ∧ link_known urdf_model (trim link1)
                       ∧ link_known urdf_model (trim link2))).
  - split; [|by right]. by intros [?%elem_of_nil|?].
  - intros acc lg e. apply loadDisabledCollision_out.
Qed.

(** X13.  After a load that finds its root element the name of the model
    is the trimmed name attribute of the root, also when it differs from
    the name of the kinematic model, and the empty string when the root
    has no name attribute. *)
Theorem loaded_name_is_trimmed_attribute (m : Model D) (x : TiXmlElement) :
  ValueStr x = "robot" →
  name_ (loaded (initXml lexical_cast urdf_model m (Some x)))
  = match Attribute x "name" with Some n => trim n | None => "" end.
Proof. intros He. by open_stages m x He. Qed.

End LoadedEntities.

(** *** Group states and end effectors, one element at a time *)

Section StatesAndEffectors.

Context {D : Type}.
Variable lexical_cast : string → option D.
Variable urdf_model : ModelInterface.

(** X14.  A group state element with a name and a group that names a
    group loaded before adds one group state with the trimmed name and
    group, whatever is wrong with its joint children; without a name,
    without a group, or with a group that names no loaded group, it
    adds nothing and one error is reported. *)
Theorem group_state_needs_a_known_group
    (groups : list Group.t) (virtual_joints : list VirtualJoint.t)
    (e : TiXmlElement) (group_states : list (GroupState.t D))
    (log : list Diagnostic) :
  let r := loadGroupState lexical_cast urdf_model groups virtual_joints e
             (group_states, log) in
  (∀ sname gname,
     Attribute e "name" = Some sname → Attribute e "group" = Some gname →
     trim gname ∈ Group.name_ <$> groups →
     ∃ gs, fst r = group_states ++ [gs]
           ∧ GroupState.name_ gs = trim sname
           ∧ GroupState.group_ gs = trim gname)
  ∧ (Attribute e "name" = None ∨ Attribute e "group" = None
     ∨ (∃ gname, Attribute e "group" = Some gname
                 ∧ trim gname ∉ Group.name_ <$> groups) →
     fst r = group_states ∧ ∃ fmt args, snd r = log ++ [ROS_ERROR fmt args]).
Proof.
  cbv zeta. unfold loadGroupState. split.
  - intros sname gname -> -> Hg. apply group_known_spec in Hg. rewrite Hg.
    destruct (fold_left _ _ _) as [joint_values log']. by eexists.
  - intros Hbad.
    destruct (Attribute e "name") as [sname|]; [|simpl; eauto].
    destruct (Attribute e "group") as [gname|]; [|simpl; eauto].
    destruct (group_known groups (trim gname)) eqn:Hg; [|simpl; eauto].
    exfalso. destruct Hbad as [?|[?|(gname' & [= <-] & Hn)]]; [done|done|].
    by apply Hn, group_known_spec.
Qed.

(** X15.  A value attribute that is empty or holds whitespace only
    stores no value for its joint and is reported as not parsable. *)
Theorem value_without_tokens_is_reported
    (virtual_joints : list VirtualJoint.t) (sname : string)
    (e : TiXmlElement) (jname jval : string)
    (joint_values : gmap string (list D)) (log : list Diagnostic) :
  lexical_cast "" = None →
  Attribute e "name" = Some jname →
  Attribute e "value" = Some jval →
  joint_missing urdf_model virtual_joints (trim jname) = false →
  tokens jval = [] →
  let r := loadJointValue lexical_cast urdf_model virtual_joints sname e
             (joint_values, log) in
  fst r !!! trim jname = joint_values !!! trim jname
  ∧ ROS_ERROR "Unable to parse joint value '%s'" [jval] ∈ snd r.
Proof.
  intros Hempty Hname Hval Hknown Htok. cbv zeta.
  unfold loadJointValue. rewrite Hname, Hval, Hknown.
  destruct (read_values_spec lexical_cast jval joint_values (trim jname) Hempty)
    as (m' & threw & Hrun & Hj & _ & Hthrew).
  rewrite Hrun, Htok in *. rewrite app_nil_r in Hj.
  destruct threw; [|by destruct (proj1 Hthrew eq_refl)].
  unfold report. destruct (bool_decide (m' = ∅)); cbn [fst snd].
  - split; [done|]. apply elem_of_app. left. apply elem_of_app. right. by left.
  - split; [done|]. apply elem_of_app. right. by left.
Qed.

(** X16.  An end effector element adds an entry exactly when it has a
    name, a group that names a loaded group and a parent link of the
    kinematic model; in every other case it adds nothing and one error
    is reported. *)
Theorem end_effector_needs_group_and_link
    (groups : list Group.t) (e : TiXmlElement)
    (end_effectors : list EndEffector.t) (log : list Diagnostic) :
  let r := loadEndEffector urdf_model groups e (end_effectors, log) in
  (∀ ename gname parent,
     Attribute e "name" = Some ename → Attribute e "group" = Some gname →
     Attribute e "parent_link" = Some parent →
     trim gname ∈ Group.name_ <$> groups →
     link_known urdf_model (trim parent) →
     r = (end_effectors ++
            [EndEffector.mk (trim ename) (trim parent) (trim gname)], log))
  ∧ (Attribute e "name" = None ∨ Attribute e "group" = None
     ∨ Attribute e "parent_link" = None
     ∨ (∃ gname, Attribute e "group" = Some gname
                 ∧ trim gname ∉ Group.name_ <$> groups)
     ∨ (∃ parent, Attribute e "parent_link" = Some parent
                  ∧ ¬ link_known urdf_model (trim parent)) →
     fst r = end_effectors ∧ ∃ fmt args, snd r = log ++ [ROS_ERROR fmt args]).
Proof.
  cbv zeta. unfold loadEndEffector, link_known. split.
  - intros ename gname parent -> -> -> Hg [l Hl].
    apply group_known_spec in Hg. by rewrite Hg, Hl.
  - intros Hbad.
    destruct (Attribute e "name") as [ename|]; [|simpl; eauto].
    destruct (Attribute e "group") as [gname|]; [|simpl; eauto].
    destruct (group_known groups (trim gname)) eqn:Hg; cbn [negb];
      [|simpl; eauto].
    destruct (Attribute e "parent_link") as [parent|]; [|simpl; eauto].
    destruct (getLink urdf_model (trim parent)) as [l|] eqn:Hl; [|simpl; eauto].
    exfalso.
    destruct Hbad as [?|[?|[?|[(g' & [= <-] & Hn)|(p' & [= <-] & Hn)]]]];
      try done.
    + by apply Hn, group_known_spec.
    + apply Hn. by rewrite Hl.
Qed.

End StatesAndEffectors.

(** *** The further properties on concrete documents *)

Lemma named_group_keeps_known_children_witness :
  Attribute arm_group "name" = Some " arm"
  ∧ ∃ g, fst (loadGroup arm_urdf [world_vj] arm_group ([], [])) = [g]
         ∧ Group.name_ g = "arm"
         ∧ Group.links_ g = ["wrist"]
         ∧ Group.joints_ g = ["world_joint"]
         ∧ Group.subgroups_ g = ["gripper"]
         ∧ Forall (chain_known arm_urdf) (Group.chains_ g).
Proof.
  split; [reflexivity|].
  destruct (proj1 (named_group_keeps_known_children arm_urdf [world_vj]
                     arm_group [] []) " arm" eq_refl)
    as (g & Hfst & Hn & Hl & Hj & _ & Hs & Hc & _).
  exists g. split; [exact Hfst|]. split; [exact Hn|].
  split; [rewrite Hl; vm_compute; reflexivity|].
  split; [rewrite Hj; vm_compute; reflexivity|].
  split; [exact Hs|exact Hc].
Defined.

Lemma left_groups_resolve_witness :
  distinct_names gripper_groups
  ∧ ∀ g, g ∈ fst (resolveGroups gripper_groups []) →
         (∀ s, s ∈ Group.subgroups_ g →
               s ∈ Group.name_ <$> fst (resolveGroups gripper_groups []))
         ∧ ¬ on_cycle (fst (resolveGroups gripper_groups [])) g.
Proof.
  assert (Hnd : distinct_names gripper_groups).
  { unfold distinct_names. apply (bool_decide_unpack _). vm_compute. exact I. }
  split; [exact Hnd|].
  exact (proj2 (left_groups_resolve gripper_groups []) Hnd).
Defined.

Lemma left_groups_up_to_order_witness :
  cycle_groups ++ gripper_groups ≡ₚ gripper_groups ++ cycle_groups
  ∧ fst (resolveGroups (cycle_groups ++ gripper_groups) [])
    ≡ₚ fst (resolveGroups (gripper_groups ++ cycle_groups) []).
Proof.
  assert (Hp : cycle_groups ++ gripper_groups ≡ₚ gripper_groups ++ cycle_groups)
    by apply Permutation_app_comm.
  split; [exact Hp|].
  exact (left_groups_up_to_order _ _ [] [] Hp).
Defined.

Lemma arm_named_lookup : named_lookup arm_urdf.
Proof.
  intros n l. unfold arm_urdf, getLink, lookup_link.
  cbn [List.find name root_link wrist_link hand_link].
  destruct (String.eqb_spec "root" n) as [<-|_]; [by intros [= <-]|].
  destruct (String.eqb_spec "wrist" n) as [<-|_]; [by intros [= <-]|].
  destruct (String.eqb_spec "hand" n) as [<-|_]; [by intros [= <-]|].
  discriminate.
Defined.

Lemma chain_ends_can_be_swapped_witness :
  named_lookup arm_urdf
  ∧ fst (loadGroupChain arm_urdf "arm" arm_chain ([], []))
    = [(trim "root", trim "hand")]
  ∧ fst (loadGroupChain arm_urdf "arm" swapped_chain ([], []))
    = [(trim "hand", trim "root")].
Proof.
  split; [exact arm_named_lookup|].
  assert (Hfirst : fst (loadGroupChain arm_urdf "arm" arm_chain ([], []))
                   = [(trim "root", trim "hand")]) by reflexivity.
  split; [exact Hfirst|].
  exact (proj1 (proj2 (chain_ends_can_be_swapped arm_urdf "arm" arm_chain
                         swapped_chain "root" "hand" root_link hand_link [] []
                         arm_named_lookup eq_refl eq_refl eq_refl eq_refl
                         eq_refl eq_refl)) Hfirst).
Defined.

Lemma loaded_virtual_joints_attach_witness :
  world_vj
  ∈ virtual_joints_ (loaded (initXml decimal_cast arm_urdf used_model
                               (Some full_doc)))
  ∧ link_known arm_urdf (VirtualJoint.child_link_ world_vj)
  ∧ VirtualJoint.type_ world_vj ∈ joint_types.
Proof.
  assert (Hin : world_vj
                ∈ virtual_joints_ (loaded (initXml decimal_cast arm_urdf
                                             used_model (Some full_doc))))
    by (vm_compute; left).
  split; [exact Hin|].
  exact (loaded_virtual_joints_attach decimal_cast arm_urdf used_model full_doc
           world_vj Hin).
Defined.

Lemma loaded_groups_refer_to_known_parts_witness :
  Group.mk "arm" [] ["world_joint"] [("root", "hand")] []
  ∈ groups_ (loaded (initXml decimal_cast arm_urdf used_model (Some full_doc)))
  ∧ Forall (joint_known arm_urdf
              (virtual_joints_
                 (loaded (initXml decimal_cast arm_urdf used_model
                            (Some full_doc)))))
      ["world_joint"]
  ∧ Forall (chain_known arm_urdf) [("root", "hand")].
Proof.
  assert (Hin : Group.mk "arm" [] ["world_joint"] [("root", "hand")] []
                ∈ groups_ (loaded (initXml decimal_cast arm_urdf used_model
                                     (Some full_doc))))
    by (vm_compute; left).
  split; [exact Hin|].
  exact (proj2 (loaded_groups_refer_to_known_parts decimal_cast arm_urdf
                  used_model full_doc _ Hin)).
Defined.

Lemma loaded_group_states_refer_to_groups_witness :
  ∃ gs, gs ∈ group_states_ (loaded (initXml decimal_cast arm_urdf used_model
                                      (Some full_doc)))
        ∧ GroupState.group_ gs
          ∈ Group.name_ <$>
              groups_ (loaded (initXml decimal_cast arm_urdf used_model
                                 (Some full_doc))).
Proof.
  eexists. 
  assert (Hin : GroupState.mk "home" "arm"
                  (push_back (push_back (index ∅ "wrist_joint") "wrist_joint"
                                (5 # 10)%Q) "wrist_joint" (125 # 100)%Q)
                ∈ group_states_ (loaded (initXml decimal_cast arm_urdf
                                           used_model (Some full_doc))))
    by (vm_compute; left).
  split; [exact Hin|].
  exact (proj1 (loaded_group_states_refer_to_groups decimal_cast arm_urdf
                  used_model full_doc _ Hin)).
Defined.

Lemma loaded_end_effectors_refer_to_groups_witness :
  EndEffector.mk "tool" "hand" "arm"
  ∈ end_effectors_ (loaded (initXml decimal_cast arm_urdf used_model
                              (Some full_doc)))
  ∧ "arm" ∈ Group.name_ <$>
              groups_ (loaded (initXml decimal_cast arm_urdf used_model
                                 (Some full_doc)))
  ∧ link_known arm_urdf "hand".
Proof.
  assert (Hin : EndEffector.mk "tool" "hand" "arm"
                ∈ end_effectors_ (loaded (initXml decimal_cast arm_urdf
                                            used_model (Some full_doc))))
    by (vm_compute; left).
  split; [exact Hin|].
  exact (loaded_end_effectors_refer_to_groups decimal_cast arm_urdf used_model
           full_doc _ Hin).
Defined.

Lemma loaded_sensors_are_the_described_witness :
  ValueStr full_doc = "robot"
  ∧ VisualSensor.mk "cam" "hand" (15 # 10) (1 # 10) (5 # 1)%Q
    ∈ visual_sensors_ (loaded (initXml decimal_cast arm_urdf used_model
                                 (Some full_doc))).
Proof.
  split; [reflexivity|].
  apply (loaded_sensors_are_the_described decimal_cast arm_urdf used_model
           full_doc eq_refl).
  exists cam_sensor. split; [vm_compute; left|].
  exists "cam", "hand", "1.5", "0.1", "5". repeat split; reflexivity.
Defined.

Lemma loaded_collisions_are_the_declared_witness :
  ValueStr full_doc = "robot"
  ∧ ("hand", "wrist")
    ∈ disabled_collisions_ (loaded (initXml decimal_cast arm_urdf used_model
                                      (Some full_doc)))
  ∧ ¬ ("wrist", "hand")
      ∈ disabled_collisions_ (loaded (initXml decimal_cast arm_urdf used_model
                                        (Some full_doc))).
Proof.
  split; [reflexivity|].
  pose proof (loaded_collisions_are_the_declared decimal_cast arm_urdf
                used_model full_doc eq_refl) as H.
  split.
  - apply H. exists (leaf "disable_collisions" [("link1", "hand"); ("link2", "wrist")]).
    split; [vm_compute; left|].
    exists "hand", "wrist". repeat split; try reflexivity; vm_compute; eauto.
  - intros Hin. apply H in Hin as (e & He & l1 & l2 & H1 & H2 & Hp & _).
    vm_compute in He.
    apply elem_of_cons in He as [->|He]; [|by apply elem_of_nil in He].
    vm_compute in H1, H2. injection H1 as <-. injection H2 as <-.
    vm_compute in Hp. discriminate Hp.
Defined.

Lemma loaded_name_is_trimmed_attribute_witness :
  ValueStr full_doc = "robot"
  ∧ name_ (loaded (initXml decimal_cast arm_urdf used_model (Some full_doc)))
    = "arm".
Proof.
  split; [reflexivity|].
  exact (loaded_name_is_trimmed_attribute decimal_cast arm_urdf used_model
           full_doc eq_refl).
Defined.

Lemma group_state_needs_a_known_group_witness :
  (Attribute home_state "name" = Some "home"
   ∧ Attribute home_state "group" = Some "arm "
   ∧ trim "arm " ∈ Group.name_ <$> gripper_groups)
  ∧ ∃ gs, fst (loadGroupState decimal_cast arm_urdf gripper_groups []
                 home_state ([], []))
          = [] ++ [gs]
          ∧ GroupState.name_ gs = trim "home"
          ∧ GroupState.group_ gs = trim "arm ".
Proof.
  assert (Hg : trim "arm " ∈ Group.name_ <$> gripper_groups)
    by (vm_compute; left).
  split; [repeat split; try reflexivity; exact Hg|].
  exact (proj1 (group_state_needs_a_known_group decimal_cast arm_urdf
                  gripper_groups [] home_state [] [])
           "home" "arm " eq_refl eq_refl Hg).
Defined.

Lemma value_without_tokens_is_reported_witness :
  (decimal_cast "" = None
   ∧ Attribute blank_joint "name" = Some "wrist_joint"
   ∧ Attribute blank_joint "value" = Some "  "
   ∧ joint_missing arm_urdf [] (trim "wrist_joint") = false
   ∧ tokens "  " = [])
  ∧ ROS_ERROR "Unable to parse joint value '%s'" ["  "]
    ∈ snd (loadJointValue decimal_cast arm_urdf [] "home" blank_joint
             ((∅ : gmap string (list Q)), [])).
Proof.
  split; [repeat split; reflexivity|].
  exact (proj2 (value_without_tokens_is_reported decimal_cast arm_urdf []
                  "home" blank_joint "wrist_joint" "  " ∅ []
                  eq_refl eq_refl eq_refl eq_refl eq_refl)).
Defined.

Lemma end_effector_needs_group_and_link_witness :
  (Attribute tool_effector "name" = Some "tool"
   ∧ Attribute tool_effector "group" = Some "arm"
   ∧ Attribute tool_effector "parent_link" = Some "hand"
   ∧ trim "arm" ∈ Group.name_ <$> gripper_groups
   ∧ link_known arm_urdf (trim "hand"))
  ∧ loadEndEffector arm_urdf gripper_groups tool_effector ([], [])
    = ([EndEffector.mk "tool" "hand" "arm"], []).
Proof.
  assert (Hg : trim "arm" ∈ Group.name_ <$> gripper_groups)
    by (vm_compute; left).
  assert (Hl : link_known arm_urdf (trim "hand")) by (vm_compute; eauto).
  split; [repeat split; try reflexivity; assumption|].
  exact (proj1 (end_effector_needs_group_and_link arm_urdf gripper_groups
                  tool_effector [] [])
           "tool" "arm" "hand" eq_refl eq_refl eq_refl Hg Hl).
Defined.

(** *** Every fault is reported *)

Lemma fold_reports {A E : Type}
    (f : A * list Diagnostic → E → A * list Diagnostic)
    (l : list E) (e : E) (d : Diagnostic) :
  (∀ st x, snd st `prefix_of` snd (f st x)) →
  e ∈ l → (∀ st, d ∈ snd (f st e)) →
  ∀ st, d ∈ snd (fold_left f l st).
Proof.
  intros Hgrow Hin Hd. induction l as [|a l IH]; intros st.
  - by apply elem_of_nil in Hin.
  - cbn [fold_left]. apply elem_of_cons in Hin as [<-|Hin]; [|by apply IH].
    eapply elem_of_prefix; [apply Hd|]. by apply fold_log_grows.
Qed.

Lemma not_link_known (urdf_model : ModelInterface) (n : string) :
  ¬ link_known urdf_model n → getLink urdf_model n = None.
Proof.
  unfold link_known. intros H.
  destruct (getLink urdf_model n) as [l|]; [|done]. exfalso. by apply H.
Qed.

Lemma joint_not_known (urdf_model : ModelInterface)
    (virtual_joints : list VirtualJoint.t) (j : string) :
  ¬ joint_known urdf_model virtual_joints j →
  joint_missing urdf_model virtual_joints j = true.
Proof.
  intros H. destruct (joint_missing urdf_model virtual_joints j) eqn:Hj; [done|].
  exfalso. by apply H, joint_missing_known.
Qed.

Lemma group_not_known (groups : list Group.t) (n : string) :
  n ∉ Group.name_ <$> groups → group_known groups n = false.
Proof.
  intros H. destruct (group_known groups n) eqn:Hg; [|done].
  exfalso. by apply H, group_known_spec.
Qed.

Lemma type_not_known (ty : string) :
  ty ∉ joint_types → known_type ty = false.
Proof.
  intros H. destruct (known_type ty) eqn:Hk; [|done].
  exfalso. by apply H, known_type_spec.
Qed.

Lemma chain_not_found (base_str : string) (base_link tip_link : Link) :
  ¬ connected base_str base_link tip_link →
  chain_found base_str (Some tip_link) (Some base_link) = false.
Proof.
  intros H.
  destruct (chain_found base_str (Some tip_link) (Some base_link)) eqn:Hf;
    [|done].
  exfalso. by apply H, chain_found_connected.
Qed.

Ltac use_fault_conditions :=
  repeat match goal with
    | H : ¬ link_known _ _ |- _ => apply not_link_known in H
    | H : link_known _ _ |- _ => destruct H as [? H]
    | H : ¬ joint_known _ _ _ |- _ => apply joint_not_known in H
    | H : joint_known _ _ _ |- _ => apply joint_missing_known in H
    | H : _ ∉ Group.name_ <$> _ |- _ => apply group_not_known in H
    | H : _ ∈ Group.name_ <$> _ |- _ => apply group_known_spec in H
    | H : _ ∉ joint_types |- _ => apply type_not_known in H
    | H : ¬ connected _ _ _ |- _ => apply chain_not_found in H
    | H : is_Some (_ _) |- _ => destruct H as [? H]
    end;
  cbv zeta;
  repeat match goal with H : _ = _ |- _ => rewrite H end.

Ltac error_reported :=
  cbn [report negb fst snd]; apply elem_of_app; right; by left.

Section FaultsReported.

Context {D : Type}.
Variable lexical_cast : string → option D.
Variable urdf_model : ModelInterface.

Lemma virtual_joint_fault_reported (e : TiXmlElement) (d : Diagnostic) :
  virtual_joint_fault urdf_model e d →
  ∀ st, d ∈ snd (loadVirtualJoint urdf_model e st).
Proof.
  intros Hf [acc log]. unfold loadVirtualJoint.
  destruct Hf; use_fault_conditions; error_reported.
Qed.

Lemma group_link_fault_reported (gname : string) (c : TiXmlElement)
    (d : Diagnostic) :
  group_link_fault urdf_model gname c d →
  ∀ st, d ∈ snd (loadGroupLink urdf_model gname c st).
Proof.
  intros Hf [acc log]. unfold loadGroupLink.
  destruct Hf; use_fault_conditions; error_reported.
Qed.

Lemma group_joint_fault_reported (virtual_joints : list VirtualJoint.t)
    (gname : string) (c : TiXmlElement) (d : Diagnostic) :
  group_joint_fault urdf_model virtual_joints gname c d →
  ∀ st, d ∈ snd (loadGroupJoint urdf_model virtual_joints gname c st).
Proof.
  intros Hf [acc log]. unfold loadGroupJoint.
  destruct Hf; use_fault_conditions; error_reported.
Qed.

Lemma chain_fault_reported (gname : string) (c : TiXmlElement)
    (d : Diagnostic) :
  chain_fault urdf_model gname c d →
  ∀ st, d ∈ snd (loadGroupChain urdf_model gname c st).
Proof.
  intros Hf [acc log]. unfold loadGroupChain.
  destruct Hf; use_fault_conditions; error_reported.
Qed.

Lemma subgroup_fault_reported (c : TiXmlElement) (d : Diagnostic) :
  subgroup_fault c d → ∀ st, d ∈ snd (loadSubgroup c st).
Proof.
  intros Hf [acc log]. unfold loadSubgroup.
  destruct Hf; use_fault_conditions; error_reported.
Qed.

Lemma end_effector_fault_reported (groups : list Group.t) (e : TiXmlElement)
    (d : Diagnostic) :
  end_effector_fault urdf_model groups e d →
  ∀ st, d ∈ snd (loadEndEffector urdf_model groups e st).
Proof.
  intros Hf [acc log]. unfold loadEndEffector.
  destruct Hf; use_fault_conditions; error_reported.
Qed.

Lemma sensor_fault_reported (e : TiXmlElement) (d : Diagnostic) :
  sensor_fault lexical_cast e d →
  ∀ st, d ∈ snd (loadVisualSensor lexical_cast e st).
Proof.
  intros Hf [acc log]. unfold loadVisualSensor.
  destruct Hf; use_fault_conditions; error_reported.
Qed.

Lemma collision_fault_reported (e : TiXmlElement) (d : Diagnostic) :
  collision_fault urdf_model e d →
  ∀ st, d ∈ snd (loadDisabledCollision urdf_model e st).
Proof.
  intros Hf [acc log]. unfold loadDisabledCollision.
  destruct Hf as [[H|H]|link1 link2 H1 H2 H3|link1 link2 H1 H2 H3 H4].
  - rewrite H. error_reported.
  - rewrite H. destruct (Attribute e "link1"); error_reported.
  - use_fault_conditions. error_reported.
  - use_fault_conditions. error_reported.
Qed.

Lemma group_state_fault_reported (groups : list Group.t)
    (virtual_joints : list VirtualJoint.t) (e : TiXmlElement)
    (d : Diagnostic) :
  group_state_fault groups e d →
  ∀ st, d ∈ snd (loadGroupState lexical_cast urdf_model groups virtual_joints
                   e st).
Proof.
  intros Hf [acc log]. unfold loadGroupState.
  destruct Hf; use_fault_conditions; error_reported.
Qed.

(** A token that is not a number makes the loop over the tokens end with
    the exception. *)
Lemma read_values_throws (jval : string) (m : gmap string (list D))
    (j : string) :
  throws lexical_cast (tokens jval) = true →
  ∃ m', read_values lexical_cast (rounds jval) (MkStream jval false false) j m
        = Some (m', true).
Proof.
  intros Hth. unfold rounds.
  destruct (trim_left jval) as [|c s] eqn:Hb.
  - rewrite <- tokens_trim_left, Hb in Hth. discriminate.
  - assert (Hc : isspace c = false) by (eapply trim_left_head, Hb).
    rewrite (read_values_round lexical_cast _ _ c s m j Hb).
    destruct (take_word_tokens c s Hc) as [Ht Hl].
    rewrite <- tokens_trim_left, Hb, Ht in Hth.
    unfold throws in Hth. cbn [existsb] in Hth. cbv zeta.
    destruct (lexical_cast (fst (take_word (String c s)))) as [d|];
      [|by eexists].
    destruct (read_values_rest lexical_cast (String.length jval)
                (trim_left (snd (take_word (String c s))))
                (push_back (index m j) j d) j) as (m' & Hrun & _).
    { pose proof (trim_left_length (snd (take_word (String c s)))).
      pose proof (trim_left_length jval). rewrite Hb in *. simpl in *. lia. }
    { apply trim_left_idem. }
    rewrite tokens_trim_left in Hrun. unfold throws in Hrun.
    cbn [orb] in Hth. rewrite Hth in Hrun. by exists m'.
Qed.

Lemma joint_value_fault_reported (virtual_joints : list VirtualJoint.t)
    (sname : string) (c : TiXmlElement) (d : Diagnostic) :
  joint_value_fault lexical_cast urdf_model virtual_joints sname c d →
  ∀ st, d ∈ snd (loadJointValue lexical_cast urdf_model virtual_joints
                   sname c st).
Proof.
  intros Hf [acc log]. unfold loadJointValue.
  destruct Hf as [H1|jname H1 H2|jname jval H1 H2 H3|jname jval H1 H2 H3 H4].
  - use_fault_conditions. error_reported.
  - use_fault_conditions. error_reported.
  - use_fault_conditions. error_reported.
  - destruct (read_values_throws jval acc (trim jname) H4) as [m' Hrun].
    use_fault_conditions. unfold report.
    destruct (bool_decide (m' = ∅)); cbn [fst snd].
    + apply elem_of_app. left. apply elem_of_app. right. by left.
    + apply elem_of_app. right. by left.
Qed.

(** What a child of a group element reports is reported by the group
    element. *)
Lemma loadGroup_reports_child (virtual_joints : list VirtualJoint.t)
    (e : TiXmlElement) (gname : string) (d : Diagnostic) :
  Attribute e "name" = Some gname →
  (∃ c, c ∈ ChildElements "link" (child_nodes e)
        ∧ ∀ st, d ∈ snd (loadGroupLink urdf_model gname c st))
  ∨ (∃ c, c ∈ ChildElements "joint" (child_nodes e)
          ∧ ∀ st, d ∈ snd (loadGroupJoint urdf_model virtual_joints gname c st))
  ∨ (∃ c, c ∈ ChildElements "chain" (child_nodes e)
          ∧ ∀ st, d ∈ snd (loadGroupChain urdf_model gname c st))
  ∨ (∃ c, c ∈ ChildElements "group" (child_nodes e)
          ∧ ∀ st, d ∈ snd (loadSubgroup c st)) →
  ∀ st, d ∈ snd (loadGroup urdf_model virtual_joints e st).
Proof.
  intros Hname Hchild [groups log]. unfold loadGroup. rewrite Hname.
  pose proof (fold_log_grows _ (λ st x, loadGroupLink_log urdf_model gname x st)
                (ChildElements "link" (child_nodes e)) ([], log)) as G1.
  pose proof (λ c Hin Hd,
                fold_reports (λ st x, loadGroupLink urdf_model gname x st)
                  (ChildElements "link" (child_nodes e)) c d
                  (λ st x, loadGroupLink_log urdf_model gname x st)
                  Hin Hd ([], log)) as R1.
  destruct (fold_left _ (ChildElements "link" _) _) as [links log1].
  pose proof (fold_log_grows _
                (λ st x, loadGroupJoint_log urdf_model virtual_joints gname x st)
                (ChildElements "joint" (child_nodes e)) ([], log1)) as G2.
  pose proof (λ c Hin Hd,
                fold_reports
                  (λ st x, loadGroupJoint urdf_model virtual_joints gname x st)
                  (ChildElements "joint" (child_nodes e)) c d
                  (λ st x, loadGroupJoint_log urdf_model virtual_joints gname x st)
                  Hin Hd ([], log1)) as R2.
  destruct (fold_left _ (ChildElements "joint" _) _) as [joints log2].
  pose proof (fold_log_grows _ (λ st x, loadGroupChain_log urdf_model gname x st)
                (ChildElements "chain" (child_nodes e)) ([], log2)) as G3.
  pose proof (λ c Hin Hd,
                fold_reports (λ st x, loadGroupChain urdf_model gname x st)
                  (ChildElements "chain" (child_nodes e)) c d
                  (λ st x, loadGroupChain_log urdf_model gname x st)
                  Hin Hd ([], log2)) as R3.
  destruct (fold_left _ (ChildElements "chain" _) _) as [chains log3].
  pose proof (fold_log_grows _ (λ st x, loadSubgroup_log x st)
                (ChildElements "group" (child_nodes e)) ([], log3)) as G4.
  pose proof (λ c Hin Hd,
                fold_reports (λ st x, loadSubgroup x st)
                  (ChildElements "group" (child_nodes e)) c d
                  (λ st x, loadSubgroup_log x st)
                  Hin Hd ([], log3)) as R4.
  destruct (fold_left _ (ChildElements "group" _) _) as [subgroups log4].
  cbn [fst snd] in *.
  assert (Hd : d ∈ log4).
  { destruct Hchild as [(c & Hin & Hd)|[(c & Hin & Hd)|[(c & Hin & Hd)
                                                        |(c & Hin & Hd)]]].
    - eapply elem_of_prefix; [exact (R1 c Hin Hd)|].
      etrans; [exact G2|]. etrans; [exact G3|exact G4].
    - eapply elem_of_prefix; [exact (R2 c Hin Hd)|].
      etrans; [exact G3|exact G4].
    - eapply elem_of_prefix; [exact (R3 c Hin Hd)|exact G4].
    - exact (R4 c Hin Hd). }
  destruct (_ && _); [apply elem_of_app; by left|done].
Qed.

Lemma loadGroupState_reports_joint (groups : list Group.t)
    (virtual_joints : list VirtualJoint.t) (e c : TiXmlElement)
    (sname gname : string) (d : Diagnostic) :
  Attribute e "name" = Some sname →
  Attribute e "group" = Some gname →
  trim gname ∈ Group.name_ <$> groups →
  c ∈ ChildElements "joint" (child_nodes e) →
  (∀ st, d ∈ snd (loadJointValue lexical_cast urdf_model virtual_joints
                    sname c st)) →
  ∀ st, d ∈ snd (loadGroupState lexical_cast urdf_model groups virtual_joints
                   e st).
Proof.
  intros Hname Hgroup Hknown Hin Hd [states log]. unfold loadGroupState.
  apply group_known_spec in Hknown. rewrite Hname, Hgroup, Hknown.
  pose proof (fold_reports
                (λ st x, loadJointValue lexical_cast urdf_model virtual_joints
                           sname x st)
                (ChildElements "joint" (child_nodes e)) c d
                (λ st x, loadJointValue_log lexical_cast urdf_model
                           virtual_joints sname x st)
                Hin Hd (∅, log)) as R.
  by destruct (fold_left _ _ _).
Qed.

(** A group element whose name is not among the groups that are left is
    reported by the subgroup check. *)
Lemma unsatisfied_reported (virtual_joints : list VirtualJoint.t)
    (l : list TiXmlElement) (e : TiXmlElement) (gname : string)
    (log log' : list Diagnostic) :
  e ∈ l → Attribute e "name" = Some gname →
  trim gname
  ∉ Group.name_ <$>
      fst (resolveGroups
             (fst (fold_left (λ st x, loadGroup urdf_model virtual_joints x st)
                     l ([], log))) log') →
  ROS_ERROR "Group '%s' has unsatisfied subgroups" [trim gname]
  ∈ snd (resolveGroups
           (fst (fold_left (λ st x, loadGroup urdf_model virtual_joints x st)
                   l ([], log))) log').
Proof.
  intros Hin Hname.
  pose proof (parse_fold_names urdf_model virtual_joints l ([], log)) as Hnames.
  set (parsed := fst (fold_left _ l ([], log))) in *.
  destruct (resolveGroups_filter parsed log') as (K & _ & _ & ->).
  cbn [fst snd]. intros Hout.
  assert (Hg : trim gname ∈ Group.name_ <$> parsed).
  { rewrite Hnames. cbn [fst fmap list_fmap app].
    apply list_elem_of_fmap_2, list_elem_of_omap. by exists e. }
  apply list_elem_of_fmap in Hg as (g & Hn & Hg).
  apply elem_of_app. right.
  change (ROS_ERROR "Group '%s' has unsatisfied subgroups" [trim gname])
    with (unsatisfied {| Group.name_ := trim gname; Group.links_ := [];
                         Group.joints_ := []; Group.chains_ := [];
                         Group.subgroups_ := [] |}).
  replace (unsatisfied _) with (unsatisfied g)
    by (unfold unsatisfied; by rewrite <- Hn).
  apply list_elem_of_fmap_2, list_elem_of_filter. split; [|done].
  intros HK. apply Hout. rewrite Hn.
  apply list_elem_of_fmap_2, list_elem_of_filter. by split.
Qed.

End FaultsReported.

Section LoadReports.

Context {D : Type}.
Variable lexical_cast : string → option D.
Variable urdf_model : ModelInterface.
Variable Parse : string → TiXmlDocument.
Variable open_file : string → option string.

Local Ltac model_fields :=
  cbn [name_ groups_ group_states_ virtual_joints_ end_effectors_
         visual_sensors_ disabled_collisions_ clear].

Local Ltac run_loaders :=
  unfold loadDisabledCollisions, loadVisualSensors, loadEndEffectors,
    loadGroupStates, loadGroups, loadVirtualJoints, parseGroups;
  model_fields;
  destruct (fold_left (λ st e, loadVirtualJoint _ e st) _ _)
    as [vjs log1] eqn:Hvj;
  model_fields;
  destruct (fold_left (λ st e, loadGroup _ vjs e st) _ _)
    as [parsed log2] eqn:Hparsed;
  destruct (resolveGroups parsed log2) as [groups log3] eqn:Hgroups;
  model_fields;
  destruct (fold_left (λ st e, loadGroupState _ _ _ _ e st) _ _)
    as [states log4] eqn:Hstates;
  model_fields;
  destruct (fold_left (λ st e, loadEndEffector _ _ e st) _ _)
    as [eefs log5] eqn:Heefs;
  model_fields;
  destruct (fold_left (λ st e, loadVisualSensor _ e st) _ _)
    as [sensors log6] eqn:Hsensors;
  model_fields;
  destruct (fold_left (λ st e, loadDisabledCollision _ e st) _ _)
    as [cols log7] eqn:Hcols;
  eexists _, vjs, log1, parsed, log2, groups, log3, states, log4, eefs, log5,
    sensors, log6, cols, log7.

(** The run of a load that finds its root element, with the messages
    each loader leaves behind. *)
Lemma initXml_run (m : Model D) (x : TiXmlElement) :
  ValueStr x = "robot" →
  ∃ log0 vjs log1 parsed log2 groups log3 states log4 eefs log5
    sensors log6 cols log7,
    (Attribute x "name" = None →
     ROS_ERROR "No name given for the robot." [] ∈ log0)
    ∧ (∀ name, Attribute x "name" = Some name →
               trim name ≠ getName urdf_model →
               ROS_ERROR "Semantic description is not specified for the same robot as the URDF" []
               ∈ log0)
    ∧ fold_left (λ st e, loadVirtualJoint urdf_model e st)
        (ChildElements "virtual_joint" (child_nodes x)) ([], log0)
      = (vjs, log1)
    ∧ fold_left (λ st e, loadGroup urdf_model vjs e st)
        (ChildElements "group" (child_nodes x)) ([], log1)
      = (parsed, log2)
    ∧ resolveGroups parsed log2 = (groups, log3)
    ∧ fold_left (λ st e, loadGroupState lexical_cast urdf_model groups vjs e st)
        (ChildElements "group_state" (child_nodes x)) ([], log3)
      = (states, log4)
    ∧ fold_left (λ st e, loadEndEffector urdf_model groups e st)
        (ChildElements "end_effector" (child_nodes x)) ([], log4)
      = (eefs, log5)
    ∧ fold_left (λ st e, loadVisualSensor lexical_cast e st)
        (ChildElements "visual_sensor" (child_nodes x)) ([], log5)
      = (sensors, log6)
    ∧ fold_left (λ st e, loadDisabledCollision urdf_model e st)
        (ChildElements "disable_collisions" (child_nodes x)) ([], log6)
      = (cols, log7)
    ∧ virtual_joints_ (loaded (initXml lexical_cast urdf_model m (Some x))) = vjs
    ∧ groups_ (loaded (initXml lexical_cast urdf_model m (Some x))) = groups
    ∧ reported (initXml lexical_cast urdf_model m (Some x)) = log7.
Proof.
  intros He. unfold initXml, loaded, reported. rewrite He.
  simpl String.eqb. cbn [negb fst snd]. cbv zeta.
  destruct (Attribute x "name") as [nm|]; model_fields.
  - destruct (String.eqb_spec (trim nm) (getName urdf_model)) as [Heq|Hne];
      cbn [negb]; run_loaders.
    + split; [done|]. split; [by intros name [= <-] ?|]. repeat split; done.
    + split; [done|]. split; [intros; by left|]. repeat split; done.
  - run_loaders. split; [intros; by left|]. split; [done|]. repeat split; done.
Qed.

Lemma unnamed_group_reported (virtual_joints : list VirtualJoint.t)
    (e : TiXmlElement) :
  Attribute e "name" = None →
  ∀ st, ROS_ERROR "Group name not specified" []
        ∈ snd (loadGroup urdf_model virtual_joints e st).
Proof.
  intros Hname [groups log]. unfold loadGroup. rewrite Hname. error_reported.
Qed.

(** Every fault of a document is among the messages of its load. *)
Lemma faults_reported (m : Model D) (x : TiXmlElement) (d : Diagnostic) :
  ValueStr x = "robot" →
  Fault lexical_cast urdf_model
    (virtual_joints_ (loaded (initXml lexical_cast urdf_model m (Some x))))
    (groups_ (loaded (initXml lexical_cast urdf_model m (Some x)))) x d →
  d ∈ reported (initXml lexical_cast urdf_model m (Some x)).
Proof.
  intros He.
  destruct (initXml_run m x He)
    as (log0 & vjs & log1 & parsed & log2 & groups & log3 & states & log4
        & eefs & log5 & sensors & log6 & cols & log7
        & Hnone & Hother & Hvj & Hparsed & Hgroups & Hstates & Heefs
        & Hsensors & Hcols & -> & -> & ->).
  assert (P01 : log0 `prefix_of` log1).
  { pose proof (fold_log_grows (λ st e, loadVirtualJoint urdf_model e st)
                  (λ st e, loadVirtualJoint_log urdf_model e st)
                  (ChildElements "virtual_joint" (child_nodes x)) ([], log0))
      as H.
    by rewrite Hvj in H. }
  assert (P12 : log1 `prefix_of` log2).
  { pose proof (fold_log_grows (λ st e, loadGroup urdf_model vjs e st)
                  (λ st e, loadGroup_log urdf_model vjs e st)
                  (ChildElements "group" (child_nodes x)) ([], log1)) as H.
    by rewrite Hparsed in H. }
  assert (P23 : log2 `prefix_of` log3).
  { pose proof (resolveGroups_log parsed log2) as H. by rewrite Hgroups in H. }
  assert (P34 : log3 `prefix_of` log4).
  { pose proof (fold_log_grows
                  (λ st e, loadGroupState lexical_cast urdf_model groups vjs e st)
                  (λ st e, loadGroupState_log lexical_cast urdf_model groups vjs
                             e st)
                  (ChildElements "group_state" (child_nodes x)) ([], log3)) as H.
    by rewrite Hstates in H. }
  assert (P45 : log4 `prefix_of` log5).
  { pose proof (fold_log_grows (λ st e, loadEndEffector urdf_model groups e st)
                  (λ st e, loadEndEffector_log urdf_model groups e st)
                  (ChildElements "end_effector" (child_nodes x)) ([], log4))
      as H.
    by rewrite Heefs in H. }
  assert (P56 : log5 `prefix_of` log6).
  { pose proof (fold_log_grows (λ st e, loadVisualSensor lexical_cast e st)
                  (λ st e, loadVisualSensor_log lexical_cast e st)
                  (ChildElements "visual_sensor" (child_nodes x)) ([], log5))
      as H.
    by rewrite Hsensors in H. }
  assert (P67 : log6 `prefix_of` log7).
  { pose proof (fold_log_grows (λ st e, loadDisabledCollision urdf_model e st)
                  (λ st e, loadDisabledCollision_log urdf_model e st)
                  (ChildElements "disable_collisions" (child_nodes x))
                  ([], log6)) as H.
    by rewrite Hcols in H. }
  assert (P57 : log5 `prefix_of` log7) by (by etrans).
  assert (P47 : log4 `prefix_of` log7) by (by etrans).
  assert (P37 : log3 `prefix_of` log7) by (by etrans).
  assert (P27 : log2 `prefix_of` log7) by (by etrans).
  assert (P17 : log1 `prefix_of` log7) by (by etrans).
  assert (P07 : log0 `prefix_of` log7) by (by etrans).
  assert (Hgroup : ∀ e, e ∈ ChildElements "group" (child_nodes x) →
            (∀ st, d ∈ snd (loadGroup urdf_model vjs e st)) → d ∈ log7).
  { intros e Hin Hd. eapply elem_of_prefix; [|exact P27].
    pose proof (fold_reports (λ st e, loadGroup urdf_model vjs e st)
                  (ChildElements "group" (child_nodes x)) e d
                  (λ st e, loadGroup_log urdf_model vjs e st) Hin Hd ([], log1))
      as H.
    by rewrite Hparsed in H. }
  assert (Hstate : ∀ e, e ∈ ChildElements "group_state" (child_nodes x) →
            (∀ st, d ∈ snd (loadGroupState lexical_cast urdf_model groups vjs
                              e st)) → d ∈ log7).
  { intros e Hin Hd. eapply elem_of_prefix; [|exact P47].
    pose proof (fold_reports
                  (λ st e, loadGroupState lexical_cast urdf_model groups vjs e st)
                  (ChildElements "group_state" (child_nodes x)) e d
                  (λ st e, loadGroupState_log lexical_cast urdf_model groups vjs
                             e st) Hin Hd ([], log3)) as H.
    by rewrite Hstates in H. }
  intros HF.
  destruct HF as [Hname|name Hname Hdiff|e d Hin Hf|e d Hin Hf
                 |e c gname d Hin Hname Hc Hf|e c gname d Hin Hname Hc Hf
                 |e c gname d Hin Hname Hc Hf|e c gname d Hin Hname Hc Hf
                 |e d Hin Hf|e c sname gname d Hin Hname Hgroup' Hknown Hc Hf
                 |e d Hin Hf|e d Hin Hf|e d Hin Hf].
  - eapply elem_of_prefix; [by apply Hnone|exact P07].
  - eapply elem_of_prefix; [by eapply Hother|exact P07].
  - eapply elem_of_prefix; [|exact P17].
    pose proof (fold_reports (λ st e, loadVirtualJoint urdf_model e st)
                  (ChildElements "virtual_joint" (child_nodes x)) e d
                  (λ st e, loadVirtualJoint_log urdf_model e st) Hin
                  (virtual_joint_fault_reported urdf_model e d Hf) ([], log0))
      as H.
    by rewrite Hvj in H.
  - destruct Hf as [Hname|gname Hname Hout].
    + apply (Hgroup e Hin). by apply unnamed_group_reported.
    + eapply elem_of_prefix; [|exact P37].
      pose proof (unsatisfied_reported urdf_model vjs
                    (ChildElements "group" (child_nodes x)) e gname log1 log2
                    Hin Hname) as H.
      rewrite Hparsed in H. cbn [fst] in H. rewrite Hgroups in H.
      by apply H.
  - apply (Hgroup e Hin).
    apply (loadGroup_reports_child urdf_model vjs e gname d Hname).
    left. exists c. split; [done|]. by apply group_link_fault_reported.
  - apply (Hgroup e Hin).
    apply (loadGroup_reports_child urdf_model vjs e gname d Hname).
    right; left. exists c. split; [done|]. by apply group_joint_fault_reported.
  - apply (Hgroup e Hin).
    apply (loadGroup_reports_child urdf_model vjs e gname d Hname).
    right; right; left. exists c. split; [done|]. by apply chain_fault_reported.
  - apply (Hgroup e Hin).
    apply (loadGroup_reports_child urdf_model vjs e gname d Hname).
    right; right; right. exists c. split; [done|].
    by apply subgroup_fault_reported.
  - apply (Hstate e Hin). by apply group_state_fault_reported.
  - apply (Hstate e Hin).
    apply (loadGroupState_reports_joint lexical_cast urdf_model groups vjs e c
             sname gname d Hname Hgroup' Hknown Hc).
    by apply joint_value_fault_reported.
  - eapply elem_of_prefix; [|exact P57].
    pose proof (fold_reports (λ st e, loadEndEffector urdf_model groups e st)
                  (ChildElements "end_effector" (child_nodes x)) e d
                  (λ st e, loadEndEffector_log urdf_model groups e st) Hin
                  (end_effector_fault_reported urdf_model groups e d Hf)
                  ([], log4)) as H.
    by rewrite Heefs in H.
  - eapply elem_of_prefix; [|exact P67].
    pose proof (fold_reports (λ st e, loadVisualSensor lexical_cast e st)
                  (ChildElements "visual_sensor" (child_nodes x)) e d
                  (λ st e, loadVisualSensor_log lexical_cast e st) Hin
                  (sensor_fault_reported lexical_cast e d Hf) ([], log5)) as H.
    by rewrite Hsensors in H.
  - pose proof (fold_reports (λ st e, loadDisabledCollision urdf_model e st)
                  (ChildElements "disable_collisions" (child_nodes x)) e d
                  (λ st e, loadDisabledCollision_log urdf_model e st) Hin
                  (collision_fault_reported urdf_model e d Hf) ([], log6)) as H.
    by rewrite Hcols in H.
Qed.

(** C6 (amended).  A load on a root element fails exactly when the root
    is absent or is not tagged [robot].  A load on a document, on a text
    or on a file fails exactly when the document has no top-level element
    tagged [robot], or the file cannot be opened; otherwise it is the
    load on the first top-level [robot] element, whatever top-level
    elements come before it.  Every load on a [robot] element succeeds,
    and every fault of the document is reported: a missing robot name, a
    name that differs from the one of the kinematic model, and for every
    element and child element of the six loaders the first check that
    fails, an unknown type of a virtual joint, a joint value with a
    token that is not a number, and a group whose subgroups are not
    satisfied. *)
Theorem load_fails_only_without_robot_root (m : Model D) :
  (∀ robot_xml,
     succeeded (initXml lexical_cast urdf_model m robot_xml) = false
     ↔ robot_xml = None
       ∨ ∃ e, robot_xml = Some e ∧ ValueStr e ≠ "robot")
  ∧ (∀ xml,
       succeeded (initXmlDocument lexical_cast urdf_model m xml) = false
       ↔ xml ≫= (λ doc, FirstChildElement "robot" (top_level doc)) = None)
  ∧ (∀ xmlstring,
       succeeded (initString lexical_cast urdf_model Parse m xmlstring) = false
       ↔ FirstChildElement "robot" (top_level (Parse xmlstring)) = None)
  ∧ (∀ filename,
       succeeded (initFile lexical_cast urdf_model Parse open_file m filename)
       = false
       ↔ open_file filename = None
         ∨ ∃ contents,
             open_file filename = Some contents
             ∧ FirstChildElement "robot"
                 (top_level (Parse (read_lines contents))) = None)
  ∧ (∀ xml e,
       xml ≫= (λ doc, FirstChildElement "robot" (top_level doc)) = Some e →
       ValueStr e = "robot"
       ∧ initXmlDocument lexical_cast urdf_model m xml
         = initXml lexical_cast urdf_model m (Some e))
  ∧ (∀ e, ValueStr e = "robot" →
       succeeded (initXml lexical_cast urdf_model m (Some e)) = true
       ∧ ∀ d,
           Fault lexical_cast urdf_model
             (virtual_joints_
                (loaded (initXml lexical_cast urdf_model m (Some e))))
             (groups_ (loaded (initXml lexical_cast urdf_model m (Some e))))
             e d →
           d ∈ reported (initXml lexical_cast urdf_model m (Some e))).
Proof.
  destruct (load_result_cases lexical_cast urdf_model Parse open_file m)
    as (Helem & Hdoc & Hstring & Hfile & _).
  split; [exact Helem|]. split; [exact Hdoc|]. split; [exact Hstring|].
  split; [exact Hfile|]. split.
  - intros xml e Hroot.
    destruct (initXmlDocument_result lexical_cast urdf_model m xml)
      as [(e' & Hroot' & He' & Hload)|[Hnone _]]; [|congruence].
    rewrite Hroot in Hroot'. injection Hroot' as <-. done.
  - intros e He. split; [by apply initXml_succeeds|].
    intros d. by apply faults_reported.
Qed.

End LoadReports.

(** C6, as stated, fails for a document: the first top-level element of
    [mixed_doc] is not tagged [robot], and the load succeeds, on the
    [robot] element that follows it. *)
Lemma later_robot_element_is_loaded :
  head (top_level mixed_doc) = Some (leaf "machine" [])
  ∧ ValueStr (leaf "machine" []) ≠ "robot"
  ∧ succeeded (initXmlDocument decimal_cast arm_urdf used_model (Some mixed_doc))
    = true
  ∧ succeeded (initString decimal_cast arm_urdf (λ _, mixed_doc) used_model
                 "<machine/><robot name='arm'/>")
    = true.
Proof. repeat split; try reflexivity. discriminate. Qed.

Lemma load_fails_only_without_robot_root_witness :
  succeeded (initXmlDocument decimal_cast arm_urdf used_model (Some stray_doc))
  = false
  ∧ succeeded (initFile decimal_cast arm_urdf sample_parse sample_disk
                 used_model "arm.srdf") ≠ false
  ∧ ValueStr faulty_doc = "robot"
  ∧ succeeded (initXml decimal_cast arm_urdf used_model (Some faulty_doc)) = true
  ∧ Forall (λ d, d ∈ reported (initXml decimal_cast arm_urdf used_model
                                 (Some faulty_doc)))
      [ ROS_ERROR "Semantic description is not specified for the same robot as the URDF" [];
        ROS_ERROR "Virtual joint does not attach to a link on the robot (link '%s' is not known)" ["sky"];
        ROS_ERROR "Link '%s' declared as part of group '%s' is not known to the URDF" ["finger"; "arm"];
        ROS_ERROR "Tip link name not specified for chain" [];
        ROS_ERROR "Group '%s' has unsatisfied subgroups" ["both"];
        ROS_ERROR "Unable to parse joint value '%s'" ["1 x"];
        ROS_ERROR "End effector '%s' specified for group '%s', but that group is not known" ["tool"; "leg"];
        ROS_ERROR "Unable to parse field of view angle ('%s') for sensor '%s'" ["wide"; "cam"];
        ROS_ERROR "A pair of links needs to be specified to disable collisions" [] ].
Proof.
  pose proof (load_fails_only_without_robot_root decimal_cast arm_urdf
                sample_parse sample_disk used_model)
    as (_ & Hdoc & _ & Hfile & _ & Hfaults).
  split; [apply Hdoc; reflexivity|].
  split.
  { intros Hfail. apply Hfile in Hfail as [Hopen|(contents & Hopen & Hroot)].
    - discriminate Hopen.
    - injection Hopen as <-. discriminate Hroot. }
  split; [reflexivity|].
  destruct (Hfaults faulty_doc eq_refl) as [Hok Hrep].
  split; [exact Hok|].
  repeat apply Forall_cons_2; [..|apply Forall_nil_2]; apply Hrep.
  - apply (fault_robot_other _ _ _ _ _ "other"); [reflexivity|discriminate].
  - eapply fault_virtual_joint; [vm_compute; left|].
    apply (vj_child_unknown _ _ "world_joint" "sky"); [reflexivity..|].
    intros [l Hl]. discriminate Hl.
  - eapply (fault_group_link _ _ _ _ _ _ _ "arm");
      [vm_compute; left|reflexivity|vm_compute; left|].
    apply (link_unknown _ _ _ "finger"); [reflexivity|].
    intros [l Hl]. discriminate Hl.
  - eapply (fault_chain _ _ _ _ _ _ _ "arm");
      [vm_compute; left|reflexivity|vm_compute; left|].
    by apply (chain_no_tip _ _ _ "root").
  - eapply fault_group; [vm_compute; right; left|].
    apply (group_unsatisfied _ _ "both"); [reflexivity|].
    vm_compute. intros [H|H%elem_of_nil]%elem_of_cons; [discriminate H|done].
  - eapply (fault_joint_value _ _ _ _ _ _ _ "home" "arm");
      [vm_compute; left|reflexivity|reflexivity|vm_compute; left
      |vm_compute; left|].
    apply (value_not_a_number _ _ _ _ _ "wrist_joint" "1 x");
      [reflexivity|reflexivity|by left|reflexivity].
  - eapply fault_end_effector; [vm_compute; left|].
    apply (effector_group_unknown _ _ _ "tool" "leg"); [reflexivity..|].
    vm_compute. intros [H|H%elem_of_nil]%elem_of_cons; [discriminate H|done].
  - eapply fault_sensor; [vm_compute; left|].
    by apply (sensor_bad_fov _ _ "cam" "hand" "wide" "0.1" "5").
  - eapply fault_collision; [vm_compute; left|].
    apply collision_no_pair. by right.
Defined.
